(** * Smarty editor support: tag scanning, delimiter detection and
      relative-path completion

    A shallow embedding of [client/src/extension.ts] ([updateDecorations],
    [setLanguageConfiguration]) and of
    [client/src/language/completionItem.ts] ([provideCompletionItems]).

    JavaScript strings are sequences of UTF-16 code units; they are
    modelled as [list N].  The regular expressions of the source are kept
    as syntax trees and run by a backtracking matcher that follows the
    ECMAScript matching order (ordered alternation, greedy and lazy
    quantifiers, lookbehind evaluated right to left). *)

From Stdlib Require Import String Ascii.
From Stdlib Require Import List NArith Arith Bool Lia Sorted.
Import ListNotations.
Local Open Scope string_scope.
Local Open Scope list_scope.

Set Implicit Arguments.

(** ** Strings *)

Definition code_unit := N.
Definition str := list code_unit.

(** Code units of a literal of the development. *)
Definition js (s : String.string) : str :=
  map Ascii.N_of_ascii (String.list_ascii_of_string s).

Fixpoint str_eqb (a b : str) : bool :=
  match a, b with
  | [], [] => true
  | x :: a', y :: b' => N.eqb x y && str_eqb a' b'
  | _, _ => false
  end.

(** [String.prototype.startsWith] *)
Fixpoint startsWith (s p : str) {struct p} : bool :=
  match p with
  | [] => true
  | c :: p' =>
      match s with
      | [] => false
      | d :: s' => N.eqb d c && startsWith s' p'
      end
  end.

(** [String.prototype.includes] *)
Fixpoint includes (s p : str) : bool :=
  startsWith s p ||
  match s with
  | [] => false
  | _ :: s' => includes s' p
  end.

(** [Array.prototype.includes] on an array of strings. *)
Fixpoint array_includes (l : list str) (x : str) : bool :=
  match l with
  | [] => false
  | y :: l' => str_eqb y x || array_includes l' x
  end.

(** [String.prototype.substring] for [a <= b]. *)
Definition substring (s : str) (a b : nat) : str :=
  firstn (b - a) (skipn a s).

(** ** Regular expressions *)

Inductive class_item : Type :=
| CChar (c : code_unit)            (* a single character *)
| CSpace.                          (* \s *)

(** [\s]: WhiteSpace and LineTerminator code points. *)
Definition is_space (c : code_unit) : bool :=
  ((9 <=? c) && (c <=? 13) ||
   (c =? 32) || (c =? 160) || (c =? 5760) ||
   (8192 <=? c) && (c <=? 8202) ||
   (c =? 8232) || (c =? 8233) || (c =? 8239) || (c =? 8287) ||
   (c =? 12288) || (c =? 65279))%N.

(** LineTerminator: what [.] refuses without the [s] flag. *)
Definition is_line_terminator (c : code_unit) : bool :=
  ((c =? 10) || (c =? 13) || (c =? 8232) || (c =? 8233))%N.

Definition item_matches (i : class_item) (c : code_unit) : bool :=
  match i with
  | CChar d => N.eqb c d
  | CSpace => is_space c
  end.

Inductive regex : Type :=
| Eps                                        (* empty pattern *)
| Chr (c : code_unit)                        (* literal character *)
| Dot                                        (* . *)
| Cls (negated : bool) (items : list class_item)   (* [...] and [^...] *)
| Seq (r1 r2 : regex)
| Alt (r1 r2 : regex)                        (* r1|r2 *)
| Star (greedy : bool) (r : regex)           (* r* and r*? *)
| Group (n : nat) (r : regex)                (* n-th capturing group *)
| LookBehind (r : regex)                     (* (?<=r) *)
| EndInput.                                  (* $ without the m flag *)

(** [r+] and [r?] *)
Definition Plus (r : regex) : regex := Seq r (Star true r).
Definition Opt (r : regex) : regex := Alt r Eps.

Definition char_matches (r : regex) (c : code_unit) : bool :=
  match r with
  | Chr d => N.eqb c d
  | Dot => negb (is_line_terminator c)
  | Cls neg items => xorb neg (existsb (fun i => item_matches i c) items)
  | _ => false
  end.

Fixpoint groups_in (r : regex) : list nat :=
  match r with
  | Seq a b | Alt a b => groups_in a ++ groups_in b
  | Star _ a | LookBehind a => groups_in a
  | Group n a => n :: groups_in a
  | _ => []
  end.

(** ** Matcher state

    The input is held as a zipper: [before] is the text left of the
    current position, nearest character first, [after] the text right of
    it.  The end index of the ECMAScript state is [length before]. *)

Definition captures := list (nat * str).

Record mstate : Type := MState {
  before : list code_unit;
  after : list code_unit;
  caps : captures
}.

Definition endIndex (x : mstate) : nat := length (before x).

Inductive direction : Type := Fwd | Bwd.

Fixpoint get_cap (cs : captures) (n : nat) : option str :=
  match cs with
  | [] => None
  | (k, v) :: cs' => if Nat.eqb k n then Some v else get_cap cs' n
  end.

Definition set_cap (n : nat) (v : str) (x : mstate) : mstate :=
  MState (before x) (after x) ((n, v) :: caps x).

Definition clear_caps (ns : list nat) (x : mstate) : mstate :=
  MState (before x) (after x)
         (filter (fun kv => negb (existsb (Nat.eqb (fst kv)) ns)) (caps x)).

Definition with_caps (x : mstate) (cs : captures) : mstate :=
  MState (before x) (after x) cs.

(** One character in the given direction. *)
Definition step (d : direction) (x : mstate) : option (code_unit * mstate) :=
  match d with
  | Fwd =>
      match after x with
      | [] => None
      | c :: r => Some (c, MState (c :: before x) r (caps x))
      end
  | Bwd =>
      match before x with
      | [] => None
      | c :: l => Some (c, MState l (c :: after x) (caps x))
      end
  end.

(** Characters left in the given direction. *)
Definition avail (d : direction) (x : mstate) : nat :=
  match d with
  | Fwd => length (after x)
  | Bwd => length (before x)
  end.

(** Text between two states of one match: [x] is where the group was
    entered, [y] where it was left. *)
Definition between (d : direction) (x y : mstate) : str :=
  match d with
  | Fwd => firstn (length (after x) - length (after y)) (after x)
  | Bwd => rev (firstn (length (before x) - length (before y)) (before x))
  end.

Definition cont := mstate -> option mstate.

Definition or_else (a : option mstate) (b : unit -> option mstate) :=
  match a with
  | Some z => Some z
  | None => b tt
  end.

(** RepeatMatcher for [r*] and [r*?]: [body] runs one iteration of the
    quantified atom.  An iteration that consumes nothing is refused
    (step 2.b of the ECMAScript RepeatMatcher), so [n] iterations are
    enough when [n] exceeds the number of characters left. *)
Fixpoint repeat_matcher (body : mstate -> cont -> option mstate)
    (greedy : bool) (k : cont) (n : nat) (x : mstate) : option mstate :=
  match n with
  | 0 => None
  | S n' =>
      let iter := fun _ : unit =>
        body x (fun y => if Nat.eqb (endIndex y) (endIndex x) then None
                         else repeat_matcher body greedy k n' y) in
      if greedy then or_else (iter tt) (fun _ => k x)
      else or_else (k x) iter
  end.

(** The backtracking matcher, in continuation-passing style as in the
    ECMAScript specification. *)
Fixpoint rmatch (r : regex) (d : direction) (x : mstate) (k : cont)
  : option mstate :=
  match r with
  | Eps => k x
  | Chr _ | Dot | Cls _ _ =>
      match step d x with
      | Some (c, y) => if char_matches r c then k y else None
      | None => None
      end
  | Seq r1 r2 =>
      match d with
      | Fwd => rmatch r1 d x (fun y => rmatch r2 d y k)
      | Bwd => rmatch r2 d x (fun y => rmatch r1 d y k)
      end
  | Alt r1 r2 => or_else (rmatch r1 d x k) (fun _ => rmatch r2 d x k)
  | Star greedy r1 =>
      repeat_matcher
        (fun x' k' => rmatch r1 d (clear_caps (groups_in r1) x') k')
        greedy k (S (avail d x)) x
  | Group n r1 =>
      rmatch r1 d x (fun y => k (set_cap n (between d x y) y))
  | LookBehind r1 =>
      match rmatch r1 Bwd x (fun y => Some y) with
      | Some y => k (with_caps x (caps y))
      | None => None
      end
  | EndInput =>
      match after x with
      | [] => k x
      | _ :: _ => None
      end
  end.

(** ** RegExp objects *)

Record match_result : Type := MatchResult {
  index : nat;              (* match.index *)
  match0 : str;             (* match[0] *)
  groups : captures;        (* match[1], match[2], ... *)
  lastIndex : nat           (* index after the match *)
}.

Definition group (m : match_result) (n : nat) : str :=
  match get_cap (groups m) n with
  | Some v => v
  | None => []
  end.

(** Leftmost match at or after the current position. *)
Fixpoint search (re : regex) (l r : list code_unit) : option match_result :=
  match rmatch re Fwd (MState l r []) (fun y => Some y) with
  | Some y =>
      Some (MatchResult (length l)
                        (between Fwd (MState l r []) y)
                        (caps y)
                        (endIndex y))
  | None =>
      match r with
      | [] => None
      | c :: r' => search re (c :: l) r'
      end
  end.

(** [RegExp.prototype.exec] of a global regular expression whose
    [lastIndex] property holds [i]. *)
Definition exec_from (re : regex) (s : str) (i : nat) : option match_result :=
  if Nat.ltb (length s) i then None
  else search re (rev (firstn i s)) (skipn i s).

(** [exec], [String.prototype.match] and [test] without the [g] flag. *)
Definition exec (re : regex) (s : str) : option match_result :=
  search re [] s.

(** [String.prototype.replace] with a regular expression without the [g]
    flag and a replacement text free of [$] patterns. *)
Definition replace (s : str) (re : regex) (by_ : str) : str :=
  match exec re s with
  | Some m => firstn (index m) s ++ by_ ++ skipn (lastIndex m) s
  | None => s
  end.

(** ** The regular expressions of the source *)

Definition lbrace : code_unit := 123%N.
Definition rbrace : code_unit := 125%N.
Definition star_c : code_unit := 42%N.
Definition slash : code_unit := 47%N.
Definition newline : code_unit := 10%N.
Definition dquote : code_unit := 34%N.
Definition squote : code_unit := 39%N.

Fixpoint lit (s : str) : regex :=
  match s with
  | [] => Eps
  | [c] => Chr c
  | c :: s' => Seq (Chr c) (lit s')
  end.

Fixpoint seqs (rs : list regex) : regex :=
  match rs with
  | [] => Eps
  | [r] => r
  | r :: rs' => Seq r (seqs rs')
  end.

(** [[^{}]] *)
Definition not_brace : regex := Cls true [CChar lbrace; CChar rbrace].

(** [([^{}]|{[^{}]*})*] *)
Definition tag_body (n : nat) : regex :=
  Star true
    (Group n (Alt not_brace
                  (seqs [Chr lbrace; Star true not_brace; Chr rbrace]))).

(** [/({{?\*.*?\*}}?)|{{?[^}\n\s]([^{}]|{[^{}]*})*}}?/g] *)
Definition smartyRegExp : regex :=
  Alt
    (Group 1 (seqs [Chr lbrace; Opt (Chr lbrace); Chr star_c;
                    Star false Dot;
                    Chr star_c; Chr rbrace; Opt (Chr rbrace)]))
    (seqs [Chr lbrace; Opt (Chr lbrace);
           Cls true [CChar rbrace; CChar newline; CSpace];
           tag_body 2;
           Chr rbrace; Opt (Chr rbrace)]).

(** [/({{\*.*?\*}})|{{[^}\n\s]([^{}]|{[^{}]*})*}}/m] *)
Definition doubleBraceRegExp : regex :=
  Alt
    (Group 1 (seqs [Chr lbrace; Chr lbrace; Chr star_c;
                    Star false Dot;
                    Chr star_c; Chr rbrace; Chr rbrace]))
    (seqs [Chr lbrace; Chr lbrace;
           Cls true [CChar rbrace; CChar newline; CSpace];
           tag_body 2;
           Chr rbrace; Chr rbrace]).

(** [/(?<={include\s+|file=)['"]([^'"\s]+)$/] *)
Definition regex_start : regex :=
  seqs [LookBehind (Alt (Seq (lit (js "{include")) (Plus (Cls false [CSpace])))
                        (lit (js "file=")));
        Cls false [CChar squote; CChar dquote];
        Group 1 (Plus (Cls true [CChar squote; CChar dquote; CSpace]));
        EndInput].

(** [/[^\/]+$/] *)
Definition trailing_segment : regex :=
  Seq (Plus (Cls true [CChar slash])) EndInput.

(** [/\/.+/] *)
Definition after_first_slash : regex :=
  Seq (Chr slash) (Plus Dot).

(** ** [updateDecorations] (extension.ts)

    [document.positionAt] and [document.getText(range)] are inverse to
    each other on the offsets of a match, so a position of the scanned
    document is kept as its offset and a [Range] as a pair of offsets. *)

Record Range (P : Type) : Type := MkRange {
  range_start : P;
  range_end : P
}.

Record DecorationOptions : Type := Decoration {
  range : Range nat
}.

Definition getText (docText : str) (r : Range nat) : str :=
  substring docText (range_start r) (range_end r).

Definition literal_open : str := js "{literal}".
Definition literal_close : str := js "{/literal}".

(** Body of the [while] loop: the decoration of the match [m] is pushed
    unless the last pushed decoration holds [{literal}] and the match does
    not hold [{/literal}]. *)
Definition push_decoration (docText : str) (smartyTags : list DecorationOptions)
    (m : match_result) : list DecorationOptions :=
  let startPos := index m in
  let endPos := index m + length (match0 m) in
  let rng := MkRange startPos endPos in
  let rangeTxt := getText docText rng in
  let decoration := Decoration rng in
  let prevRange := last (map Some smartyTags) None in
  let prevRangeTxt :=
    match prevRange with
    | Some p => getText docText (range p)
    | None => []
    end in
  if negb (includes prevRangeTxt literal_open) || includes rangeTxt literal_close
  then smartyTags ++ [decoration]
  else smartyTags.

(** [while (match = smartyRegExp.exec(docText)) { ... }]: [i] is the
    [lastIndex] of the regular expression, [None] stands for a loop that
    has not ended after [fuel] iterations. *)
Fixpoint decorate_loop (fuel : nat) (docText : str) (i : nat)
    (smartyTags : list DecorationOptions) : option (list DecorationOptions) :=
  match fuel with
  | 0 => None
  | S fuel' =>
      match exec_from smartyRegExp docText i with
      | None => Some smartyTags
      | Some m =>
          decorate_loop fuel' docText (lastIndex m)
                        (push_decoration docText smartyTags m)
      end
  end.

Record TextEditor : Type := Editor {
  languageId : str;
  document_text : str
}.

Inductive decorations_effect : Type :=
| NoCall                                          (* early return *)
| SetDecorations (tags : list DecorationOptions). (* setDecorations(...) *)

Definition updateDecorations (fuel : nat) (activeTextEditor : option TextEditor)
  : option decorations_effect :=
  match activeTextEditor with
  | None => Some NoCall
  | Some ed =>
      if negb (str_eqb (languageId ed) (js "smarty")) then Some NoCall
      else
        match decorate_loop fuel (document_text ed) 0 [] with
        | Some tags => Some (SetDecorations tags)
        | None => None
        end
  end.

(** *** The two passes of the loop

    The loop interleaves two computations that do not depend on each
    other: the enumeration of the matches (the tag scanner) and the
    decision to keep each of them (the literal-region filter). *)

Record TagSpan : Type := Span {
  startOffset : nat;
  endOffset : nat;
  rawText : str
}.

Definition span_of (m : match_result) : TagSpan :=
  Span (index m) (index m + length (match0 m)) (match0 m).

(** The matches of the [exec] loop, in the order they are found. *)
Fixpoint scan_loop (fuel : nat) (docText : str) (i : nat)
  : option (list TagSpan) :=
  match fuel with
  | 0 => None
  | S fuel' =>
      match exec_from smartyRegExp docText i with
      | None => Some []
      | Some m =>
          match scan_loop fuel' docText (lastIndex m) with
          | Some spans => Some (span_of m :: spans)
          | None => None
          end
      end
  end.

Definition TagScanner (docText : str) : option (list TagSpan) :=
  scan_loop (S (length docText)) docText 0.

Definition decoration_of (s : TagSpan) : DecorationOptions :=
  Decoration (MkRange (startOffset s) (endOffset s)).

(** The loop body applied to a span of the scanner. *)
Definition filter_step (docText : str) (smartyTags : list DecorationOptions)
    (s : TagSpan) : list DecorationOptions :=
  let prevRangeTxt :=
    match last (map Some smartyTags) None with
    | Some p => getText docText (range p)
    | None => []
    end in
  if negb (includes prevRangeTxt literal_open)
     || includes (getText docText (MkRange (startOffset s) (endOffset s)))
                 literal_close
  then smartyTags ++ [decoration_of s]
  else smartyTags.

Definition LiteralRegionFilter (docText : str) (spans : list TagSpan)
  : list DecorationOptions :=
  fold_left (filter_step docText) spans [].

(** Decorations of a document: what [updateDecorations] hands to
    [setDecorations]. *)
Definition decorations (docText : str) : option (list DecorationOptions) :=
  decorate_loop (S (length docText)) docText 0 [].

(** ** [setLanguageConfiguration] (extension.ts) *)

Definition CharacterPair : Type := (str * str)%type.

(** The block-comment pair handed to [languages.setLanguageConfiguration]. *)
Definition setLanguageConfiguration (docText : str) : CharacterPair :=
  let pair := (js "{*", js "*}") in
  match exec doubleBraceRegExp docText with
  | Some _ => (js "{{*", js "*}}")
  | None => pair
  end.

Inductive DelimiterStyle : Type := Single | Double.

Definition DelimiterDetector (docText : str) : DelimiterStyle :=
  if str_eqb (fst (setLanguageConfiguration docText)) (js "{{*")
  then Double else Single.

(** ** [provideCompletionItems] (completionItem.ts) *)

Record Position : Type := Pos {
  line : nat;
  character : nat
}.

(** [Position.prototype.translate] *)
Definition translate (p : Position) (lineDelta characterDelta : nat) : Position :=
  Pos (line p + lineDelta) (character p + characterDelta).

(** [Position.prototype.isBefore] *)
Definition isBefore (p q : Position) : bool :=
  Nat.ltb (line p) (line q) ||
  Nat.eqb (line p) (line q) && Nat.ltb (character p) (character q).

(** [new Range(a, b)]: the constructor puts the two positions in order. *)
Definition newRange (a b : Position) : Range Position :=
  if isBefore b a then MkRange b a else MkRange a b.

Inductive CompletionItemKind : Type := File | Folder.

Record CompletionItem : Type := Item {
  label : str;
  kind : CompletionItemKind;
  item_range : Range Position
}.

Record Uri : Type := MkUri {
  fsPath : str
}.

Record TextDocument : Type := Document {
  uri_path : str;               (* document.uri.path *)
  doc_lines : list str          (* the text of each line of the document *)
}.

(** [document.lineAt(n).text]; [None] when the document has no line [n]:
    [lineAt] throws then. *)
Definition lineAt (document : TextDocument) (n : nat) : option str :=
  nth_error (doc_lines document) n.

(** What [lineAt] throws for a line outside the document. *)
Definition illegal_line : str := js "Illegal value for `line`".

(** Outcome of an [async] function once awaited. *)
Inductive promise (A : Type) : Type :=
| Resolved (a : A)
| Rejected (reason : str).

Arguments Resolved {A} a.
Arguments Rejected {A} reason.

(** What the resolver calls outside this repository: the [path] module
    of Node.js and the [workspace] object of the editor. *)
Record Host : Type := MkHost {
  path_dirname : str -> str;                       (* path.dirname *)
  path_posix_resolve : str -> str -> str;          (* path.posix.resolve *)
  path_relative : str -> str -> str;               (* path.relative *)
  asRelativePath : str -> str;                     (* workspace.asRelativePath *)
  findFiles : str -> promise (list Uri)            (* await workspace.findFiles *)
}.

(** Text of the line from its start to the cursor:
    [document.lineAt(position.line)], then
    [document.getText(new Range(line.range.start, position))]; a cursor
    beyond the end of the line gives the whole line. *)
Definition textBefore (document : TextDocument) (position : Position)
  : option str :=
  match lineAt document (line position) with
  | Some text => Some (firstn (character position) text)
  | None => None
  end.

(** [file.replace(/[^\\/]+$/, '')] *)
Definition directories_of (file : str) : str :=
  replace file trailing_segment [].

(** [rel.replace(/\\/.+/, '')] *)
Definition first_directory (rel : str) : str :=
  replace rel after_first_slash [].

(** The [for (const f of subFiles)] loop; [items] and [addedDirs] are
    the two arrays it pushes to, returned as they stand after the loop. *)
Fixpoint collect (h : Host) (dir : str) (fillRange : Range Position)
    (subFiles : list Uri) (items : list CompletionItem) (addedDirs : list str)
  : list CompletionItem * list str :=
  match subFiles with
  | [] => (items, addedDirs)
  | f :: subFiles' =>
      let rel := path_relative h dir (fsPath f) in
      if includes rel (js "/") then
        let dr := first_directory rel in
        if negb (array_includes addedDirs dr) then
          collect h dir fillRange subFiles'
                  (items ++ [Item (dr ++ js "/") Folder fillRange])
                  (addedDirs ++ [dr])
        else collect h dir fillRange subFiles' items addedDirs
      else
        collect h dir fillRange subFiles'
                (items ++ [Item rel File fillRange]) addedDirs
  end.

(** Absolute path of the directory the fragment [file] points into. *)
Definition target_directory (h : Host) (document : TextDocument) (file : str) : str :=
  let docdir := path_dirname h (uri_path document) in
  let sub := directories_of file in
  path_posix_resolve h docdir sub.

(** Glob handed to [findFiles]. *)
Definition tpl_glob (h : Host) (dir : str) : str :=
  asRelativePath h dir ++ js "/**/*.tpl".

Definition fill_range (position : Position) (m : match_result) (sub : str)
  : Range Position :=
  let fillStart :=
    translate (translate (Pos (line position) 0) 0 (index m)) 0 (length sub + 1) in
  newRange fillStart position.

(** An error thrown inside the [async] function, like a rejected
    [await], rejects the promise it returns. *)
Definition provideCompletionItems (h : Host) (document : TextDocument)
    (position : Position) : promise (list CompletionItem) :=
  match textBefore document position with
  | None => Rejected illegal_line
  | Some text =>
      match exec regex_start text with
      | None => Resolved []
      | Some m =>
          let file := group m 1 in
          if negb (startsWith file (js "./")) then Resolved []
          else
            let sub := directories_of file in
            let dir := target_directory h document file in
            let fillRange := fill_range position m sub in
            match findFiles h (tpl_glob h dir) with
            | Rejected reason => Rejected reason
            | Resolved subFiles =>
                Resolved (fst (collect h dir fillRange subFiles [] []))
            end
      end
  end.

(** *** A sample workspace

    A host in which every path is a plain slash-separated text:
    [/ws/tpl/page.tpl] is the edited document and the listed files are
    what the workspace holds. *)

Definition sample_dirname (p : str) : str :=
  replace p (Seq (Chr slash) (Seq (Star true (Cls true [CChar slash])) EndInput)) [].

Definition strip_prefix (p s : str) : str :=
  if startsWith s p then skipn (length p) s else s.

Definition sample_resolve (from to : str) : str :=
  from ++ replace (strip_prefix (js ".") to) (Seq (Chr slash) EndInput) [].

Definition sample_relative (from to : str) : str :=
  strip_prefix (from ++ js "/") to.

Definition under (dir : str) (f : Uri) : bool :=
  startsWith (fsPath f) dir.

Definition sample_host (files : list Uri) : Host :=
  MkHost sample_dirname sample_resolve sample_relative
         (strip_prefix (js "/ws/"))
         (fun glob =>
            Resolved (filter (under (js "/ws/" ++ firstn (length glob - 9) glob))
                             files)).

(** A host whose enumeration fails. *)
Definition failing_host : Host :=
  MkHost sample_dirname sample_resolve sample_relative
         (strip_prefix (js "/ws/"))
         (fun _ => Rejected (js "enumeration failed")).

(** A document of one line. *)
Definition sample_document (text : str) : TextDocument :=
  Document (js "/ws/tpl/page.tpl") [text].

Definition include_line (fragment : str) : str :=
  js "<div>{include file=" ++ dquote :: fragment.

Definition cursor_at_end (text : str) : Position :=
  Pos 0 (length text).


(** *** Vocabulary of the properties of the resolver *)

Definition is_folder (it : CompletionItem) : bool :=
  match kind it with Folder => true | File => false end.



(** Path of an enumerated file relative to the target directory. *)
Definition rel_of (h : Host) (dir : str) (f : Uri) : str :=
  path_relative h dir (fsPath f).

Definition is_atom (r : regex) : bool :=
  match r with
  | Chr _ | Dot | Cls _ _ => true
  | _ => false
  end.

(** Glob the resolver enumerates, when it gets as far as the enumeration. *)
Definition enumerated_glob (h : Host) (document : TextDocument)
    (position : Position) : option str :=
  match textBefore document position with
  | None => None
  | Some text =>
      match exec regex_start text with
      | None => None
      | Some m =>
          if negb (startsWith (group m 1) (js "./")) then None
          else Some (tpl_glob h (target_directory h document (group m 1)))
      end
  end.


Definition no_slash (rel : str) : bool := negb (includes rel (js "/")).
(** * Vocabulary of the properties *)

(** Least number of characters a pattern consumes. *)
Fixpoint minlen (r : regex) : nat :=
  match r with
  | Chr _ | Dot | Cls _ _ => 1
  | Seq a b => minlen a + minlen b
  | Alt a b => Nat.min (minlen a) (minlen b)
  | Group _ a => minlen a
  | Eps | Star _ _ | LookBehind _ | EndInput => 0
  end.

(** [reach d x y w]: state [y] is [x] moved over the characters [w] in
    direction [d]; [w] is listed in the order it is read. *)
Definition reach (d : direction) (x y : mstate) (w : list code_unit) : Prop :=
  match d with
  | Fwd => after x = w ++ after y /\ before y = rev w ++ before x
  | Bwd => before x = w ++ before y /\ after y = rev w ++ after x
  end.

(** Characters a pattern can read outside its lookbehinds. *)
Fixpoint accepts (r : regex) (c : code_unit) : bool :=
  match r with
  | Chr _ | Dot | Cls _ _ => char_matches r c
  | Seq a b | Alt a b => accepts a c || accepts b c
  | Star _ a | Group _ a => accepts a c
  | Eps | LookBehind _ | EndInput => false
  end.

Definition body_ok (d : direction) (P : code_unit -> Prop)
    (body : mstate -> cont -> option mstate) : Prop :=
  forall x k z, body x k = Some z ->
    exists y w, reach d x y w /\ Forall P w /\ k y = Some z.

(** The result of a match found at the current position. *)
Definition result_at (l r : list code_unit) (y : mstate) : match_result :=
  MatchResult (length l) (between Fwd (MState l r []) y) (caps y) (endIndex y).

Inductive subseq {A : Type} : list A -> list A -> Prop :=
| subseq_nil : subseq [] []
| subseq_skip x l1 l2 : subseq l1 l2 -> subseq l1 (x :: l2)
| subseq_cons x l1 l2 : subseq l1 l2 -> subseq (x :: l1) (x :: l2).

(** Spans laid out one after the other, none before offset [lo], none
    empty, none beyond offset [hi]. *)
Fixpoint laid_out (lo hi : nat) (spans : list TagSpan) : Prop :=
  match spans with
  | [] => True
  | s :: rest =>
      lo <= startOffset s /\ startOffset s < endOffset s /\ endOffset s <= hi /\
      laid_out (endOffset s) hi rest
  end.

Definition span_before (a b : TagSpan) : Prop :=
  endOffset a <= startOffset b /\ startOffset a < startOffset b.

Definition range_before (a b : DecorationOptions) : Prop :=
  range_end (range a) <= range_start (range b) /\
  range_start (range a) < range_start (range b).


(** A matcher body that looks at its continuation only on states it can
    reach. *)
Definition body_ext (d : direction)
    (body : mstate -> cont -> option mstate) : Prop :=
  forall x (k1 k2 : cont),
    (forall y w, reach d x y w -> k1 y = k2 y) ->
    body x k1 = body x k2.

(** * Vocabulary of the further properties *)

(** The literal-region filter written with a flag: [inside] tells
    whether the last kept span holds [{literal}]. *)
Fixpoint flag_filter (inside : bool) (spans : list TagSpan)
  : list DecorationOptions :=
  match spans with
  | [] => []
  | s :: rest =>
      if negb inside || includes (rawText s) literal_close
      then decoration_of s :: flag_filter (includes (rawText s) literal_open) rest
      else flag_filter inside rest
  end.

(** A span as the scanner builds it from the text [docText]. *)
Definition span_in (docText : str) (s : TagSpan) : Prop :=
  endOffset s = startOffset s + length (rawText s) /\
  endOffset s <= length docText /\
  rawText s = substring docText (startOffset s) (endOffset s).

(** Text of a tag: an opening brace, a first character that is neither
    white space nor a closing brace, and a closing brace at the end. *)
Definition tag_text (w : str) : Prop :=
  exists c inner,
    w = lbrace :: c :: inner ++ [rbrace] /\
    is_space c = false /\ c <> rbrace.

(** Words a pattern can read from left to right; a lookbehind and [$]
    read nothing. *)
Inductive lang : regex -> list code_unit -> Prop :=
| lang_eps : lang Eps []
| lang_atom r c : is_atom r = true -> char_matches r c = true -> lang r [c]
| lang_seq r1 r2 w1 w2 :
    lang r1 w1 -> lang r2 w2 -> lang (Seq r1 r2) (w1 ++ w2)
| lang_alt_l r1 r2 w : lang r1 w -> lang (Alt r1 r2) w
| lang_alt_r r1 r2 w : lang r2 w -> lang (Alt r1 r2) w
| lang_star_nil g r : lang (Star g r) []
| lang_star_cons g r w1 w2 :
    lang r w1 -> lang (Star g r) w2 -> lang (Star g r) (w1 ++ w2)
| lang_group n r w : lang r w -> lang (Group n r) w
| lang_look r : lang (LookBehind r) []
| lang_end : lang EndInput [].

(** Whether the last decoration pushed so far holds [{literal}]. *)
Definition inside_literal (docText : str) (smartyTags : list DecorationOptions)
  : bool :=
  includes
    match last (map Some smartyTags) None with
    | Some p => getText docText (range p)
    | None => []
    end
    literal_open.

(** Flat templates: tags without inner braces, set in text without
    braces. *)
Definition brace_free (s : str) : Prop :=
  Forall (fun d => d <> lbrace /\ d <> rbrace) s.

Definition simple_tag (c : code_unit) (body : str) : str :=
  lbrace :: c :: body ++ [rbrace].

Record flat_part : Type := FlatPart {
  gap : str;                 (* text in front of the tag *)
  tag_first : code_unit;     (* first character of the tag *)
  tag_rest : str             (* its further characters *)
}.

Definition flat_part_ok (p : flat_part) : Prop :=
  brace_free (gap p) /\ brace_free (tag_rest p) /\
  is_space (tag_first p) = false /\
  tag_first p <> lbrace /\ tag_first p <> rbrace /\ tag_first p <> star_c.

Fixpoint flat_text (parts : list flat_part) (tail : str) : str :=
  match parts with
  | [] => tail
  | p :: ps => gap p ++ simple_tag (tag_first p) (tag_rest p) ++ flat_text ps tail
  end.

Fixpoint flat_spans (i : nat) (parts : list flat_part) : list TagSpan :=
  match parts with
  | [] => []
  | p :: ps =>
      let a := i + length (gap p) in
      let b := a + length (simple_tag (tag_first p) (tag_rest p)) in
      Span a b (simple_tag (tag_first p) (tag_rest p)) :: flat_spans b ps
  end.

(** What the trigger of the completion looks for in front of the quote:
    [file=], or [{include] and white space. *)
Definition trigger_marker (s : str) : Prop :=
  s = js "file=" \/
  exists ws, ws <> [] /\ Forall (fun c => is_space c = true) ws /\
             s = js "{include" ++ ws.

(** A path fragment: no quote and no white space. *)
Definition fragment_text (frag : str) : Prop :=
  frag <> [] /\
  Forall (fun c => c <> squote /\ c <> dquote /\ is_space c = false) frag.


(** ** [fullDocumentRange] (extension.ts)

    The document is given by its lines; [None] stands for the error
    [lineAt] raises for a line that does not exist. *)

Definition fullDocumentRange (lines : list str) : option (Range Position) :=
  match lines with
  | [] => None
  | _ :: _ =>
      let lastLineId := length lines - 1 in
      match nth_error lines lastLineId with
      | Some text => Some (newRange (Pos 0 0) (Pos lastLineId (length text)))
      | None => None
      end
  end.

(** [Range.prototype.contains] for a position. *)
Definition contains (r : Range Position) (p : Position) : bool :=
  negb (isBefore p (range_start r)) && negb (isBefore (range_end r) p).

(** ** [activate]: [setup], the timer and the event handlers (extension.ts)

    The module variables [CONFIG], [smartyDecoration],
    [editorRegistration], [docRegistration] and the variables [timeout]
    and [activeTextEditor] of [activate] form the state of the extension.
    What the editor keeps for the extension (disposables that are still
    alive, pending timers, shown warnings, the comment pair, the painted
    decorations) forms the state of the workbench. *)

Definition hash : code_unit := 35%N.

(** The 22 characters of [[A-Fa-f0-9]]; the [i] flag adds none. *)
Definition hex_digits : str := js "ABCDEFabcdef0123456789".

Definition hex_digit : regex := Cls false (map CChar hex_digits).

(** [/^#([A-Fa-f0-9]{8})$/i], without its [^]. *)
Definition hexRegex : regex :=
  seqs [Chr hash; Group 1 (seqs (repeat hex_digit 8)); EndInput].

(** [RegExp.prototype.test] for a pattern that starts with [^]: such a
    pattern can match at index 0 only. *)
Definition test_from_start (re : regex) (s : str) : bool :=
  match rmatch re Fwd (MState [] s []) (fun y => Some y) with
  | Some _ => true
  | None => false
  end.

(** Text a value of type [string | undefined] is turned into by [test]. *)
Definition to_text (v : option str) : str :=
  match v with
  | Some s => s
  | None => js "undefined"
  end.

Record HighlightColorConfig : Type := HighlightColor {
  light : option str;
  dark : option str
}.

Record Configuration : Type := Config {
  highlight : option bool;
  highlightColor : option HighlightColorConfig;
  tabSize : option nat;
  insertSpaces : option bool;
  indentInnerHtml : option bool;
  maxPreserveNewLines : option (option nat);
  preserveNewLines : option bool;
  wrapLineLength : option nat;
  wrapAttributes : option str;
  endWithNewline : option bool
}.

(** [export const CONFIG: Configuration = {}] *)
Definition empty_config : Configuration :=
  Config None None None None None None None None None None.

Definition with_highlightColor (hc : HighlightColorConfig) (c : Configuration)
  : Configuration :=
  Config (highlight c) (Some hc) (tabSize c) (insertSpaces c)
         (indentInnerHtml c) (maxPreserveNewLines c) (preserveNewLines c)
         (wrapLineLength c) (wrapAttributes c) (endWithNewline c).

(** Truthiness of a value of type [boolean | undefined]. *)
Definition truthy (b : option bool) : bool :=
  match b with
  | Some true => true
  | _ => false
  end.

(** An editor together with the identity of its document. *)
Record ActiveEditor : Type := MkActiveEditor {
  document_id : nat;
  editor : TextEditor
}.

Record Extension : Type := MkExtension {
  CONFIG : Configuration;
  smartyDecoration : option nat;
  editorRegistration : option nat;
  docRegistration : option nat;
  timeout : option nat;
  activeTextEditor : option ActiveEditor
}.

Inductive disposable : Type :=
| DecorationType (lightColor darkColor : option str)
| ActiveEditorListener
| TextDocumentListener.

Record Workbench : Type := MkWorkbench {
  live : list (nat * disposable);      (* disposables not disposed of *)
  next_handle : nat;
  subscriptions : list nat;            (* context.subscriptions *)
  timers : list nat;                   (* pending timers *)
  next_timer : nat;
  warnings : list str;                 (* showWarningMessage *)
  blockComment : option CharacterPair; (* setLanguageConfiguration *)
  painted : option (option nat * list DecorationOptions)  (* setDecorations *)
}.

Definition set_live l (w : Workbench) : Workbench :=
  MkWorkbench l (next_handle w) (subscriptions w) (timers w) (next_timer w)
              (warnings w) (blockComment w) (painted w).

Definition set_timers t (w : Workbench) : Workbench :=
  MkWorkbench (live w) (next_handle w) (subscriptions w) t (next_timer w)
              (warnings w) (blockComment w) (painted w).

(** [window.showWarningMessage] *)
Definition showWarningMessage (msg : str) (w : Workbench) : Workbench :=
  MkWorkbench (live w) (next_handle w) (subscriptions w) (timers w) (next_timer w)
              (warnings w ++ [msg]) (blockComment w) (painted w).

(** [h && h.dispose()] *)
Definition dispose (h : option nat) (w : Workbench) : Workbench :=
  match h with
  | Some id => set_live (filter (fun e => negb (Nat.eqb (fst e) id)) (live w)) w
  | None => w
  end.

(** A new disposable; [subscribed] tells whether it is pushed to
    [context.subscriptions] too. *)
Definition create (d : disposable) (subscribed : bool) (w : Workbench)
  : nat * Workbench :=
  let h := next_handle w in
  (h, MkWorkbench (live w ++ [(h, d)]) (S h)
                  (if subscribed then subscriptions w ++ [h] else subscriptions w)
                  (timers w) (next_timer w) (warnings w) (blockComment w)
                  (painted w)).

Definition clearTimeout (id : nat) (w : Workbench) : Workbench :=
  set_timers (filter (fun t => negb (Nat.eqb t id)) (timers w)) w.

Definition setTimeout (w : Workbench) : nat * Workbench :=
  let id := next_timer w in
  (id, MkWorkbench (live w) (next_handle w) (subscriptions w) (timers w ++ [id])
                   (S id) (warnings w) (blockComment w) (painted w)).

Definition set_CONFIG c (x : Extension) : Extension :=
  MkExtension c (smartyDecoration x) (editorRegistration x) (docRegistration x)
              (timeout x) (activeTextEditor x).

Definition set_smartyDecoration h (x : Extension) : Extension :=
  MkExtension (CONFIG x) h (editorRegistration x) (docRegistration x)
              (timeout x) (activeTextEditor x).

Definition set_editorRegistration h (x : Extension) : Extension :=
  MkExtension (CONFIG x) (smartyDecoration x) h (docRegistration x)
              (timeout x) (activeTextEditor x).

Definition set_docRegistration h (x : Extension) : Extension :=
  MkExtension (CONFIG x) (smartyDecoration x) (editorRegistration x) h
              (timeout x) (activeTextEditor x).

Definition set_timeout t (x : Extension) : Extension :=
  MkExtension (CONFIG x) (smartyDecoration x) (editorRegistration x)
              (docRegistration x) t (activeTextEditor x).

Definition set_activeTextEditor e (x : Extension) : Extension :=
  MkExtension (CONFIG x) (smartyDecoration x) (editorRegistration x)
              (docRegistration x) (timeout x) e.

(** [triggerUpdateDecorations]: the pending timer, if any, is cleared
    and a new one is set ([setTimeout(updateDecorations, 500)]). *)
Definition triggerUpdateDecorations (x : Extension) (w : Workbench)
  : Extension * Workbench :=
  let '(x, w) :=
    match timeout x with
    | Some id => (set_timeout None x, clearTimeout id w)
    | None => (x, w)
    end in
  let '(id, w) := setTimeout w in
  (set_timeout (Some id) x, w).

(** [updateDecorations] as a handler: what it hands to [setDecorations]
    is recorded in the workbench. *)
Definition run_updateDecorations (x : Extension) (w : Workbench) : Workbench :=
  let fuel :=
    match activeTextEditor x with
    | Some e => S (length (document_text (editor e)))
    | None => 0
    end in
  match updateDecorations fuel (option_map editor (activeTextEditor x)) with
  | Some (SetDecorations tags) =>
      MkWorkbench (live w) (next_handle w) (subscriptions w) (timers w)
                  (next_timer w) (warnings w) (blockComment w)
                  (Some (smartyDecoration x, tags))
  | _ => w
  end.

(** [setLanguageConfiguration] as a handler, for the active editor [e]. *)
Definition run_setLanguageConfiguration (e : ActiveEditor) (w : Workbench)
  : Workbench :=
  MkWorkbench (live w) (next_handle w) (subscriptions w) (timers w)
              (next_timer w) (warnings w)
              (Some (setLanguageConfiguration (document_text (editor e))))
              (painted w).

Definition light_default : str := js "#FFFA0040".
Definition dark_default : str := js "#FFFFFF25".
Definition light_warning : str :=
  js "Invalid value for smarty.highlightColor.light setting (Default applied)".
Definition dark_warning : str :=
  js "Invalid value for smarty.highlightColor.dark setting (Default applied)".

Inductive outcome : Type :=
| Returned (x : Extension) (w : Workbench)
| Thrown (x : Extension) (w : Workbench).   (* a TypeError reached the caller *)

(** The validation of one colour of [setup]:
    [if (!hexRegex.test(v)) { v = default; showWarningMessage(...) }]. *)
Definition validate_color (v : option str) (default warning : str)
    (w : Workbench) : option str * Workbench :=
  if negb (test_from_start hexRegex (to_text v))
  then (Some default, showWarningMessage warning w)
  else (v, w).

(** The three [h && h.dispose()] of [setup]. *)
Definition dispose_registrations (x : Extension) (w : Workbench) : Workbench :=
  let w := dispose (smartyDecoration x) w in
  let w := dispose (editorRegistration x) w in
  dispose (docRegistration x) w.

(** The end of [setup], reached when [CONFIG.highlight] is truthy: the
    decoration type is created, the decorations of the active editor are
    asked for, the two listeners are registered. *)
Definition start_highlighting (l d : option str) (x : Extension) (w : Workbench)
  : Extension * Workbench :=
  let '(h, w) := create (DecorationType l d) false w in
  let x := set_smartyDecoration (Some h) x in
  let '(x, w) :=
    match activeTextEditor x with
    | Some e =>
        let '(x, w) := triggerUpdateDecorations x w in
        (x, run_setLanguageConfiguration e w)
    | None => (x, w)
    end in
  let '(h, w) := create ActiveEditorListener true w in
  let x := set_editorRegistration (Some h) x in
  let '(h, w) := create TextDocumentListener true w in
  let x := set_docRegistration (Some h) x in
  (x, w).

(** [setup]; [settings] is what [workspace.getConfiguration()] holds. *)
Definition setup (settings : Configuration) (x : Extension) (w : Workbench)
  : outcome :=
  let x := set_CONFIG settings x in
  match highlightColor settings with
  | None => Thrown x w
  | Some hc =>
      let '(l, w) := validate_color (light hc) light_default light_warning w in
      let '(d, w) := validate_color (dark hc) dark_default dark_warning w in
      let x := set_CONFIG (with_highlightColor (HighlightColor l d) settings) x in
      let w := dispose_registrations x w in
      if negb (truthy (highlight settings)) then Returned x w
      else
        let '(x, w) := start_highlighting l d x w in
        Returned x w
  end.

(** Listener of [window.onDidChangeActiveTextEditor]. *)
Definition on_active_editor (e : option ActiveEditor) (x : Extension)
    (w : Workbench) : Extension * Workbench :=
  let x := set_activeTextEditor e x in
  match e with
  | Some ed => (x, run_setLanguageConfiguration ed (run_updateDecorations x w))
  | None => (x, w)
  end.

(** Listener of [workspace.onDidChangeTextDocument]. *)
Definition on_text_document (doc : nat) (x : Extension) (w : Workbench)
  : Extension * Workbench :=
  match activeTextEditor x with
  | Some ed =>
      if Nat.eqb doc (document_id ed) then triggerUpdateDecorations x w
      else (x, w)
  | None => (x, w)
  end.

(** Listener of [workspace.onDidChangeConfiguration]. *)
Definition on_configuration (affectsConfiguration : str -> bool)
    (settings : Configuration) (x : Extension) (w : Workbench) : outcome :=
  if existsb affectsConfiguration [js "editor"; js "html.format"; js "smarty"]
  then setup settings x w
  else Returned x w.

(** What the workbench tells the extension.  A change of a document
    comes with the text the document has from then on. *)
Inductive event : Type :=
| ConfigurationChanged (affectsConfiguration : str -> bool)
                       (settings : Configuration)
| ActiveEditorChanged (e : option ActiveEditor)
| TextDocumentChanged (doc : nat) (text : str)
| TimerFired (id : nat).

(** A document is one object, shared by the workbench and by whoever
    holds an editor of it: when the document of [activeTextEditor] is
    edited, [activeTextEditor.document.getText()] gives the new text from
    then on, whether a listener runs or not. *)
Definition edit_document (doc : nat) (text : str) (x : Extension) : Extension :=
  match activeTextEditor x with
  | Some ed =>
      if Nat.eqb doc (document_id ed)
      then set_activeTextEditor
             (Some (MkActiveEditor (document_id ed)
                                   (Editor (languageId (editor ed)) text))) x
      else x
  | None => x
  end.

Definition is_editor_listener (e : nat * disposable) : bool :=
  match snd e with ActiveEditorListener => true | _ => false end.

Definition is_document_listener (e : nat * disposable) : bool :=
  match snd e with TextDocumentListener => true | _ => false end.

Definition state_of (o : outcome) : Extension * Workbench :=
  match o with
  | Returned x w | Thrown x w => (x, w)
  end.

(** The workbench delivers an event: a listener runs once for each of
    its registrations that is alive, a timer fires if it is pending; an
    edit is applied to the document before the listeners hear of it. *)
Definition deliver (ev : event) (s : Extension * Workbench)
  : Extension * Workbench :=
  let '(x, w) := s in
  match ev with
  | ConfigurationChanged affects settings =>
      state_of (on_configuration affects settings x w)
  | ActiveEditorChanged e =>
      Nat.iter (length (filter is_editor_listener (live w)))
               (fun s => on_active_editor e (fst s) (snd s)) (x, w)
  | TextDocumentChanged doc text =>
      Nat.iter (length (filter is_document_listener (live w)))
               (fun s => on_text_document doc (fst s) (snd s))
               (edit_document doc text x, w)
  | TimerFired id =>
      if existsb (Nat.eqb id) (timers w)
      then (x, run_updateDecorations x (clearTimeout id w))
      else (x, w)
  end.

Definition new_workbench : Workbench :=
  MkWorkbench [] 0 [] [] 0 [] None None.

(** [activate], as far as this state goes: [setup()] at its end. *)
Definition activate (e : option ActiveEditor) (settings : Configuration)
  : Extension * Workbench :=
  state_of (setup settings (MkExtension empty_config None None None None e)
                  new_workbench).

Definition run (events : list event) (s : Extension * Workbench)
  : Extension * Workbench :=
  fold_left (fun s ev => deliver ev s) events s.

(** A colour the validation of [setup] accepts. *)
Definition valid_color (v : option str) : Prop :=
  exists ds, v = Some (hash :: ds) /\ length ds = 8 /\
             Forall (fun c => In c hex_digits) ds.

(** What holds of the extension and the workbench at any time. *)
Definition well_kept (s : Extension * Workbench) : Prop :=
  let '(x, w) := s in
  NoDup (map fst (live w)) /\
  (forall h d, In (h, d) (live w) ->
     h < next_handle w /\
     match d with
     | DecorationType l k =>
         smartyDecoration x = Some h /\ valid_color l /\ valid_color k
     | ActiveEditorListener => editorRegistration x = Some h
     | TextDocumentListener => docRegistration x = Some h
     end) /\
  NoDup (timers w) /\
  (forall id, In id (timers w) -> id < next_timer w /\ timeout x = Some id) /\
  (forall hc, highlightColor (CONFIG x) = Some hc ->
     valid_color (light hc) /\ valid_color (dark hc)).

(** The disposables of the extension that are alive: none, or the
    decoration type and the two listeners of one run of [setup]. *)
Definition live_shape (s : Extension * Workbench) : Prop :=
  live (snd s) = [] \/
  exists n l d,
    live (snd s) = [(n, DecorationType l d); (S n, ActiveEditorListener);
                    (S (S n), TextDocumentListener)].

(** A template open in the editor and settings that ask for highlighting,
    with a dark colour that is left out. *)
Definition sample_active_editor : ActiveEditor :=
  MkActiveEditor 7 (Editor (js "smarty") (js "{if $a}{$b}{/if}")).

Definition sample_settings : Configuration :=
  Config (Some true) (Some (HighlightColor (Some (js "#ffFA0040")) None))
         (Some 4) (Some true) None None None None None None.
(** * Properties of the matcher *)

Lemma reach_refl d x : reach d x x [].
Proof. destruct d; simpl; auto. Qed.

Lemma reach_trans d x y z w1 w2 :
  reach d x y w1 -> reach d y z w2 -> reach d x z (w1 ++ w2).
Proof.
  destruct d; simpl; intros [H1 H2] [H3 H4];
    rewrite H1, H3, H4, H2, rev_app_distr, <- !app_assoc; auto.
Qed.

Lemma reach_step d x c y : step d x = Some (c, y) -> reach d x y [c].
Proof.
  destruct d; unfold step; simpl.
  - destruct (after x) eqn:E; [discriminate|]. intros H; inversion H; subst; simpl; auto.
  - destruct (before x) eqn:E; [discriminate|]. intros H; inversion H; subst; simpl; auto.
Qed.

Lemma reach_endIndex_fwd x y w :
  reach Fwd x y w -> endIndex y = endIndex x + length w.
Proof.
  unfold endIndex; simpl. intros [_ H]. rewrite H, length_app, length_rev. lia.
Qed.

Lemma reach_between_fwd x y w : reach Fwd x y w -> between Fwd x y = w.
Proof.
  simpl. intros [H _]. rewrite H, length_app.
  replace (length w + length (after y) - length (after y)) with (length w + 0) by lia.
  rewrite firstn_app_2. simpl. apply app_nil_r.
Qed.

Lemma repeat_matcher_reach d P body greedy k n :
  body_ok d P body ->
  forall x z, repeat_matcher body greedy k n x = Some z ->
    exists y w, reach d x y w /\ Forall P w /\ k y = Some z.
Proof.
  intros Hb. induction n as [|n IH]; intros x z; simpl; [discriminate|].
  assert (Hiter : forall z',
    body x (fun y => if Nat.eqb (endIndex y) (endIndex x) then None
                     else repeat_matcher body greedy k n y) = Some z' ->
    exists y w, reach d x y w /\ Forall P w /\ k y = Some z').
  { intros z' H. apply Hb in H. destruct H as (y & w & Hr & Hw & Hk).
    destruct (Nat.eqb (endIndex y) (endIndex x)); [discriminate|].
    apply IH in Hk. destruct Hk as (y' & w' & Hr' & Hw' & Hk').
    exists y', (w ++ w'). split; [eapply reach_trans; eauto|].
    split; [apply Forall_app; auto|assumption]. }
  assert (Hk : forall z', k x = Some z' ->
    exists y w, reach d x y w /\ Forall P w /\ k y = Some z').
  { intros z' H. exists x, []. split; [apply reach_refl|]. split; [constructor|assumption]. }
  destruct greedy; unfold or_else.
  - destruct (body x _) eqn:E.
    + intros H; inversion H; subst. apply Hiter. assumption.
    + apply Hk.
  - destruct (k x) eqn:E.
    + intros H; inversion H; subst. apply Hk. assumption.
    + apply Hiter.
Qed.

(** A successful match calls its continuation on a state reached by
    reading at least [minlen r] characters in the direction of the match,
    all of them accepted by the pattern. *)
Lemma rmatch_reach r :
  forall d x k z, rmatch r d x k = Some z ->
    exists y w, reach d x y w /\ minlen r <= length w /\
                Forall (fun c => accepts r c = true) w /\ k y = Some z.
Proof.
  assert (Hchar : forall r d x (k : cont) z,
    match step d x with
    | Some (c, y) => if char_matches r c then k y else None
    | None => None
    end = Some z ->
    exists y w, reach d x y w /\ 1 <= length w /\
                Forall (fun c => char_matches r c = true) w /\ k y = Some z).
  { intros r0 d x k z H. destruct (step d x) as [[c y]|] eqn:E; [|discriminate].
    destruct (char_matches r0 c) eqn:Ec; [|discriminate].
    exists y, [c]. split; [eapply reach_step; eauto|]. simpl; auto. }
  induction r as [|c| |neg items|r1 IH1 r2 IH2|r1 IH1 r2 IH2|g r1 IH1|n r1 IH1|r1 IH1|];
    intros d x k z H; cbn [rmatch] in H.
  - exists x, []. split; [apply reach_refl|]. simpl; auto.
  - apply (Hchar (Chr c)); assumption.
  - apply (Hchar Dot); assumption.
  - apply (Hchar (Cls neg items)); assumption.
  - assert (Hseq : forall ra rb y w y' w',
      reach d x y w -> reach d y y' w' ->
      minlen ra <= length w -> minlen rb <= length w' ->
      Forall (fun c => accepts ra c = true) w ->
      Forall (fun c => accepts rb c = true) w' ->
      reach d x y' (w ++ w') /\ minlen ra + minlen rb <= length (w ++ w') /\
      Forall (fun c => accepts ra c || accepts rb c = true) (w ++ w')).
    { intros ra rb y w y' w' Hr Hr' Hl Hl' Hw Hw'.
      split; [eapply reach_trans; eauto|]. rewrite length_app. split; [lia|].
      apply Forall_app. split; eapply Forall_impl; try eassumption;
        simpl; intros a Ha; rewrite Ha; auto using orb_true_r. }
    destruct d.
    + apply IH1 in H. destruct H as (y & w & Hr & Hl & Hw & H).
      apply IH2 in H. destruct H as (y' & w' & Hr' & Hl' & Hw' & H).
      exists y', (w ++ w').
      destruct (Hseq r1 r2 _ _ _ _ Hr Hr' Hl Hl' Hw Hw') as (A & B & C).
      simpl. auto.
    + apply IH2 in H. destruct H as (y & w & Hr & Hl & Hw & H).
      apply IH1 in H. destruct H as (y' & w' & Hr' & Hl' & Hw' & H).
      exists y', (w ++ w').
      destruct (Hseq r2 r1 _ _ _ _ Hr Hr' Hl Hl' Hw Hw') as (A & B & C).
      simpl. split; [assumption|]. split; [lia|]. split; [|assumption].
      eapply Forall_impl; [|exact C]. simpl. intros a Ha.
      rewrite orb_comm. exact Ha.
  - unfold or_else in H. simpl.
    destruct (rmatch r1 d x k) eqn:E.
    + inversion H; subst. apply IH1 in E. destruct E as (y & w & Hr & Hl & Hw & E).
      exists y, w. split; [assumption|]. split; [lia|]. split; [|assumption].
      eapply Forall_impl; [|exact Hw]. simpl. intros a Ha. rewrite Ha. reflexivity.
    + apply IH2 in H. destruct H as (y & w & Hr & Hl & Hw & E').
      exists y, w. split; [assumption|]. split; [lia|]. split; [|assumption].
      eapply Forall_impl; [|exact Hw]. simpl. intros a Ha. rewrite Ha.
      apply orb_true_r.
  - assert (Hb : body_ok d (fun c => accepts r1 c = true)
                   (fun x' k' => rmatch r1 d (clear_caps (groups_in r1) x') k')).
    { intros x' k' z' H'. apply IH1 in H'. destruct H' as (y & w & Hr & _ & Hw & H').
      exists y, w. split; [|split; assumption].
      destruct d; simpl in *; assumption. }
    destruct (repeat_matcher_reach g k (S (avail d x)) Hb x H) as (y & w & Hr & Hw & Hk).
    exists y, w. split; [assumption|split; [simpl; lia|split; assumption]].
  - apply IH1 in H. destruct H as (y & w & Hr & Hl & Hw & H).
    exists (set_cap n (between d x y) y), w.
    split; [destruct d; simpl in *; assumption|split; [simpl; lia|split; assumption]].
  - destruct (rmatch r1 Bwd x (fun y => Some y)) eqn:E; [|discriminate].
    exists (with_caps x (caps m)), [].
    split; [destruct d; simpl; auto|split; [simpl; lia|split; [constructor|assumption]]].
  - destruct (after x) eqn:E; [|discriminate].
    exists x, []. split; [apply reach_refl|]. simpl; auto.
Qed.

Lemma match_here_spec re l r y :
  rmatch re Fwd (MState l r []) (fun y => Some y) = Some y ->
  exists w,
    r = w ++ after y /\
    between Fwd (MState l r []) y = w /\
    endIndex y = length l + length w /\
    minlen re <= length w /\
    Forall (fun c => accepts re c = true) w.
Proof.
  intros E. apply rmatch_reach in E. destruct E as (y' & w & Hr & Hl & Hw & E).
  injection E as E. subst y'. exists w.
  rewrite (reach_between_fwd Hr), (reach_endIndex_fwd Hr).
  destruct Hr as [Hr _]. simpl in Hr. unfold endIndex. simpl. auto.
Qed.

(** A search returns the match at the leftmost position that has one. *)
Lemma search_inv re : forall r l m,
  search re l r = Some m ->
  exists p r' y,
    r = p ++ r' /\
    rmatch re Fwd (MState (rev p ++ l) r' []) (fun y => Some y) = Some y /\
    m = result_at (rev p ++ l) r' y /\
    (forall p1 c p2, p = p1 ++ c :: p2 ->
       rmatch re Fwd (MState (rev p1 ++ l) (c :: p2 ++ r') []) (fun y => Some y) = None).
Proof.
  assert (Hhere : forall l r y m,
    rmatch re Fwd (MState l r []) (fun y => Some y) = Some y ->
    Some (result_at l r y) = Some m ->
    exists p r' y,
      r = p ++ r' /\
      rmatch re Fwd (MState (rev p ++ l) r' []) (fun y => Some y) = Some y /\
      m = result_at (rev p ++ l) r' y /\
      (forall p1 c p2, p = p1 ++ c :: p2 ->
         rmatch re Fwd (MState (rev p1 ++ l) (c :: p2 ++ r') []) (fun y => Some y) = None)).
  { intros l r y m E H. injection H as H. exists [], r, y. simpl.
    repeat split; auto. intros p1 c p2 Hp. destruct p1; discriminate. }
  induction r as [|c r IH]; intros l m; cbn [search].
  - destruct (rmatch re Fwd (MState l [] []) (fun y => Some y)) eqn:E; [|discriminate].
    apply (Hhere _ _ _ _ E).
  - destruct (rmatch re Fwd (MState l (c :: r) []) (fun y => Some y)) eqn:E.
    + apply (Hhere _ _ _ _ E).
    + intros H. apply IH in H. destruct H as (p & r' & y & H1 & H2 & H3 & H4).
      exists (c :: p), r', y. simpl. rewrite <- app_assoc. simpl.
      repeat split; auto; [congruence|].
      intros p1 c' p2 Hp. destruct p1 as [|c1 p1]; simpl in Hp; injection Hp as -> ->.
      * simpl. rewrite <- H1. exact E.
      * simpl. rewrite <- app_assoc. simpl. eapply H4. reflexivity.
Qed.

(** What a successful search returns. *)
Lemma search_spec re r l m :
  search re l r = Some m ->
  exists p w rest,
    r = p ++ w ++ rest /\
    index m = length l + length p /\
    match0 m = w /\
    lastIndex m = index m + length w /\
    minlen re <= length w.
Proof.
  intros H. apply search_inv in H. destruct H as (p & r' & y & H1 & H2 & H3 & _).
  destruct (match_here_spec _ _ _ H2) as (w & Hw1 & Hw2 & Hw3 & Hw4 & _).
  exists p, w, (after y). subst m. unfold result_at. cbn [index match0 lastIndex].
  rewrite Hw3, length_app, length_rev. simpl in Hw2.
  repeat split; auto; try lia. congruence.
Qed.

Lemma exec_from_spec re s i m :
  exec_from re s i = Some m ->
  exists p w rest,
    s = firstn i s ++ p ++ w ++ rest /\
    i <= length s /\
    index m = i + length p /\
    match0 m = w /\
    lastIndex m = index m + length w /\
    minlen re <= length w /\
    lastIndex m <= length s.
Proof.
  unfold exec_from. destruct (Nat.ltb (length s) i) eqn:E; [discriminate|].
  apply Nat.ltb_ge in E. intros H. apply search_spec in H.
  destruct H as (p & w & rest & H1 & H2 & H3 & H4 & H5).
  exists p, w, rest. rewrite <- H1, firstn_skipn.
  rewrite length_rev, length_firstn, Nat.min_l in H2 by assumption.
  repeat split; auto.
  assert (Hlen : length (skipn i s) = length p + length w + length rest)
    by (rewrite H1, !length_app; lia).
  rewrite length_skipn in Hlen. lia.
Qed.


(** ** The bound on the iterations of a quantifier is never reached *)

Lemma reach_avail d x y w :
  reach d x y w -> avail d x = length w + avail d y.
Proof.
  destruct d; simpl; intros [H _]; rewrite H, length_app; reflexivity.
Qed.

Lemma reach_progress d x y w :
  reach d x y w -> endIndex y <> endIndex x -> avail d y < avail d x.
Proof.
  intros Hr Hne. rewrite (@reach_avail d x y w Hr).
  destruct w as [|c w]; [|simpl; lia].
  exfalso. apply Hne. unfold endIndex.
  destruct d; simpl in Hr; destruct Hr as [H1 H2]; simpl in *; congruence.
Qed.

Lemma repeat_matcher_ext d body greedy :
  body_ext d body ->
  forall n x (k1 k2 : cont),
    (forall y w, reach d x y w -> k1 y = k2 y) ->
    repeat_matcher body greedy k1 n x = repeat_matcher body greedy k2 n x.
Proof.
  intros Hb. induction n as [|n IH]; intros x k1 k2 Hk; [reflexivity|].
  cbn [repeat_matcher].
  rewrite (Hk x [] (reach_refl d x)).
  rewrite (Hb x _ (fun y => if Nat.eqb (endIndex y) (endIndex x) then None
                            else repeat_matcher body greedy k2 n y)).
  - reflexivity.
  - intros y w Hr. destruct (Nat.eqb (endIndex y) (endIndex x)); [reflexivity|].
    apply IH. intros z w' Hr'. eapply Hk. eapply reach_trans; eassumption.
Qed.

(** The matcher consults its continuation only on states reached from
    the state it starts in. *)
Lemma rmatch_ext r : forall d, body_ext d (rmatch r d).
Proof.
  induction r as [|c| |neg items|r1 IH1 r2 IH2|r1 IH1 r2 IH2|g r1 IH1|n r1 IH1|r1 IH1|];
    intros d x k1 k2 Hk; cbn [rmatch];
    try (destruct (step d x) as [[c' y]|] eqn:E; [|reflexivity];
         rewrite (Hk y [c'] (@reach_step d x c' y E)); reflexivity).
  - apply (Hk x []), reach_refl.
  - destruct d.
    + apply IH1. intros y w Hr. apply IH2. intros z w' Hr'.
      eapply Hk. eapply reach_trans; eassumption.
    + apply IH2. intros y w Hr. apply IH1. intros z w' Hr'.
      eapply Hk. eapply reach_trans; eassumption.
  - rewrite (IH1 d x k1 k2 Hk), (IH2 d x k1 k2 Hk). reflexivity.
  - apply repeat_matcher_ext with (d := d); [|exact Hk].
    intros x' k1' k2' Hk'. apply IH1. intros y w Hr. apply (Hk' y w).
    destruct d; exact Hr.
  - apply IH1. intros y w Hr. apply (Hk _ w). destruct d; exact Hr.
  - destruct (rmatch r1 Bwd x (fun y => Some y)); [|reflexivity].
    apply (Hk _ []). destruct d; simpl; auto.
  - destruct (after x); [|reflexivity]. apply (Hk x []), reach_refl.
Qed.

Lemma repeat_matcher_fuel d body greedy k :
  body_ext d body ->
  forall n m x, avail d x < n -> avail d x < m ->
    repeat_matcher body greedy k n x = repeat_matcher body greedy k m x.
Proof.
  intros Hb. induction n as [|n IH]; intros m x Hn Hm; [lia|].
  destruct m as [|m]; [lia|]. cbn [repeat_matcher].
  rewrite (Hb x _ (fun y => if Nat.eqb (endIndex y) (endIndex x) then None
                            else repeat_matcher body greedy k m y)).
  - reflexivity.
  - intros y w Hr. destruct (Nat.eqb (endIndex y) (endIndex x)) eqn:E; [reflexivity|].
    apply Nat.eqb_neq in E. pose proof (@reach_progress d x y w Hr E). apply IH; lia.
Qed.

(** Any bound above the number of characters left gives the result of
    [r*]: the matcher never stops for want of iterations. *)
Lemma star_fuel_enough greedy r d x k n :
  avail d x < n ->
  rmatch (Star greedy r) d x k =
  repeat_matcher (fun x' k' => rmatch r d (clear_caps (groups_in r) x') k')
                 greedy k n x.
Proof.
  intros Hn. cbn [rmatch]. apply repeat_matcher_fuel with (d := d); [|lia|exact Hn].
  intros x' k1 k2 Hk. apply rmatch_ext. intros y w Hr. apply (Hk y w).
  destruct d; exact Hr.
Qed.
(** * The tag scanner *)

Lemma subseq_In {A : Type} (l1 l2 : list A) :
  subseq l1 l2 -> forall x, In x l1 -> In x l2.
Proof.
  induction 1; simpl; intros y Hy; auto.
  destruct Hy; auto.
Qed.

Lemma minlen_smartyRegExp : minlen smartyRegExp = 3.
Proof. reflexivity. Qed.

(** A found tag lies at or after [lastIndex], is not empty and is the
    text of the document between its offsets. *)
Lemma smarty_exec_spec docText i m :
  exec_from smartyRegExp docText i = Some m ->
  i <= index m /\ index m < lastIndex m /\ lastIndex m <= length docText /\
  lastIndex m = index m + length (match0 m) /\
  match0 m = substring docText (index m) (lastIndex m).
Proof.
  intros H. apply exec_from_spec in H.
  destruct H as (p & w & rest & Hs & Hi & Hidx & Hw & Hlast & Hmin & Hlen).
  rewrite minlen_smartyRegExp in Hmin. subst w.
  repeat split; try lia.
  unfold substring. rewrite Hs at 1.
  assert (Hpre : length (firstn i docText ++ p) = index m)
    by (rewrite length_app, length_firstn, Nat.min_l; lia).
  rewrite app_assoc, <- Hpre, skipn_app, skipn_all, Nat.sub_diag. simpl.
  replace (lastIndex m - length (firstn i docText ++ p)) with (length (match0 m) + 0) by lia.
  rewrite firstn_app_2. simpl. symmetry. apply app_nil_r.
Qed.

(** The [exec] loop ends: every match moves [lastIndex] forward. *)
Lemma scan_loop_total : forall fuel docText i,
  i <= length docText -> length docText < fuel + i ->
  exists spans, scan_loop fuel docText i = Some spans /\
                laid_out i (length docText) spans.
Proof.
  induction fuel as [|fuel IH]; intros docText i Hi Hf; [lia|].
  cbn [scan_loop].
  destruct (exec_from smartyRegExp docText i) as [m|] eqn:E.
  - apply smarty_exec_spec in E. destruct E as (H1 & H2 & H3 & H4 & H5).
    destruct (IH docText (lastIndex m)) as (spans & Hs & Hl); [lia|lia|].
    rewrite Hs. exists (span_of m :: spans). split; [reflexivity|].
    simpl. rewrite <- H4. repeat split; auto; lia.
  - exists []. simpl. auto.
Qed.

Lemma TagScanner_total docText :
  exists spans, TagScanner docText = Some spans /\
                laid_out 0 (length docText) spans.
Proof. apply scan_loop_total; lia. Qed.

(** The loop of [updateDecorations] is the filter run over the scanner. *)
Lemma push_decoration_filter_step docText tags m :
  push_decoration docText tags m = filter_step docText tags (span_of m).
Proof. reflexivity. Qed.

Lemma decorate_loop_fused : forall fuel docText i tags,
  decorate_loop fuel docText i tags =
  match scan_loop fuel docText i with
  | Some spans => Some (fold_left (filter_step docText) spans tags)
  | None => None
  end.
Proof.
  induction fuel as [|fuel IH]; intros docText i tags; [reflexivity|].
  cbn [decorate_loop scan_loop].
  destruct (exec_from smartyRegExp docText i) as [m|]; [|reflexivity].
  rewrite IH, push_decoration_filter_step.
  destruct (scan_loop fuel docText (lastIndex m)); reflexivity.
Qed.

Lemma decorations_filter docText :
  decorations docText =
  match TagScanner docText with
  | Some spans => Some (LiteralRegionFilter docText spans)
  | None => None
  end.
Proof. apply decorate_loop_fused. Qed.

(** The filter appends to what it has kept, and only scanned spans. *)
Lemma filter_fold_subseq docText : forall spans tags,
  exists kept,
    fold_left (filter_step docText) spans tags = tags ++ kept /\
    subseq kept (map decoration_of spans).
Proof.
  induction spans as [|s spans IH]; intros tags; simpl.
  - exists []. split; [symmetry; apply app_nil_r|constructor].
  - destruct (IH (filter_step docText tags s)) as (kept & Hk & Hs).
    rewrite Hk. unfold filter_step.
    destruct (negb _ || _).
    + exists (decoration_of s :: kept). rewrite <- app_assoc. simpl.
      split; [reflexivity|constructor; assumption].
    + exists kept. split; [reflexivity|constructor; assumption].
Qed.

Lemma laid_out_weaken lo lo' hi spans :
  lo' <= lo -> laid_out lo hi spans -> laid_out lo' hi spans.
Proof. destruct spans; simpl; intuition lia. Qed.

Lemma laid_out_Forall lo hi spans :
  laid_out lo hi spans ->
  Forall (fun s => lo <= startOffset s /\ startOffset s < endOffset s) spans.
Proof.
  revert lo. induction spans as [|s spans IH]; intros lo; simpl; [constructor|].
  intros (H1 & H2 & H3 & H4). constructor; [auto|].
  apply IH. eapply laid_out_weaken; [|eassumption]. lia.
Qed.

Lemma laid_out_strongly_sorted lo hi spans :
  laid_out lo hi spans -> StronglySorted span_before spans.
Proof.
  revert lo. induction spans as [|s spans IH]; intros lo; simpl; [constructor|].
  intros (H1 & H2 & H3 & H4). constructor; [eapply IH; eassumption|].
  apply laid_out_Forall in H4. eapply Forall_impl; [|eassumption].
  unfold span_before. simpl. intros a. lia.
Qed.

Lemma strongly_sorted_subseq {A : Type} (R : A -> A -> Prop) l1 l2 :
  subseq l1 l2 -> StronglySorted R l2 -> StronglySorted R l1.
Proof.
  induction 1; intros Hs; auto.
  - inversion Hs; subst. auto.
  - inversion Hs; subst. constructor; [auto|].
    rewrite Forall_forall in *. intros y Hy. eauto using subseq_In.
Qed.

Lemma strongly_sorted_map_decoration spans :
  StronglySorted span_before spans ->
  StronglySorted range_before (map decoration_of spans).
Proof.
  induction 1; simpl; constructor; auto.
  rewrite Forall_forall in *. intros d Hd. apply in_map_iff in Hd.
  destruct Hd as (b & <- & Hb). apply H0 in Hb. exact Hb.
Qed.

(** * Claims on the tag scanner and the literal-region filter *)

(** C1. For every document text the spans of one scanner pass do not
    overlap and start at strictly increasing offsets: between two
    consecutive spans (and so between any earlier and any later span) the
    end of the first is at most the start of the second, and the first
    starts strictly before the second.  The decorations kept by the loop
    of [updateDecorations] inherit the property. *)
Theorem C1_spans_increasing_non_overlapping : forall docText : str,
  exists spans tags,
    TagScanner docText = Some spans /\
    Sorted span_before spans /\
    StronglySorted span_before spans /\
    decorations docText = Some tags /\
    StronglySorted range_before tags.
Proof.
  intros docText. destruct (TagScanner_total docText) as (spans & Hs & Hl).
  apply laid_out_strongly_sorted in Hl.
  exists spans, (LiteralRegionFilter docText spans).
  rewrite decorations_filter, Hs.
  repeat split; auto using StronglySorted_Sorted.
  destruct (filter_fold_subseq docText spans []) as (kept & Hk & Hsub).
  unfold LiteralRegionFilter. rewrite Hk. simpl.
  eapply strongly_sorted_subseq; [eassumption|].
  apply strongly_sorted_map_decoration. assumption.
Qed.

(** C4. In the document [{literal}{foo}{/literal}] the scanner finds the
    three tags, and the filter keeps the span of [{literal}] and the span
    of [{/literal}] but not the span of [{foo}]. *)
Theorem C4_literal_block_example :
  let docText := js "{literal}{foo}{/literal}" in
  TagScanner docText =
    Some [Span 0 9 (js "{literal}"); Span 9 14 (js "{foo}");
          Span 14 24 (js "{/literal}")] /\
  LiteralRegionFilter docText
    [Span 0 9 (js "{literal}"); Span 9 14 (js "{foo}");
     Span 14 24 (js "{/literal}")] =
    [Decoration (MkRange 0 9); Decoration (MkRange 14 24)] /\
  decorations docText =
    Some [Decoration (MkRange 0 9); Decoration (MkRange 14 24)] /\
  updateDecorations (S (length docText)) (Some (Editor (js "smarty") docText)) =
    Some (SetDecorations [Decoration (MkRange 0 9); Decoration (MkRange 14 24)]).
Proof. vm_compute. repeat split; reflexivity. Qed.

(** C9. For every document text the decorations kept by the filter are a
    subsequence of the spans of the scanner on the same text: spans are
    only removed, none is added and the order is kept. *)
Theorem C9_filter_subsequence : forall docText : str,
  exists spans,
    TagScanner docText = Some spans /\
    decorations docText = Some (LiteralRegionFilter docText spans) /\
    subseq (LiteralRegionFilter docText spans) (map decoration_of spans).
Proof.
  intros docText. destruct (TagScanner_total docText) as (spans & Hs & _).
  exists spans. rewrite decorations_filter, Hs. repeat split.
  destruct (filter_fold_subseq docText spans []) as (kept & Hk & Hsub).
  unfold LiteralRegionFilter. rewrite Hk. exact Hsub.
Qed.

(** C10. When the scanner finds at least one span, the first span is
    always kept, whatever its text: nothing has been pushed yet, so the
    text of the previous decoration is empty and cannot hold
    [{literal}]. *)
Theorem C10_first_span_kept : forall (docText : str) (s : TagSpan) (rest : list TagSpan),
  TagScanner docText = Some (s :: rest) ->
  exists tags,
    LiteralRegionFilter docText (s :: rest) = decoration_of s :: tags /\
    decorations docText = Some (decoration_of s :: tags).
Proof.
  intros docText s rest Hs. rewrite decorations_filter, Hs.
  unfold LiteralRegionFilter. cbn [fold_left].
  destruct (filter_fold_subseq docText rest (filter_step docText [] s))
    as (kept & Hk & _).
  rewrite Hk. exists kept. split; reflexivity.
Qed.

Lemma C10_first_span_kept_witness :
  TagScanner (js "{literal}{foo}") =
    Some [Span 0 9 (js "{literal}"); Span 9 14 (js "{foo}")] /\
  exists tags,
    LiteralRegionFilter (js "{literal}{foo}")
      [Span 0 9 (js "{literal}"); Span 9 14 (js "{foo}")] =
      decoration_of (Span 0 9 (js "{literal}")) :: tags /\
    decorations (js "{literal}{foo}") =
      Some (decoration_of (Span 0 9 (js "{literal}")) :: tags).
Proof.
  split; [vm_compute; reflexivity|].
  apply (@C10_first_span_kept (js "{literal}{foo}") (Span 0 9 (js "{literal}"))
           [Span 9 14 (js "{foo}")]).
  vm_compute; reflexivity.
Defined.

(** * The delimiter detector *)

Lemma search_found re : forall pre l r,
  rmatch re Fwd (MState (rev pre ++ l) r []) (fun y => Some y) <> None ->
  search re l (pre ++ r) <> None.
Proof.
  induction pre as [|c pre IH]; intros l r H.
  - simpl in *. destruct r; cbn [search];
      destruct (rmatch re Fwd _ _); congruence.
  - cbn [app search].
    destruct (rmatch re Fwd (MState l (c :: pre ++ r) []) _); [congruence|].
    apply IH. simpl in H. rewrite <- app_assoc in H. exact H.
Qed.

Lemma double_foo_matches l post :
  rmatch doubleBraceRegExp Fwd (MState l (js "{{foo}}" ++ post) []) (fun y => Some y)
  <> None.
Proof.
  cbn.
  assert (E : match length l with
              | 0 => false
              | S m' => Nat.eqb (length l) m'
              end = false).
  { destruct (length l) as [|n] eqn:El; [reflexivity|].
    apply Nat.eqb_neq. lia. }
  rewrite E. cbn. discriminate.
Qed.

(** No tag of the doubled form starts in a text that does not start with
    two opening braces. *)
Lemma double_needs_two_braces l r :
  startsWith r (js "{{") = false ->
  rmatch doubleBraceRegExp Fwd (MState l r []) (fun y => Some y) = None.
Proof.
  intros H. destruct r as [|c1 [|c2 r]]; cbn in *.
  - reflexivity.
  - destruct (N.eqb c1 _); reflexivity.
  - unfold lbrace. destruct (N.eqb c1 123); [|reflexivity]. cbn in *.
    destruct (N.eqb c2 123); [discriminate|reflexivity].
Qed.

Lemma search_double_none : forall r l,
  includes r (js "{{") = false ->
  search doubleBraceRegExp l r = None.
Proof.
  induction r as [|c r IH]; intros l H; cbn [search includes] in *;
    apply orb_false_iff in H; destruct H as [H1 H2];
    rewrite (double_needs_two_braces _ _ H1); auto.
Qed.

(** C2. A document that holds [{{foo}}] anywhere is classified as Double
    and gets the comment pair [{{*], [*}}].  A document with single-brace
    tags only, such as [{foo}], is classified as Single and gets the pair
    [{*], [*}]: this holds for every text in which no two opening braces
    follow each other. *)
Theorem C2_delimiter_detection :
  (forall pre post : str,
     setLanguageConfiguration (pre ++ js "{{foo}}" ++ post) = (js "{{*", js "*}}") /\
     DelimiterDetector (pre ++ js "{{foo}}" ++ post) = Double) /\
  (setLanguageConfiguration (js "{foo}") = (js "{*", js "*}") /\
   DelimiterDetector (js "{foo}") = Single) /\
  (forall docText : str,
     includes docText (js "{{") = false ->
     setLanguageConfiguration docText = (js "{*", js "*}") /\
     DelimiterDetector docText = Single).
Proof.
  split; [|split].
  - intros pre post.
    assert (H : setLanguageConfiguration (pre ++ js "{{foo}}" ++ post)
                = (js "{{*", js "*}}")).
    { unfold setLanguageConfiguration, exec.
      destruct (search doubleBraceRegExp [] (pre ++ js "{{foo}}" ++ post)) eqn:E;
        [reflexivity|].
      exfalso. revert E. apply search_found. apply double_foo_matches. }
    unfold DelimiterDetector. rewrite H. split; reflexivity.
  - split; vm_compute; reflexivity.
  - intros docText H.
    assert (H' : setLanguageConfiguration docText = (js "{*", js "*}")).
    { unfold setLanguageConfiguration, exec.
      rewrite (search_double_none _ _ H). reflexivity. }
    unfold DelimiterDetector. rewrite H'. split; reflexivity.
Qed.

Lemma C2_delimiter_detection_witness :
  includes (js "<p>{if $a}{foo}{/if} { b }</p>") (js "{{") = false /\
  setLanguageConfiguration (js "<p>{if $a}{foo}{/if} { b }</p>") = (js "{*", js "*}") /\
  DelimiterDetector (js "<p>{if $a}{foo}{/if} { b }</p>") = Single.
Proof.
  split; [vm_compute; reflexivity|].
  apply (proj2 (proj2 C2_delimiter_detection)). vm_compute; reflexivity.
Defined.

(** * The path completion resolver *)

Lemma str_eqb_eq : forall a b : str, str_eqb a b = true <-> a = b.
Proof.
  induction a as [|x a IH]; destruct b as [|y b]; simpl; split; intros H;
    try discriminate; auto.
  - apply andb_true_iff in H. destruct H as [H1 H2].
    apply N.eqb_eq in H1. apply IH in H2. congruence.
  - injection H as -> ->. rewrite N.eqb_refl. simpl. apply IH. reflexivity.
Qed.

Lemma array_includes_In (l : list str) (x : str) :
  array_includes l x = true <-> In x l.
Proof.
  induction l as [|y l IH]; simpl; [split; [discriminate|tauto]|].
  rewrite orb_true_iff, str_eqb_eq, IH. tauto.
Qed.

Lemma includes_char_In (c : code_unit) : forall s : str,
  includes s [c] = true <-> In c s.
Proof.
  induction s as [|d s IH]; simpl; [split; [discriminate|tauto]|].
  rewrite orb_true_iff, andb_true_r, N.eqb_eq, IH. tauto.
Qed.

Lemma includes_slash_folder_label (dr : str) : includes (dr ++ js "/") (js "/") = true.
Proof. apply includes_char_In. apply in_or_app. right. simpl. auto. Qed.

Lemma NoDup_snoc {A : Type} (l : list A) (a : A) :
  NoDup l -> ~ In a l -> NoDup (l ++ [a]).
Proof.
  induction 1 as [|x l Hx Hl IH]; simpl; intros Ha.
  - constructor; [tauto|constructor].
  - constructor; [|apply IH; tauto].
    intros Hin. apply in_app_or in Hin. simpl in Hin.
    destruct Hin as [Hin|[<-|[]]]; tauto.
Qed.


Lemma str_eqb_refl (a : str) : str_eqb a a = true.
Proof. apply str_eqb_eq. reflexivity. Qed.


Lemma array_includes_snoc l x y :
  array_includes (l ++ [x]) y = array_includes l y || str_eqb x y.
Proof.
  induction l as [|z l IH]; simpl; [apply orb_false_r|].
  rewrite IH. apply orb_assoc.
Qed.

(** ** The loop over the enumerated files *)

Section Collect.

Variable h : Host.
Variable dir : str.
Variable rng : Range Position.

Ltac collect_step h dir f addedDirs :=
  cbn [collect];
  destruct (includes (path_relative h dir (fsPath f)) (js "/")) eqn:Eslash;
  [destruct (array_includes addedDirs
               (first_directory (path_relative h dir (fsPath f)))) eqn:Eadded;
   cbn [negb]|].

(** Every candidate pushed by the loop carries the fill range. *)
Lemma collect_ranges : forall subFiles items addedDirs it,
  In it (fst (collect h dir rng subFiles items addedDirs)) ->
  In it items \/ item_range it = rng.
Proof.
  induction subFiles as [|f subFiles IH]; intros items addedDirs it; [simpl; auto|].
  collect_step h dir f addedDirs; intros H; apply IH in H;
    destruct H as [H|H]; auto;
    apply in_app_or in H; destruct H as [H|[<-|[]]]; auto.
Qed.





(** The labels without a slash are the relative paths without a slash,
    in the order of the enumeration. *)
Lemma collect_file_labels : forall subFiles items addedDirs,
  filter no_slash (map label (fst (collect h dir rng subFiles items addedDirs))) =
  filter no_slash (map label items) ++
  filter no_slash (map (rel_of h dir) subFiles).
Proof.
  induction subFiles as [|f subFiles IH]; intros items addedDirs;
    [cbn; rewrite app_nil_r; reflexivity|].
  cbn [map filter]. unfold rel_of at 1. unfold no_slash at 3.
  collect_step h dir f addedDirs; rewrite IH; cbn [negb]; try reflexivity.
  - rewrite map_app, filter_app. cbn [map filter label].
    unfold no_slash at 2. rewrite includes_slash_folder_label. cbn [negb].
    rewrite app_nil_r. reflexivity.
  - rewrite map_app, filter_app. cbn [map filter label].
    unfold no_slash at 2. rewrite Eslash. cbn [negb].
    rewrite <- app_assoc. reflexivity.
Qed.

(** The labels with a slash stay pairwise distinct. *)
Lemma collect_slash_labels_nodup : forall subFiles items addedDirs,
  NoDup (filter (fun l => negb (no_slash l)) (map label items)) ->
  (forall lbl, In lbl (map label items) -> no_slash lbl = false ->
     exists dr, array_includes addedDirs dr = true /\ lbl = dr ++ js "/") ->
  NoDup (filter (fun l => negb (no_slash l))
                (map label (fst (collect h dir rng subFiles items addedDirs)))).
Proof.
  induction subFiles as [|f subFiles IH]; intros items addedDirs Hnd Hinv;
    [exact Hnd|].
  collect_step h dir f addedDirs; apply IH; auto.
  - set (dr := first_directory (path_relative h dir (fsPath f))) in *.
    rewrite map_app, filter_app. cbn [map filter label].
    unfold no_slash at 2. rewrite includes_slash_folder_label. cbn [negb].
    apply NoDup_snoc; [exact Hnd|]. intros Hin. apply filter_In in Hin.
    destruct Hin as [Hin Hs]. apply negb_true_iff in Hs.
    destruct (Hinv _ Hin Hs) as (dr' & H1 & H2).
    apply app_inv_tail in H2. subst dr'. congruence.
  - intros lbl Hl Hs. rewrite map_app in Hl. apply in_app_or in Hl.
    destruct Hl as [Hl|[<-|[]]].
    + destruct (Hinv lbl Hl Hs) as (dr' & H1 & H2). exists dr'.
      split; [rewrite array_includes_snoc, H1; reflexivity|exact H2].
    + eexists. split; [|reflexivity].
      rewrite array_includes_snoc, str_eqb_refl. apply orb_true_r.
  - rewrite map_app, filter_app. cbn [map filter label].
    unfold no_slash at 2. rewrite Eslash. cbn [negb]. rewrite app_nil_r.
    exact Hnd.
  - intros lbl Hl Hs. rewrite map_app in Hl. apply in_app_or in Hl.
    destruct Hl as [Hl|[<-|[]]]; [auto|].
    unfold no_slash in Hs. cbn [label] in Hs. rewrite Eslash in Hs. discriminate.
Qed.

(** A candidate is a Folder exactly when its label holds a slash. *)
Lemma collect_kinds : forall subFiles items addedDirs,
  (forall it, In it items -> is_folder it = negb (no_slash (label it))) ->
  forall it, In it (fst (collect h dir rng subFiles items addedDirs)) ->
             is_folder it = negb (no_slash (label it)).
Proof.
  induction subFiles as [|f subFiles IH]; intros items addedDirs Hinv;
    [exact Hinv|].
  collect_step h dir f addedDirs; apply IH; auto; intros it Hin;
    apply in_app_or in Hin; destruct Hin as [Hin|[<-|[]]]; auto;
    unfold is_folder, no_slash; cbn [kind label].
  - rewrite includes_slash_folder_label. reflexivity.
  - rewrite Eslash. reflexivity.
Qed.

End Collect.

Lemma NoDup_partition {A : Type} (p : A -> bool) (l : list A) :
  NoDup l <-> NoDup (filter p l) /\ NoDup (filter (fun a => negb (p a)) l).
Proof.
  induction l as [|a l IH]; [cbn; split; [split|]; constructor|].
  cbn [filter]. rewrite NoDup_cons_iff, IH.
  destruct (p a) eqn:E; cbn [negb]; rewrite NoDup_cons_iff, filter_In;
    [rewrite E|rewrite E; cbn [negb]]; tauto.
Qed.

Lemma folder_labels (items : list CompletionItem) :
  (forall it, In it items -> is_folder it = negb (no_slash (label it))) ->
  map label (filter is_folder items) =
  filter (fun l => negb (no_slash l)) (map label items).
Proof.
  induction items as [|it items IH]; intros H; [reflexivity|].
  cbn [filter map]. rewrite <- (H it (or_introl eq_refl)).
  rewrite <- IH by (intros it' Hin; apply H; right; exact Hin).
  destruct (is_folder it); reflexivity.
Qed.


(** ** The trigger and the two replacements *)

Lemma regex_start_here l r y :
  rmatch regex_start Fwd (MState l r []) (fun y => Some y) = Some y ->
  exists q frag,
    r = q :: frag /\ after y = [] /\ get_cap (caps y) 1 = Some frag /\
    (q = squote \/ q = dquote).
Proof.
  unfold regex_start, seqs.
  set (lb := Alt _ _). set (frag_re := Plus _).
  cbn [rmatch]. intros H.
  destruct (rmatch lb Bwd _ _) as [y0|]; [|discriminate].
  unfold step, with_caps in H. cbn [after before caps] in H.
  destruct r as [|q frag]; [discriminate|].
  destruct (char_matches _ q) eqn:Eq; [|discriminate].
  apply rmatch_reach in H. destruct H as (y1 & w & Hr & _ & _ & H).
  cbn [set_cap after] in H. destruct (after y1) eqn:Ea; [|discriminate].
  injection H as <-. exists q, frag. cbn [set_cap after caps get_cap Nat.eqb].
  rewrite Ea. cbn [length]. rewrite Nat.sub_0_r, firstn_all.
  repeat split; auto.
  cbn in Eq. rewrite orb_false_r in Eq. apply orb_true_iff in Eq.
  destruct Eq as [Eq|Eq]; apply N.eqb_eq in Eq; auto.
Qed.

(** A match of the trigger: the line up to the cursor ends with a quote
    followed by the captured fragment. *)
Lemma regex_start_spec (t : str) (m : match_result) :
  exec regex_start t = Some m ->
  exists pre q,
    t = pre ++ q :: group m 1 /\ index m = length pre /\
    (q = squote \/ q = dquote).
Proof.
  unfold exec. intros H. apply search_inv in H.
  destruct H as (p & r' & y & H1 & H2 & H3 & _).
  apply regex_start_here in H2. destruct H2 as (q & frag & Hr & _ & Hc & Hq).
  exists p, q. subst m. unfold group, result_at. cbn [groups index].
  rewrite Hc, length_app, length_rev. simpl. subst r'. auto.
Qed.

(** Greedy repetition of a one-character pattern in front of a
    continuation that accepts the end of the text. *)
Lemma greedy_atom_star_end (a : regex) (k : cont) :
  is_atom a = true ->
  (forall x, after x = [] -> k x <> None) ->
  forall w l cs n,
    Forall (fun c => char_matches a c = true) w ->
    length w < n ->
    repeat_matcher (fun x' k' => rmatch a Fwd (clear_caps (groups_in a) x') k')
                   true k n (MState l w cs) <> None.
Proof.
  intros Ha Hk. induction w as [|c w IH]; intros l cs n Hw Hn;
    (destruct n as [|n]; [simpl in Hn; lia|]); cbn [repeat_matcher].
  - assert (E : rmatch a Fwd (clear_caps (groups_in a) (MState l [] cs))
                  (fun y => if Nat.eqb (endIndex y) (endIndex (MState l [] cs))
                            then None
                            else repeat_matcher
                                   (fun x' k' => rmatch a Fwd (clear_caps (groups_in a) x') k')
                                   true k n y) = None)
      by (destruct a; try discriminate; reflexivity).
    rewrite E. cbn [or_else]. apply Hk. reflexivity.
  - inversion Hw as [|c' w' Hc Hw']; subst.
    assert (E : exists cs',
      rmatch a Fwd (clear_caps (groups_in a) (MState l (c :: w) cs))
        (fun y => if Nat.eqb (endIndex y) (endIndex (MState l (c :: w) cs))
                  then None
                  else repeat_matcher
                         (fun x' k' => rmatch a Fwd (clear_caps (groups_in a) x') k')
                         true k n y)
      = repeat_matcher
          (fun x' k' => rmatch a Fwd (clear_caps (groups_in a) x') k')
          true k n (MState (c :: l) w cs')).
    { eexists.
      destruct a; try discriminate; cbn [rmatch step clear_caps before after caps];
        rewrite Hc; unfold endIndex; cbn [before length];
        rewrite (proj2 (Nat.eqb_neq _ _)) by lia; reflexivity. }
    destruct E as (cs' & E). rewrite E.
    specialize (IH (c :: l) cs' n Hw' ltac:(simpl in Hn; lia)).
    destruct (repeat_matcher _ true k n _); [discriminate|contradiction].
Qed.

Lemma not_slash_char (c : code_unit) :
  char_matches (Cls true [CChar slash]) c = true <-> c <> slash.
Proof.
  unfold char_matches, existsb, item_matches. rewrite orb_false_r.
  destruct (N.eqb_spec c slash); simpl; split; congruence.
Qed.

Lemma trailing_here_sound l r y :
  rmatch trailing_segment Fwd (MState l r []) (fun y => Some y) = Some y ->
  r <> [] /\ ~ In slash r /\ endIndex y = length l + length r.
Proof.
  unfold trailing_segment. cbn [rmatch]. intros H.
  apply rmatch_reach in H. destruct H as (y1 & w & Hr & Hl & Hw & H).
  destruct (after y1) eqn:Ea; [|discriminate]. injection H as <-.
  rewrite (reach_endIndex_fwd Hr). destruct Hr as [Hr _].
  cbn [after before] in *. rewrite Ea, app_nil_r in Hr. subst w.
  unfold endIndex. cbn [before]. repeat split; auto.
  - destruct r; [simpl in Hl; lia|discriminate].
  - intros Hin. rewrite Forall_forall in Hw. apply Hw in Hin.
    vm_compute in Hin. discriminate.
Qed.

Lemma trailing_here_complete l r :
  r <> [] -> ~ In slash r ->
  rmatch trailing_segment Fwd (MState l r []) (fun y => Some y) <> None.
Proof.
  intros Hne Hns. destruct r as [|c w]; [congruence|].
  unfold trailing_segment, Plus. cbn [rmatch step after before caps].
  rewrite (proj2 (not_slash_char c)) by (intros ->; apply Hns; simpl; auto).
  apply (@greedy_atom_star_end (Cls true [CChar slash])
           (fun y => match after y with [] => Some y | _ :: _ => None end)).
  - reflexivity.
  - intros x Hx. rewrite Hx. discriminate.
  - apply Forall_forall. intros d Hd. apply not_slash_char.
    intros ->. apply Hns. simpl. auto.
  - cbn. lia.
Qed.

Lemma last_case {A : Type} (l : list A) :
  l = [] \/ exists l' a, l = l' ++ [a].
Proof.
  induction l as [|a l' _] using rev_ind; [auto|right; eauto].
Qed.

(** [file.replace(/[^\\/]+$/, '')] cuts the text after the last slash. *)
Lemma directories_of_spec (file : str) :
  exists seg,
    file = directories_of file ++ seg /\ ~ In slash seg /\
    (directories_of file = [] \/
     exists s, directories_of file = s ++ [slash]).
Proof.
  unfold directories_of, replace, exec.
  destruct (search trailing_segment [] file) as [m|] eqn:E.
  - apply search_inv in E. destruct E as (p & r' & y & H1 & H2 & H3 & H4).
    apply trailing_here_sound in H2. destruct H2 as (Hne & Hns & He).
    subst m. unfold result_at. cbn [index lastIndex]. rewrite He.
    rewrite length_app, length_rev. simpl. rewrite Nat.add_0_r.
    subst file. exists r'.
    rewrite firstn_app, firstn_all, Nat.sub_diag, skipn_app.
    rewrite skipn_all2 by lia.
    replace (length p + length r' - length p) with (length r') by lia.
    rewrite skipn_all. simpl. rewrite !app_nil_r.
    repeat split; auto.
    destruct (last_case p) as [->|(p1 & c & ->)]; [auto|right].
    exists p1. f_equal. f_equal.
    destruct (N.eq_dec c slash) as [Hc|Hc]; [assumption|exfalso].
    apply (@trailing_here_complete (rev p1 ++ []) (c :: [] ++ r')).
    + discriminate.
    + simpl. intros [Hin|Hin]; auto.
    + apply (H4 p1 c []). reflexivity.
  - exists []. rewrite app_nil_r. repeat split; auto.
    destruct (last_case file) as [->|(p1 & c & ->)]; [auto|right].
    exists p1. f_equal. f_equal.
    destruct (N.eq_dec c slash) as [Hc|Hc]; [assumption|exfalso].
    revert E. apply search_found. apply trailing_here_complete.
    + discriminate.
    + simpl. intros [Hin|[]]; auto.
Qed.

(** A search that fails left of a position and succeeds at it. *)
Lemma search_at re : forall pre l r y,
  (forall p1 c p2, pre = p1 ++ c :: p2 ->
     rmatch re Fwd (MState (rev p1 ++ l) (c :: p2 ++ r) []) (fun y => Some y) = None) ->
  rmatch re Fwd (MState (rev pre ++ l) r []) (fun y => Some y) = Some y ->
  search re l (pre ++ r) = Some (result_at (rev pre ++ l) r y).
Proof.
  induction pre as [|c pre IH]; intros l r y Hfail Hm.
  - simpl in *. destruct r; cbn [search]; rewrite Hm; reflexivity.
  - cbn [app search]. pose proof (Hfail [] c pre eq_refl) as H0.
    simpl in H0. rewrite H0. simpl in Hm. rewrite <- app_assoc in Hm. simpl in Hm.
    rewrite (IH (c :: l) r y); [simpl; rewrite <- app_assoc; reflexivity| |exact Hm].
    intros p1 c' p2 ->. specialize (Hfail (c :: p1) c' p2 eq_refl).
    simpl in Hfail. rewrite <- app_assoc in Hfail. exact Hfail.
Qed.




Lemma fill_range_spec position m sub :
  index m + length sub + 1 <= character position ->
  fill_range position m sub =
  MkRange (Pos (line position) (index m + 1 + length sub)) position.
Proof.
  intros H. unfold fill_range, newRange, translate, isBefore. cbn [line character].
  replace (line position + 0 + 0) with (line position) by lia.
  rewrite Nat.ltb_irrefl, Nat.eqb_refl. cbn [orb andb].
  rewrite (proj2 (Nat.ltb_ge _ _)) by lia.
  f_equal. f_equal. lia.
Qed.

(** * Claims on the path completion resolver *)

(** C3, as amended.  When the enumeration of the files fails, the failure
    is handed on to the caller: the promise of the resolver is rejected
    with the reason of the enumeration.  The resolver is rejected in one
    more case, before any enumeration: when the line of the cursor is not
    a line of the document and [lineAt] throws.  With the functions of
    [path] and [asRelativePath] returning on every text, these are the
    only two ways it is rejected; when the line exists and the resolver
    returns before the enumeration it resolves to the empty list. *)
Theorem C3_enumeration_failure_propagates :
  forall (h : Host) (document : TextDocument) (position : Position),
    (forall glob reason,
       enumerated_glob h document position = Some glob ->
       findFiles h glob = Rejected reason ->
       provideCompletionItems h document position = Rejected reason) /\
    (lineAt document (line position) = None ->
     enumerated_glob h document position = None /\
     provideCompletionItems h document position = Rejected illegal_line) /\
    (forall reason,
       provideCompletionItems h document position = Rejected reason ->
       (lineAt document (line position) = None /\ reason = illegal_line) \/
       (exists glob, enumerated_glob h document position = Some glob /\
                     findFiles h glob = Rejected reason)) /\
    (forall text,
       lineAt document (line position) = Some text ->
       enumerated_glob h document position = None ->
       provideCompletionItems h document position = Resolved []).
Proof.
  intros h document position.
  unfold enumerated_glob, provideCompletionItems, textBefore.
  destruct (lineAt document (line position)) as [text|].
  - destruct (exec regex_start (firstn (character position) text)) as [m|].
    + destruct (startsWith (group m 1) (js "./")); cbn [negb].
      * split; [|split; [|split]].
        -- intros glob reason H1 H2. injection H1 as <-. rewrite H2. reflexivity.
        -- discriminate.
        -- intros reason H. right. eexists. split; [reflexivity|].
           destruct (findFiles h _); [discriminate|congruence].
        -- discriminate.
      * split; [|split; [|split]]; intros; try discriminate; reflexivity.
    + split; [|split; [|split]]; intros; try discriminate; reflexivity.
  - split; [|split; [|split]]; intros; try discriminate; auto.
    left. split; [reflexivity|congruence].
Qed.

Lemma C3_enumeration_failure_propagates_witness :
  provideCompletionItems failing_host
    (sample_document (include_line (js "./inc/")))
    (cursor_at_end (include_line (js "./inc/")))
  = Rejected (js "enumeration failed") /\
  (enumerated_glob (sample_host [])
     (sample_document (include_line (js "./inc/"))) (Pos 1 0) = None /\
   provideCompletionItems (sample_host [])
     (sample_document (include_line (js "./inc/"))) (Pos 1 0)
   = Rejected illegal_line) /\
  ((lineAt (sample_document (include_line (js "./inc/")))
      (line (cursor_at_end (include_line (js "./inc/")))) = None /\
    js "enumeration failed" = illegal_line) \/
   (exists glob,
      enumerated_glob failing_host
        (sample_document (include_line (js "./inc/")))
        (cursor_at_end (include_line (js "./inc/"))) = Some glob /\
      findFiles failing_host glob = Rejected (js "enumeration failed"))) /\
  provideCompletionItems failing_host
    (sample_document (include_line (js "inc/")))
    (cursor_at_end (include_line (js "inc/")))
  = Resolved [].
Proof.
  split; [|split; [|split]].
  - eapply (proj1 (C3_enumeration_failure_propagates failing_host
                     (sample_document (include_line (js "./inc/")))
                     (cursor_at_end (include_line (js "./inc/"))))).
    + vm_compute. reflexivity.
    + vm_compute. reflexivity.
  - apply (proj1 (proj2 (C3_enumeration_failure_propagates (sample_host [])
                     (sample_document (include_line (js "./inc/")))
                     (Pos 1 0)))).
    vm_compute. reflexivity.
  - apply (proj1 (proj2 (proj2 (C3_enumeration_failure_propagates failing_host
                     (sample_document (include_line (js "./inc/")))
                     (cursor_at_end (include_line (js "./inc/"))))))).
    vm_compute. reflexivity.
  - eapply (proj2 (proj2 (proj2 (C3_enumeration_failure_propagates failing_host
                     (sample_document (include_line (js "inc/")))
                     (cursor_at_end (include_line (js "inc/"))))))).
    + vm_compute. reflexivity.
    + vm_compute. reflexivity.
Defined.

(** C3, as stated, fails: with a host whose enumeration fails, the
    resolver asked to complete [./inc/] does not return the empty list,
    its promise is rejected. *)
Lemma C3_counterexample :
  (forall glob, findFiles failing_host glob = Rejected (js "enumeration failed")) /\
  provideCompletionItems failing_host
    (sample_document (include_line (js "./inc/")))
    (cursor_at_end (include_line (js "./inc/")))
  <> Resolved [].
Proof.
  split; [reflexivity|]. vm_compute. discriminate.
Qed.

(** C8. When the captured fragment does not start with [./] the resolver
    returns the empty list, and its promise is not rejected; so it does
    for the fragment [bare.tpl], whatever the host. *)
Theorem C8_non_relative_fragment_empty :
  (forall (h : Host) (document : TextDocument) (position : Position)
          (text : str) (m : match_result),
     textBefore document position = Some text ->
     exec regex_start text = Some m ->
     startsWith (group m 1) (js "./") = false ->
     provideCompletionItems h document position = Resolved []) /\
  (forall h : Host,
     provideCompletionItems h
       (sample_document (include_line (js "bare.tpl")))
       (cursor_at_end (include_line (js "bare.tpl"))) = Resolved []).
Proof.
  assert (H : forall h document position text m,
     textBefore document position = Some text ->
     exec regex_start text = Some m ->
     startsWith (group m 1) (js "./") = false ->
     provideCompletionItems h document position = Resolved []).
  { intros h document position text m Ht Hm Hs. unfold provideCompletionItems.
    rewrite Ht, Hm. cbn zeta. rewrite Hs. reflexivity. }
  split; [exact H|].
  intros h.
  destruct (exec regex_start (include_line (js "bare.tpl")))
    as [m|] eqn:E; [|vm_compute in E; discriminate].
  apply (H h _ _ (include_line (js "bare.tpl")) m);
    [vm_compute; reflexivity|exact E|].
  vm_compute in E. injection E as <-. vm_compute. reflexivity.
Qed.

Lemma C8_non_relative_fragment_empty_witness :
  provideCompletionItems (sample_host [MkUri (js "/ws/tpl/bare.tpl")])
    (sample_document (include_line (js "bare.tpl")))
    (cursor_at_end (include_line (js "bare.tpl"))) = Resolved [].
Proof.
  eapply (proj1 C8_non_relative_fragment_empty).
  - vm_compute. reflexivity.
  - vm_compute. reflexivity.
  - vm_compute. reflexivity.
Defined.

(** C7, as amended.  The loop keeps the Folder labels apart, and a Folder
    label, which ends with a slash, is never a File label, which holds
    none; but it pushes one File candidate for every enumerated file of
    the target directory itself.  So the labels of the candidates are
    pairwise distinct whenever all enumerated files have pairwise
    distinct relative paths, and, for a query that gets as far as the
    enumeration, exactly when the enumerated files that lie in the target
    directory itself have. *)
Theorem C7_labels_unique :
  forall (h : Host) (document : TextDocument) (position : Position)
         (text : str) (m : match_result) (subFiles : list Uri)
         (items : list CompletionItem),
    textBefore document position = Some text ->
    exec regex_start text = Some m ->
    findFiles h (tpl_glob h (target_directory h document (group m 1)))
      = Resolved subFiles ->
    provideCompletionItems h document position = Resolved items ->
    let rels := map (rel_of h (target_directory h document (group m 1)))
                    subFiles in
    (startsWith (group m 1) (js "./") = true ->
     (NoDup (map label items) <-> NoDup (filter no_slash rels))) /\
    NoDup (map label (filter is_folder items)) /\
    (forall a b, In a items -> In b items ->
       kind a = Folder -> kind b = File -> label a <> label b) /\
    (NoDup rels -> NoDup (map label items)).
Proof.
  intros h document position text m subFiles items Ht Hm Hf.
  unfold provideCompletionItems. rewrite Ht, Hm. cbn zeta.
  destruct (startsWith (group m 1) (js "./")); cbn [negb];
    [|intros H; injection H as <-; cbv zeta; cbn [map filter];
      split; [discriminate|];
      split; [constructor|]; split; [intros a b []|intros _; constructor]].
  rewrite Hf. intros H. injection H as <-.
  set (dir := target_directory h document (group m 1)).
  set (rng := fill_range position m (directories_of (group m 1))).
  pose proof (collect_file_labels h dir rng subFiles [] []) as Hfl.
  cbn [map filter app] in Hfl.
  pose proof (@collect_slash_labels_nodup h dir rng subFiles [] []
                (NoDup_nil _)
                (fun lbl (H : In lbl []) _ => match H with end)) as Hsl.
  pose proof (@collect_kinds h dir rng subFiles [] []
                (fun it (H : In it []) => match H with end)) as Hk.
  assert (Hiff : NoDup (map label (fst (collect h dir rng subFiles [] []))) <->
                 NoDup (filter no_slash (map (rel_of h dir) subFiles))).
  { rewrite (NoDup_partition (fun l => negb (no_slash l))).
    rewrite (filter_ext _ no_slash (fun l => negb_involutive (no_slash l))).
    rewrite Hfl. tauto. }
  split; [intros _; exact Hiff|]. split; [|split].
  - rewrite (folder_labels _ Hk). exact Hsl.
  - intros a b Ha Hb Ka Kb E.
    pose proof (Hk a Ha) as Ia. pose proof (Hk b Hb) as Ib.
    unfold is_folder in Ia, Ib. rewrite Ka in Ia. rewrite Kb in Ib.
    rewrite E in Ia. rewrite <- Ia in Ib. discriminate.
  - intros Hnd. apply Hiff. apply NoDup_filter. exact Hnd.
Qed.

Lemma C7_labels_unique_witness :
  let files := [MkUri (js "/ws/tpl/inc/a.tpl"); MkUri (js "/ws/tpl/inc/sub/b.tpl");
                MkUri (js "/ws/tpl/inc/sub/c.tpl")] in
  let items := [Item (js "a.tpl") File (MkRange (Pos 0 26) (Pos 0 26));
                Item (js "sub/") Folder (MkRange (Pos 0 26) (Pos 0 26))] in
  let rels := map (rel_of (sample_host (files ++ [MkUri (js "/ws/tpl/x.tpl")]))
                          (js "/ws/tpl/inc")) files in
  (startsWith (js "./inc/") (js "./") = true ->
   (NoDup (map label items) <-> NoDup (filter no_slash rels))) /\
  NoDup (map label (filter is_folder items)) /\
  (forall a b, In a items -> In b items ->
     kind a = Folder -> kind b = File -> label a <> label b) /\
  (NoDup rels -> NoDup (map label items)).
Proof.
  cbv zeta.
  apply (@C7_labels_unique
           (sample_host ([MkUri (js "/ws/tpl/inc/a.tpl");
                          MkUri (js "/ws/tpl/inc/sub/b.tpl");
                          MkUri (js "/ws/tpl/inc/sub/c.tpl")]
                         ++ [MkUri (js "/ws/tpl/x.tpl")]))
           (sample_document (include_line (js "./inc/")))
           (cursor_at_end (include_line (js "./inc/")))
           (include_line (js "./inc/"))
           (MatchResult 19 (dquote :: js "./inc/") [(1, js "./inc/")] 26)
           [MkUri (js "/ws/tpl/inc/a.tpl"); MkUri (js "/ws/tpl/inc/sub/b.tpl");
            MkUri (js "/ws/tpl/inc/sub/c.tpl")]
           [Item (js "a.tpl") File (MkRange (Pos 0 26) (Pos 0 26));
            Item (js "sub/") Folder (MkRange (Pos 0 26) (Pos 0 26))]).
  - vm_compute. reflexivity.
  - vm_compute. reflexivity.
  - vm_compute. reflexivity.
  - vm_compute. reflexivity.
Defined.

(** C7, as stated, fails: when the enumeration names [a.tpl] twice the
    resolver returns two File candidates labelled [a.tpl]; the loop keeps
    directories apart, not files. *)
Lemma C7_counterexample :
  let h := sample_host [MkUri (js "/ws/tpl/inc/a.tpl");
                        MkUri (js "/ws/tpl/inc/a.tpl")] in
  let document := sample_document (include_line (js "./inc/")) in
  let position := cursor_at_end (include_line (js "./inc/")) in
  provideCompletionItems h document position
    = Resolved [Item (js "a.tpl") File (MkRange (Pos 0 26) (Pos 0 26));
                Item (js "a.tpl") File (MkRange (Pos 0 26) (Pos 0 26))] /\
  ~ NoDup (map label [Item (js "a.tpl") File (MkRange (Pos 0 26) (Pos 0 26));
                      Item (js "a.tpl") File (MkRange (Pos 0 26) (Pos 0 26))]).
Proof.
  cbv zeta. split; [vm_compute; reflexivity|].
  intros H. inversion H as [|x l Hn _]. apply Hn. left. reflexivity.
Qed.

(** C5. Every candidate returned by the resolver replaces the trailing
    segment of the typed fragment and nothing else: the line up to the
    cursor is a quote followed by the fragment, the fragment is a path
    ending with a slash followed by a segment without slash, and the
    range of the candidate starts right after that last slash and ends at
    the cursor. *)
Theorem C5_replacement_range :
  forall (h : Host) (document : TextDocument) (position : Position)
         (items : list CompletionItem) (it : CompletionItem),
    provideCompletionItems h document position = Resolved items ->
    In it items ->
    exists (pre : str) (q : code_unit) (sub seg : str),
      textBefore document position = Some (pre ++ q :: sub ++ seg) /\
      (q = squote \/ q = dquote) /\
      startsWith (sub ++ seg) (js "./") = true /\
      (exists s, sub = s ++ [slash]) /\
      ~ In slash seg /\
      item_range it =
        MkRange (Pos (line position) (length pre + 1 + length sub)) position.
Proof.
  intros h document position items it H Hin.
  unfold provideCompletionItems in H.
  destruct (textBefore document position) as [text|] eqn:Et; [|discriminate].
  assert (Hlen : length text <= character position).
  { unfold textBefore in Et.
    destruct (lineAt document (line position)); [|discriminate].
    injection Et as <-. rewrite length_firstn. lia. }
  destruct (exec regex_start text) as [m|] eqn:Em;
    [|injection H as <-; contradiction].
  cbn zeta in H.
  destruct (startsWith (group m 1) (js "./")) eqn:Es; cbn [negb] in H;
    [|injection H as <-; contradiction].
  destruct (findFiles h _) as [subFiles|]; [|discriminate].
  injection H as <-. apply collect_ranges in Hin. destruct Hin as [[]|Hr].
  destruct (regex_start_spec _ Em) as (pre & q & Ht & Hi & Hq).
  destruct (directories_of_spec (group m 1)) as (seg & Hf & Hns & Hsub).
  exists pre, q, (directories_of (group m 1)), seg. rewrite <- Hf.
  assert (Hs : exists s, directories_of (group m 1) = s ++ [slash]).
  { destruct Hsub as [E|Hs]; [exfalso|exact Hs].
    rewrite E in Hf. simpl in Hf. rewrite Hf in Es.
    change (js "./") with [46%N; slash] in Es.
    destruct seg as [|c1 [|c2 seg]]; cbn [startsWith] in Es;
      try discriminate; try (rewrite andb_false_r in Es; discriminate).
    apply andb_true_iff in Es. destruct Es as [_ Es].
    apply andb_true_iff in Es. destruct Es as [Es _]. apply N.eqb_eq in Es.
    apply Hns. subst c2. simpl. auto. }
  split; [rewrite Ht; reflexivity|].
  repeat (split; [assumption|]).
  rewrite Hr, fill_range_spec; [rewrite Hi; reflexivity|].
  rewrite Ht, Hf in Hlen. rewrite length_app in Hlen. simpl in Hlen.
  rewrite length_app in Hlen. lia.
Qed.

Lemma C5_replacement_range_witness :
  exists (pre : str) (q : code_unit) (sub seg : str),
    textBefore (sample_document (include_line (js "./inc/a")))
               (cursor_at_end (include_line (js "./inc/a")))
      = Some (pre ++ q :: sub ++ seg) /\
    (q = squote \/ q = dquote) /\
    startsWith (sub ++ seg) (js "./") = true /\
    (exists s, sub = s ++ [slash]) /\
    ~ In slash seg /\
    item_range (Item (js "a.tpl") File (MkRange (Pos 0 26) (Pos 0 27))) =
      MkRange (Pos (line (cursor_at_end (include_line (js "./inc/a"))))
                   (length pre + 1 + length sub))
              (cursor_at_end (include_line (js "./inc/a"))).
Proof.
  eapply (@C5_replacement_range
            (sample_host [MkUri (js "/ws/tpl/inc/a.tpl"); MkUri (js "/ws/tpl/inc/sub/b.tpl")])
            (sample_document (include_line (js "./inc/a")))
            (cursor_at_end (include_line (js "./inc/a")))).
  - vm_compute. reflexivity.
  - simpl. left. reflexivity.
Defined.





(** * Further properties of the tag scanner *)

Lemma rmatch_seq_fwd r1 r2 x (k : cont) z :
  rmatch (Seq r1 r2) Fwd x k = Some z ->
  exists y w, reach Fwd x y w /\ minlen r1 <= length w /\
              Forall (fun c => accepts r1 c = true) w /\
              rmatch r2 Fwd y k = Some z.
Proof. cbn [rmatch]. intros H. apply rmatch_reach in H. exact H. Qed.

Lemma rmatch_chr_fwd c x (k : cont) z :
  rmatch (Chr c) Fwd x k = Some z ->
  exists y, reach Fwd x y [c] /\ k y = Some z.
Proof.
  cbn [rmatch]. destruct (step Fwd x) as [[c' y]|] eqn:E; [|discriminate].
  unfold char_matches. destruct (N.eqb_spec c' c); [|discriminate].
  subst c'. intros H. exists y. split; [eapply reach_step; eassumption|exact H].
Qed.

Lemma rmatch_opt_chr_fwd c x (k : cont) z :
  rmatch (Opt (Chr c)) Fwd x k = Some z ->
  exists y w, reach Fwd x y w /\ (w = [] \/ w = [c]) /\ k y = Some z.
Proof.
  unfold Opt. cbn [rmatch]. unfold or_else.
  destruct (match step Fwd x with
            | Some (c0, y) => if char_matches (Chr c) c0 then k y else None
            | None => None
            end) eqn:E.
  - intros H. injection H as <-. apply (@rmatch_chr_fwd c x k) in E.
    destruct E as (y & Hr & Hk). exists y, [c]. auto.
  - intros H. exists x, []. split; [apply reach_refl|auto].
Qed.

(** ** The matcher only reads words of the pattern *)

Lemma repeat_matcher_lang g r body (k : cont) n :
  (forall x (k' : cont) z, body x k' = Some z ->
     exists y w, reach Fwd x y w /\ lang r w /\ k' y = Some z) ->
  forall x z, repeat_matcher body g k n x = Some z ->
    exists y w, reach Fwd x y w /\ lang (Star g r) w /\ k y = Some z.
Proof.
  intros Hb. induction n as [|n IH]; intros x z; cbn [repeat_matcher]; [discriminate|].
  assert (Hiter : forall z',
    body x (fun y => if Nat.eqb (endIndex y) (endIndex x) then None
                     else repeat_matcher body g k n y) = Some z' ->
    exists y w, reach Fwd x y w /\ lang (Star g r) w /\ k y = Some z').
  { intros z' H. apply Hb in H. destruct H as (y & w & Hr & Hw & Hk).
    destruct (Nat.eqb (endIndex y) (endIndex x)); [discriminate|].
    apply IH in Hk. destruct Hk as (y' & w' & Hr' & Hw' & Hk').
    exists y', (w ++ w'). split; [eapply reach_trans; eauto|].
    split; [constructor; assumption|assumption]. }
  assert (Hk : forall z', k x = Some z' ->
    exists y w, reach Fwd x y w /\ lang (Star g r) w /\ k y = Some z').
  { intros z' H. exists x, []. split; [apply reach_refl|]. split; [constructor|assumption]. }
  destruct g; unfold or_else.
  - destruct (body x _) eqn:E; [apply Hiter|apply Hk].
  - destruct (k x) eqn:E; [apply Hk|apply Hiter].
Qed.

Lemma rmatch_lang r : forall x (k : cont) z,
  rmatch r Fwd x k = Some z ->
  exists y w, reach Fwd x y w /\ lang r w /\ k y = Some z.
Proof.
  assert (Hchar : forall r x (k : cont) z,
    is_atom r = true ->
    match step Fwd x with
    | Some (c, y) => if char_matches r c then k y else None
    | None => None
    end = Some z ->
    exists y w, reach Fwd x y w /\ lang r w /\ k y = Some z).
  { intros r0 x k z Ha H. destruct (step Fwd x) as [[c y]|] eqn:E; [|discriminate].
    destruct (char_matches r0 c) eqn:Ec; [|discriminate].
    exists y, [c]. split; [eapply reach_step; eauto|].
    split; [constructor; assumption|assumption]. }
  induction r as [|c| |neg items|r1 IH1 r2 IH2|r1 IH1 r2 IH2|g r1 IH1|n r1 IH1|r1 IH1|];
    intros x k z H; cbn [rmatch] in H.
  - exists x, []. split; [apply reach_refl|]. split; [constructor|assumption].
  - apply (Hchar (Chr c)); auto.
  - apply (Hchar Dot); auto.
  - apply (Hchar (Cls neg items)); auto.
  - apply IH1 in H. destruct H as (y & w & Hr & Hw & H).
    apply IH2 in H. destruct H as (y' & w' & Hr' & Hw' & H).
    exists y', (w ++ w'). split; [eapply reach_trans; eauto|].
    split; [constructor; assumption|assumption].
  - unfold or_else in H. destruct (rmatch r1 Fwd x k) eqn:E.
    + injection H as <-. apply IH1 in E. destruct E as (y & w & Hr & Hw & E).
      exists y, w. split; [assumption|]. split; [apply lang_alt_l; assumption|assumption].
    + apply IH2 in H. destruct H as (y & w & Hr & Hw & E').
      exists y, w. split; [assumption|]. split; [apply lang_alt_r; assumption|assumption].
  - eapply repeat_matcher_lang in H; [exact H|].
    intros x' k' z' H'. apply IH1 in H'. destruct H' as (y & w & Hr & Hw & H').
    exists y, w. split; [exact Hr|]. split; assumption.
  - apply IH1 in H. destruct H as (y & w & Hr & Hw & H).
    exists (set_cap n (between Fwd x y) y), w.
    split; [exact Hr|]. split; [constructor; assumption|assumption].
  - destruct (rmatch r1 Bwd x (fun y => Some y)) eqn:E; [|discriminate].
    exists (with_caps x (caps m)), [].
    split; [simpl; auto|]. split; [constructor|assumption].
  - destruct (after x) eqn:E; [|discriminate].
    exists x, []. split; [apply reach_refl|]. split; [constructor|assumption].
Qed.

Lemma lang_chr_inv c w : lang (Chr c) w -> w = [c].
Proof.
  intros H. inversion H; subst. unfold char_matches in *.
  match goal with E : N.eqb _ _ = true |- _ => apply N.eqb_eq in E; subst end.
  reflexivity.
Qed.

Lemma lang_seq_inv r1 r2 w :
  lang (Seq r1 r2) w -> exists w1 w2, w = w1 ++ w2 /\ lang r1 w1 /\ lang r2 w2.
Proof. intros H. inversion H; subst; [discriminate|eauto]. Qed.

Lemma lang_alt_inv r1 r2 w : lang (Alt r1 r2) w -> lang r1 w \/ lang r2 w.
Proof. intros H. inversion H; subst; [discriminate|auto|auto]. Qed.

Lemma lang_group_inv n r w : lang (Group n r) w -> lang r w.
Proof. intros H. inversion H; subst; [discriminate|auto]. Qed.

Lemma lang_eps_inv w : lang Eps w -> w = [].
Proof. intros H. inversion H; subst; [reflexivity|discriminate]. Qed.

Lemma lang_opt_chr_inv c w : lang (Opt (Chr c)) w -> w = [] \/ w = [c].
Proof.
  intros H. apply lang_alt_inv in H. destruct H as [H|H].
  - right. apply lang_chr_inv. exact H.
  - left. apply lang_eps_inv. exact H.
Qed.

Lemma lang_cls_inv neg items w :
  lang (Cls neg items) w ->
  exists c, w = [c] /\ char_matches (Cls neg items) c = true.
Proof. intros H. inversion H; subst. eauto. Qed.

(** ** Shape of the text of a tag *)

Lemma tag_first_char (c : code_unit) :
  char_matches (Cls true [CChar rbrace; CChar newline; CSpace]) c = true ->
  is_space c = false /\ c <> rbrace.
Proof.
  unfold char_matches, existsb, item_matches. rewrite orb_false_r.
  destruct (N.eqb_spec c rbrace) as [->|Hc]; [discriminate|].
  destruct (N.eqb c newline); [discriminate|].
  destruct (is_space c); [discriminate|]. auto.
Qed.

Ltac split_seq H :=
  let w1 := fresh "w" in
  let w2 := fresh "w" in
  let E := fresh "E" in
  let H1 := fresh "L" in
  apply lang_seq_inv in H; destruct H as (w1 & w2 & E & H1 & H); subst.

Ltac with_word r tac :=
  match goal with
  | L : lang r ?w |- _ => tac w
  end.

Ltac list_eq := simpl; rewrite <- ?app_assoc; reflexivity.

Lemma smarty_lang_tag_text w : lang smartyRegExp w -> tag_text w.
Proof.
  unfold smartyRegExp, seqs. intros H. apply lang_alt_inv in H. destruct H as [H|H].
  - apply lang_group_inv in H. do 6 split_seq H.
    apply lang_chr_inv in L, L1, L3, L4. subst.
    apply lang_opt_chr_inv in L0. apply lang_opt_chr_inv in H.
    destruct L0 as [->| ->]; destruct H as [->| ->].
    + with_word (Star false Dot) ltac:(fun v => exists star_c, (v ++ [star_c])).
      repeat split; try discriminate; auto; try list_eq.
    + with_word (Star false Dot) ltac:(fun v => exists star_c, (v ++ [star_c; rbrace])).
      repeat split; try discriminate; auto; try list_eq.
    + with_word (Star false Dot) ltac:(fun v => exists lbrace, (star_c :: v ++ [star_c])).
      repeat split; try discriminate; auto; try list_eq.
    + with_word (Star false Dot)
        ltac:(fun v => exists lbrace, (star_c :: v ++ [star_c; rbrace])).
      repeat split; try discriminate; auto; try list_eq.
  - do 5 split_seq H.
    apply lang_chr_inv in L, L3. subst.
    apply lang_cls_inv in L1. destruct L1 as (c0 & -> & Hc0).
    apply tag_first_char in Hc0. destruct Hc0 as [Hs Hr].
    apply lang_opt_chr_inv in L0. apply lang_opt_chr_inv in H.
    destruct L0 as [->| ->]; destruct H as [->| ->].
    + with_word (tag_body 2) ltac:(fun v => exists c0, v).
      repeat split; try discriminate; auto; try list_eq.
    + with_word (tag_body 2) ltac:(fun v => exists c0, (v ++ [rbrace])).
      repeat split; try discriminate; auto; try list_eq.
    + with_word (tag_body 2) ltac:(fun v => exists lbrace, (c0 :: v)).
      repeat split; try discriminate; auto; try list_eq.
    + with_word (tag_body 2) ltac:(fun v => exists lbrace, (c0 :: v ++ [rbrace])).
      repeat split; try discriminate; auto; try list_eq.
Qed.

Lemma double_lang_shape w :
  lang doubleBraceRegExp w ->
  exists c inner, w = lbrace :: lbrace :: c :: inner ++ [rbrace; rbrace].
Proof.
  unfold doubleBraceRegExp, seqs. intros H. apply lang_alt_inv in H. destruct H as [H|H].
  - apply lang_group_inv in H. do 6 split_seq H.
    apply lang_chr_inv in L, L0, L1, L3, L4, H. subst.
    with_word (Star false Dot) ltac:(fun v => exists star_c, (v ++ [star_c])).
    list_eq.
  - do 5 split_seq H.
    apply lang_chr_inv in L, L0, L3, H. subst.
    apply lang_cls_inv in L1. destruct L1 as (c0 & -> & _).
    with_word (tag_body 2) ltac:(fun v => exists c0, v). reflexivity.
Qed.

(** A successful search returns a word of the pattern, lying in the
    searched text where the result says. *)
Lemma search_lang re r l m :
  search re l r = Some m ->
  exists p rest,
    r = p ++ match0 m ++ rest /\
    index m = length l + length p /\
    lastIndex m = index m + length (match0 m) /\
    lang re (match0 m).
Proof.
  intros H. apply search_inv in H. destruct H as (p & r' & y & H1 & H2 & H3 & _).
  apply rmatch_lang in H2. destruct H2 as (y' & w & Hr & Hw & Hy).
  injection Hy as ->. exists p, (after y). subst m. unfold result_at.
  cbn [index match0 lastIndex]. rewrite (reach_between_fwd Hr), (reach_endIndex_fwd Hr).
  destruct Hr as [Hr _]. cbn [after] in Hr. unfold endIndex. cbn [before].
  rewrite length_app, length_rev. subst r r'. repeat split; auto; lia.
Qed.

Lemma exec_from_lang re s i m :
  exec_from re s i = Some m ->
  lang re (match0 m) /\
  exists a b, s = a ++ match0 m ++ b /\ length a = index m.
Proof.
  unfold exec_from. destruct (Nat.ltb (length s) i) eqn:E; [discriminate|].
  apply Nat.ltb_ge in E. intros H. apply search_lang in H.
  destruct H as (p & rest & H1 & H2 & H3 & H4). split; [exact H4|].
  exists (firstn i s ++ p), rest. rewrite <- app_assoc, <- H1, firstn_skipn.
  split; [reflexivity|].
  rewrite length_app, length_firstn, Nat.min_l by assumption.
  rewrite length_rev, length_firstn, Nat.min_l in H2 by assumption. lia.
Qed.

Lemma scan_loop_Forall (P : TagSpan -> Prop) docText :
  (forall i m, exec_from smartyRegExp docText i = Some m -> P (span_of m)) ->
  forall fuel i spans,
    scan_loop fuel docText i = Some spans -> Forall P spans.
Proof.
  intros HP. induction fuel as [|fuel IH]; intros i spans; cbn [scan_loop];
    [discriminate|].
  destruct (exec_from smartyRegExp docText i) as [m|] eqn:E.
  - destruct (scan_loop fuel docText (lastIndex m)) as [rest|] eqn:Er; [|discriminate].
    intros H. injection H as <-. constructor; [eapply HP; eassumption|].
    eapply IH; eassumption.
  - intros H. injection H as <-. constructor.
Qed.

Lemma span_of_in docText i m :
  exec_from smartyRegExp docText i = Some m -> span_in docText (span_of m).
Proof.
  intros H. apply smarty_exec_spec in H. destruct H as (H1 & H2 & H3 & H4 & H5).
  unfold span_in, span_of. cbn [startOffset endOffset rawText].
  rewrite <- H4. auto.
Qed.

(** X1. Every span of the scanner is the text of the document between
    its two offsets, lies inside the document, starts with an opening
    brace that is followed by neither white space nor a closing brace,
    and ends with a closing brace. *)
Theorem scanned_span_is_tag_text :
  forall (docText : str) (spans : list TagSpan) (s : TagSpan),
    TagScanner docText = Some spans ->
    In s spans ->
    tag_text (rawText s) /\ span_in docText s.
Proof.
  intros docText spans s Hs Hin.
  assert (H : Forall (fun s => tag_text (rawText s) /\ span_in docText s) spans).
  { eapply scan_loop_Forall; [|exact Hs]. intros i m Hm. split.
    - apply smarty_lang_tag_text. apply (exec_from_lang _ _ _ Hm).
    - eapply span_of_in. exact Hm. }
  rewrite Forall_forall in H. apply H. exact Hin.
Qed.

Lemma scanned_span_is_tag_text_witness :
  tag_text (rawText (Span 9 14 (js "{foo}"))) /\
  span_in (js "{literal}{foo}") (Span 9 14 (js "{foo}")).
Proof.
  apply (@scanned_span_is_tag_text (js "{literal}{foo}")
           [Span 0 9 (js "{literal}"); Span 9 14 (js "{foo}")]).
  - vm_compute. reflexivity.
  - simpl. auto.
Defined.

Lemma tag_text_braces w : tag_text w -> In lbrace w /\ In rbrace w.
Proof.
  intros (c & inner & -> & _). split; [simpl; auto|].
  right. right. apply in_or_app. simpl. auto.
Qed.

(** X2. A text without an opening brace, or without a closing brace,
    has no tag: the scanner returns no span and no decoration is set. *)
Theorem no_brace_no_decoration :
  forall docText : str,
    ~ In lbrace docText \/ ~ In rbrace docText ->
    TagScanner docText = Some [] /\ decorations docText = Some [].
Proof.
  intros docText H.
  assert (E : exec_from smartyRegExp docText 0 = None).
  { destruct (exec_from smartyRegExp docText 0) as [m|] eqn:E; [exfalso|reflexivity].
    apply exec_from_lang in E. destruct E as (Hl & a & b & Hd & _).
    apply smarty_lang_tag_text, tag_text_braces in Hl. destruct Hl as [Hl Hr].
    destruct H as [H|H]; apply H; rewrite Hd; apply in_or_app; right;
      apply in_or_app; left; assumption. }
  unfold TagScanner, decorations. cbn [scan_loop decorate_loop]. rewrite E. auto.
Qed.

Lemma no_brace_no_decoration_witness :
  TagScanner (js "<p>a } b</p>") = Some [] /\
  decorations (js "<p>a } b</p>") = Some [].
Proof.
  apply no_brace_no_decoration. left. vm_compute. intuition discriminate.
Defined.

(** ** The loop does not depend on the bound on its iterations *)

Lemma scan_loop_more_fuel docText : forall fuel fuel' i spans,
  scan_loop fuel docText i = Some spans -> fuel <= fuel' ->
  scan_loop fuel' docText i = Some spans.
Proof.
  induction fuel as [|fuel IH]; intros fuel' i spans; cbn [scan_loop];
    [discriminate|].
  intros H Hle. destruct fuel' as [|fuel']; [lia|]. cbn [scan_loop].
  destruct (exec_from smartyRegExp docText i) as [m|]; [|exact H].
  destruct (scan_loop fuel docText (lastIndex m)) as [rest|] eqn:Er; [|discriminate].
  rewrite (IH fuel' _ _ Er) by lia. exact H.
Qed.

Lemma scan_loop_count docText : forall fuel i spans,
  scan_loop fuel docText i = Some spans ->
  3 * length spans <= length docText - i.
Proof.
  induction fuel as [|fuel IH]; intros i spans; cbn [scan_loop]; [discriminate|].
  destruct (exec_from smartyRegExp docText i) as [m|] eqn:E.
  - destruct (scan_loop fuel docText (lastIndex m)) as [rest|] eqn:Er; [|discriminate].
    intros H. injection H as <-. apply IH in Er.
    apply exec_from_spec in E.
    destruct E as (p & w & r & _ & Hi & Hidx & _ & Hlast & Hmin & Hlen).
    rewrite minlen_smartyRegExp in Hmin. simpl. lia.
  - intros H. injection H as <-. simpl. lia.
Qed.

(** X3. The loop of [updateDecorations] ends on every text: any bound
    above the length of the text gives the same spans and the same
    decorations, and a text holds at most a third of its length in tags. *)
Theorem decorate_loop_ends :
  forall (docText : str) (fuel : nat),
    length docText < fuel ->
    exists spans tags,
      scan_loop fuel docText 0 = Some spans /\
      TagScanner docText = Some spans /\
      decorate_loop fuel docText 0 [] = Some tags /\
      decorations docText = Some tags /\
      updateDecorations fuel (Some (Editor (js "smarty") docText))
        = Some (SetDecorations tags) /\
      3 * length tags <= 3 * length spans /\
      3 * length spans <= length docText.
Proof.
  intros docText fuel Hf.
  destruct (TagScanner_total docText) as (spans & Hs & _).
  assert (Hs' : scan_loop fuel docText 0 = Some spans)
    by (eapply scan_loop_more_fuel; [exact Hs|lia]).
  exists spans, (LiteralRegionFilter docText spans).
  assert (Hd : decorate_loop fuel docText 0 [] = Some (LiteralRegionFilter docText spans))
    by (rewrite decorate_loop_fused, Hs'; reflexivity).
  split; [exact Hs'|]. split; [exact Hs|]. split; [exact Hd|].
  split; [rewrite decorations_filter, Hs; reflexivity|].
  split; [unfold updateDecorations; cbn [document_text languageId];
          change (str_eqb (js "smarty") (js "smarty")) with true; cbn [negb];
          rewrite Hd; reflexivity|].
  split.
  - destruct (filter_fold_subseq docText spans []) as (kept & Hk & Hsub).
    unfold LiteralRegionFilter. rewrite Hk. simpl.
    assert (Hlen : length kept <= length (map decoration_of spans)).
    { clear Hk. induction Hsub; simpl; lia. }
    rewrite length_map in Hlen. lia.
  - apply scan_loop_count in Hs. lia.
Qed.

Lemma decorate_loop_ends_witness :
  exists spans tags,
    scan_loop 100 (js "{if $a}{$b}{/if}") 0 = Some spans /\
    TagScanner (js "{if $a}{$b}{/if}") = Some spans /\
    decorate_loop 100 (js "{if $a}{$b}{/if}") 0 [] = Some tags /\
    decorations (js "{if $a}{$b}{/if}") = Some tags /\
    updateDecorations 100 (Some (Editor (js "smarty") (js "{if $a}{$b}{/if}")))
      = Some (SetDecorations tags) /\
    3 * length tags <= 3 * length spans /\
    3 * length spans <= length (js "{if $a}{$b}{/if}").
Proof.
  apply decorate_loop_ends. vm_compute. lia.
Defined.

(** * Further properties of the literal-region filter *)

Lemma last_some_snoc {A : Type} (l : list A) (x : A) :
  last (map Some (l ++ [x])) None = Some x.
Proof.
  rewrite map_app. simpl. induction (map Some l) as [|y l' IH]; [reflexivity|].
  simpl. destruct (l' ++ [Some x]) eqn:E; [destruct l'; discriminate|exact IH].
Qed.

Lemma inside_literal_snoc docText tags s :
  span_in docText s ->
  inside_literal docText (tags ++ [decoration_of s]) =
  includes (rawText s) literal_open.
Proof.
  intros (_ & _ & Ht). unfold inside_literal. rewrite last_some_snoc.
  unfold decoration_of, getText. cbn [range range_start range_end].
  rewrite <- Ht. reflexivity.
Qed.

(** The one-span lookbehind of the loop is a flag carried along. *)
Lemma filter_fold_flag docText : forall spans tags,
  Forall (span_in docText) spans ->
  fold_left (filter_step docText) spans tags =
  tags ++ flag_filter (inside_literal docText tags) spans.
Proof.
  induction spans as [|s spans IH]; intros tags Hs; cbn [fold_left flag_filter].
  - symmetry. apply app_nil_r.
  - inversion Hs as [|s' spans' Hin Hs']; subst.
    rewrite (IH _ Hs').
    assert (Et : getText docText (MkRange (startOffset s) (endOffset s)) = rawText s)
      by (destruct Hin as (_ & _ & Ht); rewrite Ht; reflexivity).
    unfold filter_step. fold (inside_literal docText tags). rewrite Et.
    destruct (negb (inside_literal docText tags) || includes (rawText s) literal_close).
    + rewrite (inside_literal_snoc tags Hin), <- app_assoc. reflexivity.
    + reflexivity.
Qed.

Lemma scanned_spans_in docText spans :
  TagScanner docText = Some spans -> Forall (span_in docText) spans.
Proof.
  intros Hs. eapply scan_loop_Forall; [|exact Hs].
  intros i m Hm. eapply span_of_in. exact Hm.
Qed.

Lemma decorations_flag docText spans :
  TagScanner docText = Some spans ->
  decorations docText = Some (flag_filter false spans).
Proof.
  intros Hs. rewrite decorations_filter, Hs. unfold LiteralRegionFilter.
  rewrite filter_fold_flag by (apply scanned_spans_in; exact Hs). reflexivity.
Qed.

(** X4. The loop of [updateDecorations], which looks at the text of the
    last decoration it pushed, computes what a filter with one flag
    computes: the flag is raised by a kept span that holds [{literal}],
    a span is kept when the flag is down or when it holds [{/literal}]. *)
Theorem literal_filter_is_flag_filter :
  forall docText : str,
    exists spans,
      TagScanner docText = Some spans /\
      LiteralRegionFilter docText spans = flag_filter false spans /\
      decorations docText = Some (flag_filter false spans).
Proof.
  intros docText. destruct (TagScanner_total docText) as (spans & Hs & _).
  exists spans. split; [exact Hs|]. split; [|apply decorations_flag; exact Hs].
  unfold LiteralRegionFilter.
  rewrite filter_fold_flag by (apply scanned_spans_in; exact Hs). reflexivity.
Qed.

Lemma flag_filter_keeps_all : forall spans,
  Forall (fun s => includes (rawText s) literal_open = false) spans ->
  flag_filter false spans = map decoration_of spans.
Proof.
  induction spans as [|s spans IH]; intros H; [reflexivity|].
  inversion H as [|s' spans' Hs Hrest]; subst.
  cbn [flag_filter map negb orb]. rewrite Hs, (IH Hrest). reflexivity.
Qed.

Lemma flag_filter_app_closed : forall pre b rest,
  Forall (fun s => includes (rawText s) literal_open = false) pre ->
  b = false ->
  flag_filter b (pre ++ rest) = map decoration_of pre ++ flag_filter false rest.
Proof.
  induction pre as [|s pre IH]; intros b rest H ->; [reflexivity|].
  inversion H as [|s' pre' Hs Hrest]; subst.
  cbn [app flag_filter map negb orb]. rewrite Hs, (IH false rest Hrest eq_refl).
  reflexivity.
Qed.

Lemma flag_filter_drops : forall mid rest,
  Forall (fun s => includes (rawText s) literal_close = false) mid ->
  flag_filter true (mid ++ rest) = flag_filter true rest.
Proof.
  induction mid as [|s mid IH]; intros rest H; [reflexivity|].
  inversion H as [|s' mid' Hs Hrest]; subst.
  cbn [app flag_filter negb orb]. rewrite Hs. apply IH. exact Hrest.
Qed.

(** X5. The first literal block of a document: when no span before the
    span [o] holds [{literal}], [o] holds it, no span of [mid] holds
    [{/literal}] and [c] does, every span before [o] is kept, [o] and [c]
    are kept and every span between them is dropped.  When the block is
    not closed, every span after [o] is dropped. *)
Theorem first_literal_block :
  forall (docText : str) (pre mid : list TagSpan) (o : TagSpan),
    Forall (fun s => includes (rawText s) literal_open = false) pre ->
    includes (rawText o) literal_open = true ->
    Forall (fun s => includes (rawText s) literal_close = false) mid ->
    (forall (c : TagSpan) (rest : list TagSpan),
       TagScanner docText = Some (pre ++ o :: mid ++ c :: rest) ->
       includes (rawText c) literal_close = true ->
       decorations docText =
       Some (map decoration_of pre ++
             decoration_of o :: decoration_of c ::
             flag_filter (includes (rawText c) literal_open) rest)) /\
    (TagScanner docText = Some (pre ++ o :: mid) ->
     decorations docText = Some (map decoration_of pre ++ [decoration_of o])).
Proof.
  intros docText pre mid o Hpre Ho Hmid. split.
  - intros c rest Hs Hc. rewrite (decorations_flag _ Hs).
    rewrite (flag_filter_app_closed _ Hpre eq_refl).
    cbn [flag_filter negb orb]. rewrite Ho, (flag_filter_drops _ Hmid).
    cbn [flag_filter negb orb]. rewrite Hc. reflexivity.
  - intros Hs. rewrite (decorations_flag _ Hs).
    rewrite (flag_filter_app_closed _ Hpre eq_refl).
    cbn [flag_filter negb orb]. rewrite Ho.
    rewrite <- (app_nil_r mid), (flag_filter_drops _ Hmid). reflexivity.
Qed.

Lemma first_literal_block_witness :
  decorations (js "{a}{literal}{b}{c}{/literal}{d}") =
    Some (map decoration_of [Span 0 3 (js "{a}")] ++
          decoration_of (Span 3 12 (js "{literal}")) ::
          decoration_of (Span 18 28 (js "{/literal}")) ::
          flag_filter (includes (js "{/literal}") literal_open)
                      [Span 28 31 (js "{d}")]) /\
  decorations (js "{a}{literal}{b}{c}") =
    Some (map decoration_of [Span 0 3 (js "{a}")] ++
          [decoration_of (Span 3 12 (js "{literal}"))]).
Proof.
  split.
  - apply (proj1 (@first_literal_block (js "{a}{literal}{b}{c}{/literal}{d}")
                    [Span 0 3 (js "{a}")]
                    [Span 12 15 (js "{b}"); Span 15 18 (js "{c}")]
                    (Span 3 12 (js "{literal}"))
                    ltac:(repeat constructor) ltac:(reflexivity)
                    ltac:(repeat constructor))
                 (Span 18 28 (js "{/literal}")) [Span 28 31 (js "{d}")]).
    + vm_compute. reflexivity.
    + reflexivity.
  - apply (proj2 (@first_literal_block (js "{a}{literal}{b}{c}")
                    [Span 0 3 (js "{a}")]
                    [Span 12 15 (js "{b}"); Span 15 18 (js "{c}")]
                    (Span 3 12 (js "{literal}"))
                    ltac:(repeat constructor) ltac:(reflexivity)
                    ltac:(repeat constructor))).
    vm_compute. reflexivity.
Defined.

Lemma startsWith_app (s b p : str) :
  startsWith s p = true -> startsWith (s ++ b) p = true.
Proof.
  revert s. induction p as [|c p IH]; intros s; [reflexivity|].
  destruct s as [|d s]; [discriminate|]. cbn [startsWith app].
  intros H. apply andb_true_iff in H. destruct H as [H1 H2].
  rewrite H1, (IH s H2). reflexivity.
Qed.

Lemma includes_app_r (s b p : str) :
  includes s p = true -> includes (s ++ b) p = true.
Proof.
  induction s as [|d s IH]; cbn [includes app].
  - rewrite orb_false_r. intros H. destruct p; [|discriminate].
    destruct b; reflexivity.
  - intros H. apply orb_true_iff in H. destruct H as [H|H].
    + change (d :: s ++ b) with ((d :: s) ++ b). rewrite (startsWith_app (d :: s) b p H).
      reflexivity.
    + rewrite (IH H). apply orb_true_r.
Qed.

Lemma includes_app_l (a s p : str) :
  includes s p = true -> includes (a ++ s) p = true.
Proof.
  induction a as [|d a IH]; intros H; [exact H|].
  cbn [app includes]. rewrite (IH H). apply orb_true_r.
Qed.

Lemma includes_substring (s p : str) (i j : nat) :
  includes (substring s i j) p = true -> includes s p = true.
Proof.
  unfold substring. intros H.
  rewrite <- (firstn_skipn i s). apply includes_app_l.
  rewrite <- (firstn_skipn (j - i) (skipn i s)). apply includes_app_r. exact H.
Qed.

(** X6. In a document that does not hold the text [{literal}] the filter
    removes nothing: every span of the scanner is decorated. *)
Theorem no_literal_keeps_every_span :
  forall docText : str,
    includes docText literal_open = false ->
    exists spans,
      TagScanner docText = Some spans /\
      decorations docText = Some (map decoration_of spans).
Proof.
  intros docText H. destruct (TagScanner_total docText) as (spans & Hs & _).
  exists spans. split; [exact Hs|]. rewrite (decorations_flag _ Hs).
  f_equal. apply flag_filter_keeps_all.
  pose proof (scanned_spans_in _ Hs) as Hin.
  eapply Forall_impl; [|exact Hin]. intros s (_ & _ & Ht).
  destruct (includes (rawText s) literal_open) eqn:E; [|reflexivity].
  rewrite Ht in E. apply includes_substring in E. congruence.
Qed.

Lemma no_literal_keeps_every_span_witness :
  exists spans,
    TagScanner (js "{if $a}{$b}{/if}") = Some spans /\
    decorations (js "{if $a}{$b}{/if}") = Some (map decoration_of spans).
Proof.
  apply no_literal_keeps_every_span. vm_compute. reflexivity.
Defined.

(** * Further properties of the delimiter detector *)

(** X7. The detector answers Double only for a text that holds two
    opening braces, at least one more character and, further on, two
    closing braces. *)
Theorem double_needs_doubled_braces :
  forall docText : str,
    setLanguageConfiguration docText = (js "{{*", js "*}}") ->
    DelimiterDetector docText = Double /\
    exists a c inner b,
      docText = a ++ lbrace :: lbrace :: c :: inner ++ [rbrace; rbrace] ++ b.
Proof.
  intros docText H. split; [unfold DelimiterDetector; rewrite H; reflexivity|].
  unfold setLanguageConfiguration, exec in H.
  destruct (search doubleBraceRegExp [] docText) as [m|] eqn:E; [|discriminate].
  apply search_lang in E. destruct E as (p & rest & Hd & _ & _ & Hl).
  apply double_lang_shape in Hl. destruct Hl as (c & inner & Hw).
  exists p, c, inner, rest. rewrite Hd, Hw. simpl. rewrite <- app_assoc. reflexivity.
Qed.

Lemma double_needs_doubled_braces_witness :
  DelimiterDetector (js "a {{$b}} c") = Double /\
  exists a c inner b,
    js "a {{$b}} c" = a ++ lbrace :: lbrace :: c :: inner ++ [rbrace; rbrace] ++ b.
Proof.
  apply double_needs_doubled_braces. vm_compute. reflexivity.
Defined.

(** ** Steps of the matcher on a known next character *)

Lemma rmatch_seq_eq r1 r2 x (k : cont) :
  rmatch (Seq r1 r2) Fwd x k = rmatch r1 Fwd x (fun y => rmatch r2 Fwd y k).
Proof. reflexivity. Qed.

Lemma rmatch_atom_eq r c l rest cs (k : cont) :
  is_atom r = true -> char_matches r c = true ->
  rmatch r Fwd (MState l (c :: rest) cs) k = k (MState (c :: l) rest cs).
Proof.
  intros Ha Hc. destruct r; try discriminate; cbn [rmatch step after before caps];
    rewrite Hc; reflexivity.
Qed.

Lemma rmatch_chr_eq c l rest cs (k : cont) :
  rmatch (Chr c) Fwd (MState l (c :: rest) cs) k = k (MState (c :: l) rest cs).
Proof. apply rmatch_atom_eq; [reflexivity|apply N.eqb_refl]. Qed.

Lemma rmatch_chr_fail c d l rest cs (k : cont) :
  d <> c -> rmatch (Chr c) Fwd (MState l (d :: rest) cs) k = None.
Proof.
  intros H. cbn [rmatch step after before caps]. unfold char_matches.
  rewrite (proj2 (N.eqb_neq d c) H). reflexivity.
Qed.

Lemma or_else_l a b : a <> None -> or_else a b <> None.
Proof. destruct a; [discriminate|congruence]. Qed.

Lemma or_else_r a b : b tt <> None -> or_else a b <> None.
Proof. destruct a; [discriminate|auto]. Qed.

Lemma endIndex_cons c l rest cs l' rest' cs' :
  l' = l ->
  Nat.eqb (endIndex (MState (c :: l) rest cs)) (endIndex (MState l' rest' cs')) = false.
Proof. intros ->. unfold endIndex. cbn [before length]. apply Nat.eqb_neq. lia. Qed.

(** A lazy [.*?] gives way to its continuation at the latest where the
    continuation succeeds. *)
Lemma lazy_dot_star (k : cont) : forall text l cs n rest,
  Forall (fun d => is_line_terminator d = false) text ->
  length text < n ->
  (forall cs', k (MState (rev text ++ l) rest cs') <> None) ->
  repeat_matcher (fun x' k' => rmatch Dot Fwd (clear_caps (groups_in Dot) x') k')
                 false k n (MState l (text ++ rest) cs) <> None.
Proof.
  induction text as [|d text IH]; intros l cs n rest Ht Hn Hk;
    (destruct n as [|n]; [simpl in Hn; lia|]); cbn [repeat_matcher].
  - apply or_else_l. apply Hk.
  - apply or_else_r. inversion Ht as [|d' text' Hd Ht']; subst.
    unfold clear_caps. cbn [before after caps app].
    rewrite rmatch_atom_eq by (try reflexivity; unfold char_matches; rewrite Hd; reflexivity).
    rewrite endIndex_cons by reflexivity.
    apply IH; [exact Ht'|simpl in Hn; lia|].
    intros cs'. specialize (Hk cs'). simpl in Hk. rewrite <- app_assoc in Hk. exact Hk.
Qed.

Lemma not_brace_char (d : code_unit) :
  d <> lbrace -> d <> rbrace -> char_matches not_brace d = true.
Proof.
  intros H1 H2. unfold not_brace, char_matches, existsb, item_matches.
  rewrite (proj2 (N.eqb_neq d lbrace) H1), (proj2 (N.eqb_neq d rbrace) H2).
  reflexivity.
Qed.

(** The greedy body of a tag reads on as long as it meets no brace, and
    gives way to its continuation where the continuation succeeds. *)
Lemma greedy_tag_body (k : cont) (g : nat) : forall body l cs n rest,
  Forall (fun d => d <> lbrace /\ d <> rbrace) body ->
  length body < n ->
  (forall cs', k (MState (rev body ++ l) rest cs') <> None) ->
  repeat_matcher
    (fun x' k' =>
       rmatch (Group g (Alt not_brace
                            (seqs [Chr lbrace; Star true not_brace; Chr rbrace])))
              Fwd
              (clear_caps
                 (groups_in (Group g (Alt not_brace
                                          (seqs [Chr lbrace; Star true not_brace;
                                                 Chr rbrace]))))
                 x') k')
    true k n (MState l (body ++ rest) cs) <> None.
Proof.
  induction body as [|d body IH]; intros l cs n rest Hb Hn Hk;
    (destruct n as [|n]; [simpl in Hn; lia|]); cbn [repeat_matcher].
  - apply or_else_r. apply Hk.
  - apply or_else_l. inversion Hb as [|d' body' [Hd1 Hd2] Hb']; subst.
    unfold clear_caps. cbn [before after caps app rmatch].
    apply or_else_l.
    fold not_brace.
    rewrite rmatch_atom_eq by (try reflexivity; apply not_brace_char; assumption).
    unfold set_cap. cbn [before after caps].
    rewrite endIndex_cons by reflexivity.
    apply IH; [exact Hb'|simpl in Hn; lia|].
    intros cs'. specialize (Hk cs'). simpl in Hk. rewrite <- app_assoc in Hk. exact Hk.
Qed.

Lemma double_comment_matches l text post :
  Forall (fun d => is_line_terminator d = false) text ->
  rmatch doubleBraceRegExp Fwd
    (MState l (js "{{*" ++ text ++ js "*}}" ++ post) []) (fun y => Some y)
  <> None.
Proof.
  intros Ht. change (js "{{*") with [lbrace; lbrace; star_c].
  change (js "*}}") with [star_c; rbrace; rbrace].
  unfold doubleBraceRegExp. cbn [rmatch]. apply or_else_l.
  cbn [seqs app].
  do 3 (rewrite rmatch_seq_eq, rmatch_chr_eq).
  rewrite rmatch_seq_eq. cbn [rmatch avail after].
  apply lazy_dot_star; [exact Ht|rewrite length_app; simpl; lia|].
  intros cs'. cbn. discriminate.
Qed.

Lemma double_tag_matches l c body post :
  is_space c = false -> c <> rbrace ->
  Forall (fun d => d <> lbrace /\ d <> rbrace) body ->
  rmatch doubleBraceRegExp Fwd
    (MState l (js "{{" ++ c :: body ++ js "}}" ++ post) []) (fun y => Some y)
  <> None.
Proof.
  intros Hs Hc Hb. change (js "{{") with [lbrace; lbrace].
  change (js "}}") with [rbrace; rbrace].
  unfold doubleBraceRegExp. cbn [rmatch]. apply or_else_r.
  cbn [seqs app].
  do 2 (rewrite rmatch_seq_eq, rmatch_chr_eq).
  rewrite rmatch_seq_eq, rmatch_atom_eq; [|reflexivity|].
  - rewrite rmatch_seq_eq. unfold tag_body. cbn [rmatch avail after].
    apply greedy_tag_body; [exact Hb|rewrite length_app; simpl; lia|].
    intros cs'. cbn. discriminate.
  - unfold char_matches, existsb, item_matches. rewrite Hs.
    rewrite (proj2 (N.eqb_neq c rbrace) Hc).
    destruct (N.eqb_spec c newline) as [->|_]; [discriminate Hs|reflexivity].
Qed.

(** X8. A one-line comment in doubled braces, or a tag in doubled braces
    whose first character is neither white space nor a closing brace and
    that holds no further brace, makes the document Double wherever it
    stands in the text. *)
Theorem doubled_tag_means_double :
  (forall pre text post : str,
     Forall (fun d => is_line_terminator d = false) text ->
     setLanguageConfiguration (pre ++ js "{{*" ++ text ++ js "*}}" ++ post)
       = (js "{{*", js "*}}")) /\
  (forall (pre body post : str) (c : code_unit),
     is_space c = false -> c <> rbrace ->
     Forall (fun d => d <> lbrace /\ d <> rbrace) body ->
     setLanguageConfiguration (pre ++ js "{{" ++ c :: body ++ js "}}" ++ post)
       = (js "{{*", js "*}}")).
Proof.
  assert (H : forall pre r,
    rmatch doubleBraceRegExp Fwd (MState (rev pre ++ []) r []) (fun y => Some y) <> None ->
    setLanguageConfiguration (pre ++ r) = (js "{{*", js "*}}")).
  { intros pre r Hm. unfold setLanguageConfiguration, exec.
    destruct (search doubleBraceRegExp [] (pre ++ r)) eqn:E; [reflexivity|].
    exfalso. revert E. apply search_found. exact Hm. }
  split.
  - intros pre text post Ht. apply H. apply double_comment_matches. exact Ht.
  - intros pre body post c Hs Hc Hb. apply H. apply double_tag_matches; assumption.
Qed.

Lemma doubled_tag_means_double_witness :
  setLanguageConfiguration
    (js "<p>" ++ js "{{*" ++ js " note " ++ js "*}}" ++ js "</p>")
    = (js "{{*", js "*}}") /\
  setLanguageConfiguration
    (js "<p>" ++ js "{{" ++ 36%N :: js "name|upper" ++ js "}}" ++ js "</p>")
    = (js "{{*", js "*}}").
Proof.
  split.
  - apply (proj1 doubled_tag_means_double).
    vm_compute. repeat constructor.
  - apply (proj2 doubled_tag_means_double).
    + reflexivity.
    + discriminate.
    + vm_compute. repeat constructor; discriminate.
Defined.

(** * The scanner on flat templates *)

Lemma tag_body_prefix g : forall r w,
  lang r w ->
  r = tag_body g ->
  forall body t t',
    brace_free body ->
    w ++ rbrace :: t = body ++ rbrace :: t' ->
    w = body /\ t = t'.
Proof.
  unfold tag_body, seqs.
  induction 1 as [|r0 c0 Ha Hc| | | | |g0 r0 w1 w2 H1 _ H2 IH| | |]; intros Hr;
    try discriminate; try (subst r0; discriminate Ha).
  - (* no iteration *)
    intros body t t' Hb E. destruct body as [|d body]; simpl in E.
    + injection E as <-. auto.
    + injection E as <- _. inversion Hb as [|? ? [_ Hd] _]. congruence.
  - (* one iteration, then the rest *)
    injection Hr as -> ->. intros body t t' Hb E.
    apply lang_group_inv, lang_alt_inv in H1. destruct H1 as [H1|H1].
    + apply lang_cls_inv in H1. destruct H1 as (d & -> & Hd).
      destruct body as [|d' body]; simpl in E.
      * injection E as -> _. discriminate Hd.
      * injection E as <- E. inversion Hb as [|? ? _ Hb']; subst.
        destruct (IH eq_refl _ _ _ Hb' E) as [-> ->]. auto.
    + apply lang_seq_inv in H1. destruct H1 as (u1 & u2 & -> & Hu & _).
      apply lang_chr_inv in Hu. subst u1. simpl in E.
      destruct body as [|d' body]; simpl in E; [discriminate|].
      injection E as <- _. inversion Hb as [|? ? [Hd _] _]. congruence.
Qed.

(** No tag starts on a character that is not an opening brace. *)
Lemma smarty_needs_lbrace l d r :
  d <> lbrace ->
  rmatch smartyRegExp Fwd (MState l (d :: r) []) (fun y => Some y) = None.
Proof.
  intros Hd.
  destruct (rmatch smartyRegExp Fwd (MState l (d :: r) []) (fun y => Some y))
    as [y|] eqn:E; [exfalso|reflexivity].
  apply rmatch_lang in E. destruct E as (y' & w & [Hr _] & Hl & _).
  apply smarty_lang_tag_text in Hl. destruct Hl as (c & inner & -> & _).
  cbn [after] in Hr. injection Hr as -> _. congruence.
Qed.

Lemma smarty_none_at_end l :
  rmatch smartyRegExp Fwd (MState l [] []) (fun y => Some y) = None.
Proof.
  destruct (rmatch smartyRegExp Fwd (MState l [] []) (fun y => Some y))
    as [y|] eqn:E; [exfalso|reflexivity].
  apply rmatch_lang in E. destruct E as (y' & w & [Hr _] & Hl & _).
  apply smarty_lang_tag_text in Hl. destruct Hl as (c & inner & -> & _).
  cbn [after] in Hr. discriminate.
Qed.

Lemma search_brace_free : forall r l,
  Forall (fun d => d <> lbrace) r ->
  search smartyRegExp l r = None.
Proof.
  induction r as [|d r IH]; intros l H; cbn [search].
  - rewrite smarty_none_at_end. reflexivity.
  - inversion H as [|? ? Hd Hr]; subst.
    rewrite (smarty_needs_lbrace l r Hd). apply IH. exact Hr.
Qed.

(** A simple tag is matched whole, and nothing more. *)
Lemma simple_tag_match l c body rest :
  is_space c = false -> c <> lbrace -> c <> rbrace -> c <> star_c ->
  brace_free body ->
  (forall t, rest <> rbrace :: t) ->
  exists y,
    rmatch smartyRegExp Fwd (MState l (simple_tag c body ++ rest) [])
           (fun y => Some y) = Some y /\
    after y = rest /\
    before y = rev (simple_tag c body) ++ l.
Proof.
  intros Hs Hl Hr Hstar Hb Hrest.
  assert (Hsome :
    rmatch smartyRegExp Fwd (MState l (simple_tag c body ++ rest) [])
           (fun y => Some y) <> None).
  { unfold smartyRegExp, simple_tag. cbn [rmatch]. apply or_else_r.
    cbn [seqs app].
    rewrite rmatch_seq_eq, rmatch_chr_eq, rmatch_seq_eq.
    unfold Opt at 1. cbn [rmatch]. apply or_else_r.
    cbn [step after before caps].
    assert (Hc : char_matches (Cls true [CChar rbrace; CChar newline; CSpace]) c = true).
    { unfold char_matches, existsb, item_matches. rewrite Hs.
      rewrite (proj2 (N.eqb_neq c rbrace) Hr).
      destruct (N.eqb_spec c newline) as [->|_]; [discriminate Hs|reflexivity]. }
    rewrite Hc. unfold tag_body. cbn [rmatch avail after seqs].
    rewrite <- app_assoc.
    apply greedy_tag_body; [exact Hb|rewrite length_app; simpl; lia|].
    intros cs'. cbn [app step after before caps]. unfold char_matches.
    rewrite N.eqb_refl. apply or_else_r. discriminate. }
  destruct (rmatch smartyRegExp Fwd (MState l (simple_tag c body ++ rest) [])
              (fun y => Some y)) as [y|] eqn:E; [clear Hsome|congruence].
  exists y. split; [reflexivity|].
  apply rmatch_lang in E. destruct E as (y' & w & [Hra Hrb] & Hw & Hy).
  injection Hy as ->. cbn [after before] in Hra, Hrb.
  assert (Ew : w = simple_tag c body /\ after y = rest).
  { unfold smartyRegExp, seqs in Hw. apply lang_alt_inv in Hw.
    unfold simple_tag in *. destruct Hw as [Hw|Hw].
    - exfalso. apply lang_group_inv in Hw. do 2 split_seq Hw.
      apply lang_chr_inv in L. subst. apply lang_opt_chr_inv in L0.
      apply lang_seq_inv in Hw. destruct Hw as (u1 & u2 & -> & Hu & _).
      apply lang_chr_inv in Hu. subst u1.
      destruct L0 as [->| ->]; simpl in Hra; injection Hra as Hc _; congruence.
    - do 5 split_seq Hw.
      apply lang_chr_inv in L, L3. subst.
      apply lang_cls_inv in L1. destruct L1 as (c0 & -> & _).
      apply lang_opt_chr_inv in L0. apply lang_opt_chr_inv in Hw.
      destruct L0 as [->| ->]; simpl in Hra; [|injection Hra as Hc _; congruence].
      injection Hra as <- Hra. repeat rewrite <- app_assoc in Hra. simpl in Hra.
      match goal with
      | L : lang (tag_body 2) ?v |- _ =>
          pose proof (@tag_body_prefix 2 _ _ L eq_refl body _ _ Hb (eq_sym Hra)) as Et
      end.
      destruct Et as [-> Et].
      destruct Hw as [->| ->]; simpl in Et.
      + split; [list_eq|congruence].
      + exfalso. eapply Hrest. symmetry. exact Et. }
  destruct Ew as [-> Ea]. split; [exact Ea|exact Hrb].
Qed.

Lemma exec_from_app re (done rem : str) :
  exec_from re (done ++ rem) (length done) = search re (rev done) rem.
Proof.
  unfold exec_from.
  rewrite (proj2 (Nat.ltb_ge _ _)) by (rewrite length_app; lia).
  rewrite firstn_app, Nat.sub_diag, firstn_all, skipn_app, Nat.sub_diag, skipn_all.
  simpl. rewrite app_nil_r. reflexivity.
Qed.

Lemma flat_text_not_rbrace ps tail :
  Forall flat_part_ok ps -> brace_free tail ->
  forall t, flat_text ps tail <> rbrace :: t.
Proof.
  intros Hps Htail t. destruct ps as [|p ps]; cbn [flat_text].
  - destruct tail as [|d tail]; [discriminate|].
    inversion Htail as [|? ? [_ Hd] _]. congruence.
  - inversion Hps as [|? ? (Hg & _) _]; subst.
    destruct (gap p) as [|d g]; [discriminate|].
    inversion Hg as [|? ? [_ Hd] _]. simpl. congruence.
Qed.

Lemma flat_text_length ps tail : length ps <= length (flat_text ps tail).
Proof.
  induction ps as [|p ps IH]; cbn [flat_text length]; [lia|].
  unfold simple_tag. rewrite !length_app. simpl. lia.
Qed.

(** The first tag of a flat template is the first match. *)
Lemma search_first_tag l g c body rest :
  brace_free g ->
  is_space c = false -> c <> lbrace -> c <> rbrace -> c <> star_c ->
  brace_free body ->
  (forall t, rest <> rbrace :: t) ->
  exists m,
    search smartyRegExp l (g ++ simple_tag c body ++ rest) = Some m /\
    index m = length l + length g /\
    match0 m = simple_tag c body /\
    lastIndex m = length l + length g + length (simple_tag c body).
Proof.
  intros Hg Hs Hl Hr Hstar Hb Hrest.
  destruct (@simple_tag_match (rev g ++ l) c body rest Hs Hl Hr Hstar Hb Hrest)
    as (y & Hy & Ha & Hbf).
  exists (result_at (rev g ++ l) (simple_tag c body ++ rest) y).
  split.
  - apply search_at; [|exact Hy].
    intros p1 d p2 E. apply smarty_needs_lbrace.
    unfold brace_free in Hg. rewrite Forall_forall in Hg.
    apply (Hg d). rewrite E. apply in_or_app. simpl. auto.
  - unfold result_at. cbn [index match0 lastIndex between after].
    unfold endIndex. rewrite Ha, Hbf, !length_app, !length_rev.
    replace (length (simple_tag c body) + length rest - length rest)
      with (length (simple_tag c body) + 0) by lia.
    rewrite firstn_app_2. simpl. rewrite app_nil_r.
    repeat split; lia.
Qed.

Lemma scan_flat tail : forall ps done fuel,
  Forall flat_part_ok ps -> brace_free tail ->
  length ps < fuel ->
  scan_loop fuel (done ++ flat_text ps tail) (length done)
  = Some (flat_spans (length done) ps).
Proof.
  induction ps as [|p ps IH]; intros done fuel Hps Htail Hf;
    (destruct fuel as [|fuel]; [simpl in Hf; lia|]);
    cbn [scan_loop flat_text flat_spans]; rewrite exec_from_app.
  - rewrite search_brace_free; [reflexivity|].
    eapply Forall_impl; [|exact Htail]. simpl. tauto.
  - inversion Hps as [|? ? (Hg & Hb & Hs & Hl & Hr & Hstar) Hps']; subst.
    destruct (@search_first_tag (rev done) (gap p) (tag_first p) (tag_rest p)
                (flat_text ps tail) Hg Hs Hl Hr Hstar Hb
                (flat_text_not_rbrace Hps' Htail))
      as (m & Hm & Hi & Hw & Hlast).
    rewrite Hm. rewrite length_rev in Hi, Hlast.
    assert (Ed : done ++ gap p ++ simple_tag (tag_first p) (tag_rest p) ++ flat_text ps tail
                 = (done ++ gap p ++ simple_tag (tag_first p) (tag_rest p))
                   ++ flat_text ps tail)
      by (rewrite <- !app_assoc; reflexivity).
    assert (El : lastIndex m
                 = length (done ++ gap p ++ simple_tag (tag_first p) (tag_rest p)))
      by (rewrite !length_app; lia).
    rewrite Ed, El, (IH _ fuel Hps' Htail) by (simpl in Hf; lia).
    unfold span_of. rewrite Hw, Hi, !length_app.
    do 2 f_equal. f_equal. lia.
Qed.

(** X9. On a flat template, a text made of tags that hold no inner
    brace and start with a character that is neither white space, a
    brace nor a star, set in text without braces, the scanner returns
    exactly these tags, each with the offsets it has in the text. *)
Theorem flat_template_spans :
  forall (parts : list flat_part) (tail : str),
    Forall flat_part_ok parts -> brace_free tail ->
    TagScanner (flat_text parts tail) = Some (flat_spans 0 parts) /\
    decorations (flat_text parts tail) = Some (flag_filter false (flat_spans 0 parts)).
Proof.
  intros parts tail Hps Htail.
  assert (Hs : TagScanner (flat_text parts tail) = Some (flat_spans 0 parts)).
  { unfold TagScanner.
    apply (@scan_flat tail parts [] (S (length (flat_text parts tail))) Hps Htail).
    pose proof (flat_text_length parts tail). lia. }
  split; [exact Hs|]. apply decorations_flag. exact Hs.
Qed.

Lemma flat_template_spans_witness :
  TagScanner (js "<p>{if $a}yes{/if}</p>")
    = Some [Span 3 10 (js "{if $a}"); Span 13 18 (js "{/if}")] /\
  decorations (js "<p>{if $a}yes{/if}</p>")
    = Some [Decoration (MkRange 3 10); Decoration (MkRange 13 18)].
Proof.
  apply (@flat_template_spans
           [FlatPart (js "<p>") 105%N (js "f $a"); FlatPart (js "yes") 47%N (js "if")]
           (js "</p>")).
  - repeat constructor; try discriminate; vm_compute; repeat constructor; discriminate.
  - vm_compute. repeat constructor; discriminate.
Defined.

(** * Further properties of the path completion resolver *)

(** ** Right-to-left matching reads words of the pattern too *)

Lemma lang_star_snoc g r w1 : forall w2,
  lang (Star g r) w2 -> lang r w1 -> lang (Star g r) (w2 ++ w1).
Proof.
  intros w2 H. remember (Star g r) as s eqn:Es. revert Es.
  induction H as [|r0 c0 Ha Hc| | | |g0 r0|g0 r0 u1 u2 H1 _ H2 IH| | |];
    intros Es H1'; try discriminate; try (subst r0; discriminate Ha).
  - injection Es as -> ->. simpl. rewrite <- (app_nil_r w1).
    constructor; [exact H1'|constructor].
  - injection Es as -> ->. rewrite <- app_assoc. constructor; [exact H1|].
    apply IH; [reflexivity|exact H1'].
Qed.

Lemma repeat_matcher_lang_bwd g r body (k : cont) n :
  (forall x (k' : cont) z, body x k' = Some z ->
     exists y w, reach Bwd x y (rev w) /\ lang r w /\ k' y = Some z) ->
  forall x z, repeat_matcher body g k n x = Some z ->
    exists y w, reach Bwd x y (rev w) /\ lang (Star g r) w /\ k y = Some z.
Proof.
  intros Hb. induction n as [|n IH]; intros x z; cbn [repeat_matcher]; [discriminate|].
  assert (Hiter : forall z',
    body x (fun y => if Nat.eqb (endIndex y) (endIndex x) then None
                     else repeat_matcher body g k n y) = Some z' ->
    exists y w, reach Bwd x y (rev w) /\ lang (Star g r) w /\ k y = Some z').
  { intros z' H. apply Hb in H. destruct H as (y & w & Hr & Hw & Hk).
    destruct (Nat.eqb (endIndex y) (endIndex x)); [discriminate|].
    apply IH in Hk. destruct Hk as (y' & w' & Hr' & Hw' & Hk').
    exists y', (w' ++ w). rewrite rev_app_distr.
    split; [eapply reach_trans; eauto|].
    split; [apply lang_star_snoc; assumption|assumption]. }
  assert (Hk : forall z', k x = Some z' ->
    exists y w, reach Bwd x y (rev w) /\ lang (Star g r) w /\ k y = Some z').
  { intros z' H. exists x, []. split; [apply reach_refl|]. split; [constructor|assumption]. }
  destruct g; unfold or_else.
  - destruct (body x _) eqn:E; [apply Hiter|apply Hk].
  - destruct (k x) eqn:E; [apply Hk|apply Hiter].
Qed.

Lemma rmatch_lang_bwd r : forall x (k : cont) z,
  rmatch r Bwd x k = Some z ->
  exists y w, reach Bwd x y (rev w) /\ lang r w /\ k y = Some z.
Proof.
  assert (Hchar : forall r x (k : cont) z,
    is_atom r = true ->
    match step Bwd x with
    | Some (c, y) => if char_matches r c then k y else None
    | None => None
    end = Some z ->
    exists y w, reach Bwd x y (rev w) /\ lang r w /\ k y = Some z).
  { intros r0 x k z Ha H. destruct (step Bwd x) as [[c y]|] eqn:E; [|discriminate].
    destruct (char_matches r0 c) eqn:Ec; [|discriminate].
    exists y, [c]. split; [eapply reach_step; eauto|].
    split; [constructor; assumption|assumption]. }
  induction r as [|c| |neg items|r1 IH1 r2 IH2|r1 IH1 r2 IH2|g r1 IH1|n r1 IH1|r1 IH1|];
    intros x k z H; cbn [rmatch] in H.
  - exists x, []. split; [apply reach_refl|]. split; [constructor|assumption].
  - apply (Hchar (Chr c)); auto.
  - apply (Hchar Dot); auto.
  - apply (Hchar (Cls neg items)); auto.
  - apply IH2 in H. destruct H as (y & w & Hr & Hw & H).
    apply IH1 in H. destruct H as (y' & w' & Hr' & Hw' & H).
    exists y', (w' ++ w). rewrite rev_app_distr.
    split; [eapply reach_trans; eauto|].
    split; [constructor; assumption|assumption].
  - unfold or_else in H. destruct (rmatch r1 Bwd x k) eqn:E.
    + injection H as <-. apply IH1 in E. destruct E as (y & w & Hr & Hw & E).
      exists y, w. split; [assumption|]. split; [apply lang_alt_l; assumption|assumption].
    + apply IH2 in H. destruct H as (y & w & Hr & Hw & E').
      exists y, w. split; [assumption|]. split; [apply lang_alt_r; assumption|assumption].
  - eapply repeat_matcher_lang_bwd in H; [exact H|].
    intros x' k' z' H'. apply IH1 in H'. destruct H' as (y & w & Hr & Hw & H').
    exists y, w. split; [exact Hr|]. split; assumption.
  - apply IH1 in H. destruct H as (y & w & Hr & Hw & H).
    exists (set_cap n (between Bwd x y) y), w.
    split; [exact Hr|]. split; [constructor; assumption|assumption].
  - destruct (rmatch r1 Bwd x (fun y => Some y)) eqn:E; [|discriminate].
    exists (with_caps x (caps m)), [].
    split; [simpl; auto|]. split; [constructor|assumption].
  - destruct (after x) eqn:E; [|discriminate].
    exists x, []. split; [apply reach_refl|]. split; [constructor|assumption].
Qed.

Lemma lang_lit_inv : forall s w, lang (lit s) w -> w = s.
Proof.
  induction s as [|c s IH]; intros w H; cbn [lit] in H.
  - apply lang_eps_inv. exact H.
  - destruct s as [|c' s'].
    + apply lang_chr_inv. exact H.
    + apply lang_seq_inv in H. destruct H as (w1 & w2 & -> & H1 & H2).
      apply lang_chr_inv in H1. subst w1. rewrite (IH _ H2). reflexivity.
Qed.

Lemma lang_star_atom g a : forall r w,
  lang r w -> r = Star g a -> is_atom a = true ->
  Forall (fun c => char_matches a c = true) w.
Proof.
  induction 1 as [|r0 c0 Ha Hc| | | |g0 r0|g0 r0 u1 u2 H1 _ H2 IH| | |];
    intros Es Hatom; try discriminate; try (subst r0; discriminate Ha).
  - constructor.
  - injection Es as -> ->. apply Forall_app. split; [|apply IH; auto].
    inversion H1; subst; try discriminate. constructor; [assumption|constructor].
Qed.

Lemma lang_plus_atom a w :
  is_atom a = true -> lang (Plus a) w ->
  w <> [] /\ Forall (fun c => char_matches a c = true) w.
Proof.
  intros Ha H. unfold Plus in H. apply lang_seq_inv in H.
  destruct H as (w1 & w2 & -> & H1 & H2).
  pose proof (lang_star_atom H2 eq_refl Ha) as Hs.
  inversion H1; subst; try discriminate.
  split; [discriminate|]. constructor; assumption.
Qed.

(** ** When the completion is triggered *)

Lemma space_class_char (c : code_unit) :
  char_matches (Cls false [CSpace]) c = true <-> is_space c = true.
Proof.
  unfold char_matches, existsb, item_matches. rewrite orb_false_r.
  destruct (is_space c); simpl; tauto.
Qed.

Lemma fragment_class_char (c : code_unit) :
  char_matches (Cls true [CChar squote; CChar dquote; CSpace]) c = true <->
  c <> squote /\ c <> dquote /\ is_space c = false.
Proof.
  unfold char_matches, existsb, item_matches. rewrite orb_false_r.
  destruct (N.eqb_spec c squote), (N.eqb_spec c dquote), (is_space c); simpl;
    split; try discriminate; try tauto; intros (H1 & H2 & H3); congruence.
Qed.

Lemma quote_class_char (c : code_unit) :
  char_matches (Cls false [CChar squote; CChar dquote]) c = true <->
  c = squote \/ c = dquote.
Proof.
  unfold char_matches, existsb, item_matches. rewrite orb_false_r.
  destruct (N.eqb_spec c squote), (N.eqb_spec c dquote); simpl;
    split; try discriminate; try tauto; intros [H|H]; congruence.
Qed.

(** What a match of the trigger at the current position has read. *)
Lemma regex_start_sound l r y :
  rmatch regex_start Fwd (MState l r []) (fun y => Some y) = Some y ->
  exists marker l0 q frag,
    l = rev marker ++ l0 /\ trigger_marker marker /\
    r = q :: frag /\ (q = squote \/ q = dquote) /\ fragment_text frag /\
    get_cap (caps y) 1 = Some frag.
Proof.
  unfold regex_start, seqs.
  set (lb := Alt _ _). set (frag_re := Plus _).
  cbn [rmatch]. intros H.
  destruct (rmatch lb Bwd _ _) as [y0|] eqn:Elb; [|discriminate].
  apply rmatch_lang_bwd in Elb. destruct Elb as (y0' & w & [Hl _] & Hw & _).
  cbn [before] in Hl.
  unfold step, with_caps in H. cbn [after before caps] in H.
  destruct r as [|q frag]; [discriminate|].
  destruct (char_matches _ q) eqn:Eq; [|discriminate].
  apply quote_class_char in Eq.
  apply rmatch_lang in H. destruct H as (y1 & w' & [Hr _] & Hw' & H).
  cbn [set_cap after] in H. destruct (after y1) eqn:Ea; [|discriminate].
  injection H as <-. cbn [after] in Hr. rewrite app_nil_r in Hr. subst w'.
  exists w, (before y0'), q, frag.
  split; [exact Hl|]. split; [|split; [reflexivity|split; [exact Eq|split]]].
  - subst lb. apply lang_alt_inv in Hw. destruct Hw as [Hw|Hw].
    + right. apply lang_seq_inv in Hw. destruct Hw as (w1 & w2 & -> & H1 & H2).
      apply lang_lit_inv in H1. subst w1.
      apply lang_plus_atom in H2; [|reflexivity]. destruct H2 as [Hne Hsp].
      exists w2. split; [exact Hne|]. split; [|reflexivity].
      eapply Forall_impl; [|exact Hsp]. intros c. apply space_class_char.
    + left. apply lang_lit_inv. exact Hw.
  - subst frag_re. apply lang_plus_atom in Hw'; [|reflexivity].
    destruct Hw' as [Hne Hf]. split; [exact Hne|].
    eapply Forall_impl; [|exact Hf]. intros c. apply fragment_class_char.
  - cbn [set_cap caps get_cap Nat.eqb between after].
    rewrite Ea. cbn [length]. rewrite Nat.sub_0_r, firstn_all. reflexivity.
Qed.

Lemma lit_file_bwd l r cs (k : cont) :
  rmatch (lit (js "file=")) Bwd (MState (rev (js "file=") ++ l) r cs) k
  = k (MState l (js "file=" ++ r) cs).
Proof. reflexivity. Qed.

Lemma lit_include_bwd l r cs (k : cont) :
  rmatch (lit (js "{include")) Bwd (MState (rev (js "{include") ++ l) r cs) k
  = k (MState l (js "{include" ++ r) cs).
Proof. reflexivity. Qed.

(** A greedy repetition read from right to left gives way to its
    continuation at the latest where the accepted characters end. *)
Lemma greedy_atom_star_bwd (a : regex) (k : cont) :
  is_atom a = true ->
  forall ws l r cs n,
    Forall (fun c => char_matches a c = true) ws ->
    length ws < n ->
    (forall r' cs', k (MState l r' cs') <> None) ->
    repeat_matcher (fun x' k' => rmatch a Bwd (clear_caps (groups_in a) x') k')
                   true k n (MState (ws ++ l) r cs) <> None.
Proof.
  intros Ha. induction ws as [|c ws IH]; intros l r cs n Hw Hn Hk;
    (destruct n as [|n]; [simpl in Hn; lia|]); cbn [repeat_matcher].
  - apply or_else_r. apply Hk.
  - apply or_else_l. inversion Hw as [|c' ws' Hc Hw']; subst.
    assert (E : forall k' : cont,
      rmatch a Bwd (clear_caps (groups_in a) (MState ((c :: ws) ++ l) r cs)) k'
      = k' (MState (ws ++ l) (c :: r)
                   (caps (clear_caps (groups_in a) (MState ((c :: ws) ++ l) r cs))))).
    { intros k'. destruct a; try discriminate;
        cbn [rmatch step clear_caps before after caps app]; rewrite Hc; reflexivity. }
    rewrite E. unfold endIndex. cbn [before app length].
    rewrite (proj2 (Nat.eqb_neq _ _)) by lia.
    apply IH; [exact Hw'|simpl in Hn; lia|exact Hk].
Qed.

Lemma lookbehind_complete marker l r cs :
  trigger_marker marker ->
  rmatch (Alt (Seq (lit (js "{include")) (Plus (Cls false [CSpace])))
              (lit (js "file=")))
         Bwd (MState (rev marker ++ l) r cs) (fun y => Some y) <> None.
Proof.
  intros [->|(ws & Hne & Hws & ->)]; cbn [rmatch].
  - apply or_else_r. rewrite lit_file_bwd. discriminate.
  - apply or_else_l. unfold Plus. cbn [rmatch avail before].
    destruct ws as [|w1 ws]; [congruence|].
    inversion Hws as [|? ? H1 Hrest]; subst.
    rewrite rev_app_distr. cbn [rev]. rewrite <- !app_assoc. cbn [app].
    apply (@greedy_atom_star_bwd (Cls false [CSpace])).
    + reflexivity.
    + apply Forall_rev. eapply Forall_impl; [|exact Hrest].
      intros c. apply space_class_char.
    + rewrite !length_app. simpl. lia.
    + intros r' cs'. cbn [step before after caps].
      rewrite (proj2 (space_class_char w1) H1).
      rewrite lit_include_bwd. discriminate.
Qed.

Lemma regex_start_complete marker l q frag :
  trigger_marker marker -> (q = squote \/ q = dquote) -> fragment_text frag ->
  rmatch regex_start Fwd (MState (rev marker ++ l) (q :: frag) []) (fun y => Some y)
  <> None.
Proof.
  intros Hm Hq (Hne & Hf). unfold regex_start, seqs.
  pose proof (@lookbehind_complete marker l (q :: frag) [] Hm) as Hlb.
  set (lb := Alt _ _) in *. cbn [rmatch].
  destruct (rmatch lb Bwd _ _) as [y0|]; [clear Hlb|congruence].
  unfold with_caps. cbn [step before after caps].
  rewrite (proj2 (quote_class_char q) Hq).
  destruct frag as [|c frag]; [congruence|].
  inversion Hf as [|? ? Hc Hf']; subst.
  unfold Plus. cbn [rmatch step before after caps].
  rewrite (proj2 (fragment_class_char c) Hc). cbn [avail after].
  apply (@greedy_atom_star_end (Cls true [CChar squote; CChar dquote; CSpace])).
  - reflexivity.
  - intros x Hx. cbn [set_cap after]. rewrite Hx. discriminate.
  - eapply Forall_impl; [|exact Hf']. intros d. apply fragment_class_char.
  - lia.
Qed.

(** The trigger matches exactly a line that ends with a marker, a
    quote and a path fragment; the match starts at the quote and
    captures the fragment. *)
Lemma regex_start_iff (t frag : str) (i : nat) :
  (exists m, exec regex_start t = Some m /\ group m 1 = frag /\ index m = i) <->
  (exists pre marker q,
     t = pre ++ marker ++ q :: frag /\ trigger_marker marker /\
     (q = squote \/ q = dquote) /\ fragment_text frag /\
     i = length (pre ++ marker)).
Proof.
  split.
  - intros (m & Hm & Hg & Hi). unfold exec in Hm. apply search_inv in Hm.
    destruct Hm as (p & r' & y & Ht & Hy & Hres & _).
    apply regex_start_sound in Hy.
    destruct Hy as (marker & l0 & q & frag' & Hl & Hmk & Hr & Hq & Hf & Hc).
    rewrite app_nil_r in Hl.
    assert (Hp : p = rev l0 ++ marker).
    { rewrite <- (rev_involutive p), Hl, rev_app_distr, rev_involutive. reflexivity. }
    subst m. unfold group, result_at in Hg. cbn [groups] in Hg. rewrite Hc in Hg.
    unfold result_at in Hi. cbn [index] in Hi.
    exists (rev l0), marker, q. subst frag' r' t.
    rewrite <- Hi, app_nil_r, length_rev, <- Hp.
    split; [rewrite Hp at 1; rewrite <- app_assoc; reflexivity|auto].
  - intros (pre & marker & q & -> & Hmk & Hq & Hf & ->).
    pose proof (@regex_start_complete marker (rev pre ++ []) q frag Hmk Hq Hf) as Hc.
    destruct (rmatch regex_start Fwd (MState (rev marker ++ rev pre ++ []) (q :: frag) [])
                (fun y => Some y)) as [y|] eqn:Ey; [clear Hc|congruence].
    exists (result_at (rev (pre ++ marker) ++ []) (q :: frag) y).
    split; [|split].
    + unfold exec. rewrite app_assoc. apply search_at.
      * intros p1 d p2 Ep.
        destruct (rmatch regex_start Fwd (MState (rev p1 ++ []) (d :: p2 ++ q :: frag) [])
                    (fun y => Some y)) as [y'|] eqn:E'; [exfalso|reflexivity].
        apply regex_start_sound in E'.
        destruct E' as (_ & _ & q' & frag' & _ & _ & Hr & _ & (_ & Hf') & _).
        injection Hr as _ <-. rewrite Forall_forall in Hf'.
        destruct (Hf' q) as (H1 & H2 & _); [apply in_or_app; simpl; auto|].
        destruct Hq; congruence.
      * rewrite rev_app_distr, <- app_assoc. exact Ey.
    + apply regex_start_sound in Ey.
      destruct Ey as (_ & _ & q' & frag' & _ & _ & Hr & _ & _ & Hcap).
      injection Hr as _ <-. unfold group, result_at. cbn [groups].
      rewrite Hcap. reflexivity.
    + unfold result_at. cbn [index]. rewrite app_nil_r, length_rev. reflexivity.
Qed.

(** X10. The resolver asks the host for files exactly when the line up
    to the cursor ends with [file=] or with [{include] and white space,
    then a quote, then a fragment without quote or white space that
    starts with [./]; the glob it hands over is built from the directory
    of that fragment. *)
Theorem completion_trigger :
  forall (h : Host) (document : TextDocument) (position : Position) (glob : str),
    enumerated_glob h document position = Some glob <->
    exists pre marker q frag,
      textBefore document position = Some (pre ++ marker ++ q :: frag) /\
      trigger_marker marker /\ (q = squote \/ q = dquote) /\
      fragment_text frag /\ startsWith frag (js "./") = true /\
      glob = tpl_glob h (target_directory h document frag).
Proof.
  intros h document position glob. unfold enumerated_glob. split.
  - destruct (textBefore document position) as [text|]; [|discriminate].
    destruct (exec regex_start text) as [m|] eqn:Em; [|discriminate].
    destruct (startsWith (group m 1) (js "./")) eqn:Es; cbn [negb]; [|discriminate].
    intros H. injection H as <-.
    destruct (proj1 (regex_start_iff text (group m 1) (index m)))
      as (pre & marker & q & Ht & Hmk & Hq & Hf & _); [eauto|].
    exists pre, marker, q, (group m 1). rewrite Ht. auto 10.
  - intros (pre & marker & q & frag & Ht & Hmk & Hq & Hf & Hs & ->).
    rewrite Ht.
    destruct (proj2 (regex_start_iff (pre ++ marker ++ q :: frag) frag
                       (length (pre ++ marker))))
      as (m & Hm & Hg & _); [exists pre, marker, q; auto|].
    rewrite Hm, Hg, Hs. reflexivity.
Qed.

Lemma completion_trigger_witness :
  enumerated_glob (sample_host [])
    (sample_document (js "<p>{include  " ++ squote :: js "./inc/a"))
    (cursor_at_end (js "<p>{include  " ++ squote :: js "./inc/a"))
  = Some (tpl_glob (sample_host [])
            (target_directory (sample_host [])
               (sample_document (js "<p>{include  " ++ squote :: js "./inc/a"))
               (js "./inc/a"))).
Proof.
  apply (proj2 (completion_trigger (sample_host [])
                  (sample_document (js "<p>{include  " ++ squote :: js "./inc/a"))
                  (cursor_at_end (js "<p>{include  " ++ squote :: js "./inc/a"))
                  _)).
  exists (js "<p>"), (js "{include  "), squote, (js "./inc/a").
  split; [vm_compute; reflexivity|].
  split; [right; exists (js "  "); split; [discriminate|split; [repeat constructor|reflexivity]]|].
  split; [left; reflexivity|].
  split; [split; [discriminate|vm_compute; repeat constructor; discriminate]|].
  split; reflexivity.
Defined.

(** ** Where the candidates come from *)

Section CollectSound.

Variable h : Host.
Variable dir : str.
Variable rng : Range Position.



End CollectSound.



(** ** The directory part of a fragment *)

Lemma ends_with_inside {A : Type} (d l s : list A) (a : A) :
  d ++ l = s ++ [a] -> l <> [] -> In a l.
Proof.
  intros E Hl. destruct (last_case l) as [->|(l' & b & ->)]; [congruence|].
  rewrite app_assoc in E. apply app_inj_tail in E. destruct E as [_ ->].
  apply in_or_app. simpl. auto.
Qed.

Lemma directory_split_unique (sub seg d seg' : str) :
  sub ++ seg = d ++ seg' ->
  (sub = [] \/ exists s, sub = s ++ [slash]) ->
  (d = [] \/ exists s, d = s ++ [slash]) ->
  ~ In slash seg -> ~ In slash seg' ->
  sub = d.
Proof.
  intros E Hsub Hd Hseg Hseg'.
  assert (Hcase : forall (a b x y : str),
    a ++ x = b ++ y ->
    (a = [] \/ exists s, a = s ++ [slash]) ->
    ~ In slash y ->
    forall l, a = b ++ l -> l = []).
  { intros a b x y Eab Ha Hy l El.
    destruct l as [|c l]; [reflexivity|exfalso].
    destruct Ha as [->|(s & Hs)]; [destruct b; discriminate|].
    rewrite El in Hs, Eab.
    assert (Hin : In slash (c :: l))
      by (eapply ends_with_inside; [exact Hs|discriminate]).
    apply Hy. rewrite <- app_assoc in Eab. apply app_inv_head in Eab.
    rewrite <- Eab. apply in_or_app. auto. }
  pose proof E as E0.
  apply app_eq_app in E0. destruct E0 as (l & [[E1 E2]|[E1 E2]]).
  - assert (l = []) by (apply (Hcase sub d seg seg' E Hsub Hseg' l E1)).
    subst l. rewrite app_nil_r in E1. exact E1.
  - assert (l = []) by (apply (Hcase d sub seg' seg (eq_sym E) Hd Hseg l E1)).
    subst l. rewrite app_nil_r in E1. symmetry. exact E1.
Qed.

Lemma directories_of_exact (sub seg : str) :
  (sub = [] \/ exists s, sub = s ++ [slash]) ->
  ~ In slash seg ->
  directories_of (sub ++ seg) = sub.
Proof.
  intros Hsub Hseg.
  destruct (directories_of_spec (sub ++ seg)) as (seg' & E & Hseg' & Hd).
  symmetry. eapply directory_split_unique; eauto.
Qed.

(** X12. The directory part of a fragment is the fragment up to and
    including its last slash, and nothing when it holds no slash.  While
    the user types on in the last segment the directory part, and with
    it the directory and the glob handed to the host, stay the same. *)
Theorem directory_part_stable :
  (forall sub seg : str,
     (sub = [] \/ exists s, sub = s ++ [slash]) ->
     ~ In slash seg ->
     directories_of (sub ++ seg) = sub) /\
  (forall (h : Host) (document : TextDocument) (file typed : str),
     ~ In slash typed ->
     directories_of (file ++ typed) = directories_of file /\
     target_directory h document (file ++ typed) = target_directory h document file /\
     tpl_glob h (target_directory h document (file ++ typed))
       = tpl_glob h (target_directory h document file)).
Proof.
  split; [exact directories_of_exact|].
  intros h document file typed Ht.
  assert (E : directories_of (file ++ typed) = directories_of file).
  { destruct (directories_of_spec file) as (seg & E & Hseg & Hd).
    rewrite E at 1. rewrite <- app_assoc. apply directories_of_exact; [exact Hd|].
    intros Hin. apply in_app_or in Hin. tauto. }
  unfold target_directory. rewrite E. auto.
Qed.

Lemma directory_part_stable_witness :
  directories_of (js "./inc/" ++ js "a.t") = js "./inc/" /\
  directories_of (js "./inc/a" ++ js ".tpl") = directories_of (js "./inc/a").
Proof.
  split.
  - apply (proj1 directory_part_stable).
    + right. exists (js "./inc"). reflexivity.
    + vm_compute. intuition discriminate.
  - apply (proj2 directory_part_stable (sample_host []) (sample_document [])).
    vm_compute. intuition discriminate.
Defined.

(** * The full range of a document *)

Lemma not_before_origin (p : Position) : isBefore p (Pos 0 0) = false.
Proof.
  unfold isBefore. cbn [line character].
  destruct (line p), (character p); reflexivity.
Qed.

(** X13. For a document of at least one line [fullDocumentRange]
    returns the range from the start of the first line to the end of the
    last line, and every position of the document lies in it; for no
    line at all it raises the error of [lineAt]. *)
Theorem full_document_range_covers :
  fullDocumentRange [] = None /\
  forall lines : list str,
    lines <> [] ->
    exists r,
      fullDocumentRange lines = Some r /\
      range_start r = Pos 0 0 /\
      range_end r = Pos (length lines - 1) (length (last lines [])) /\
      forall (l c : nat) (text : str),
        nth_error lines l = Some text -> c <= length text ->
        contains r (Pos l c) = true.
Proof.
  split; [reflexivity|]. intros lines Hne.
  assert (Hlast : nth_error lines (length lines - 1) = Some (last lines [])).
  { clear -Hne. induction lines as [|a lines IH]; [congruence|].
    destruct lines as [|b lines]; [reflexivity|].
    specialize (IH ltac:(discriminate)). simpl in *.
    rewrite Nat.sub_0_r in IH. exact IH. }
  unfold fullDocumentRange. destruct lines as [|a lines]; [congruence|].
  rewrite Hlast.
  assert (Er : newRange (Pos 0 0) (Pos (length (a :: lines) - 1)
                                       (length (last (a :: lines) [])))
               = MkRange (Pos 0 0) (Pos (length (a :: lines) - 1)
                                        (length (last (a :: lines) []))))
    by (unfold newRange; rewrite not_before_origin; reflexivity).
  rewrite Er. eexists. split; [reflexivity|]. split; [reflexivity|].
  split; [reflexivity|].
  intros l c text Hl Hc. unfold contains.
  cbn [range_start range_end]. rewrite not_before_origin.
  unfold isBefore. cbn [line character negb andb].
  assert (Hlt : l < length (a :: lines)) by (apply nth_error_Some; congruence).
  destruct (Nat.eq_dec l (length (a :: lines) - 1)) as [->|Hneq].
  - rewrite Hlast in Hl. injection Hl as <-.
    rewrite Nat.ltb_irrefl, Nat.eqb_refl.
    rewrite (proj2 (Nat.ltb_ge _ _)) by exact Hc. reflexivity.
  - rewrite (proj2 (Nat.ltb_ge _ _)) by lia.
    rewrite (proj2 (Nat.eqb_neq _ _)) by lia. reflexivity.
Qed.

Lemma full_document_range_covers_witness :
  exists r,
    fullDocumentRange [js "{if $a}"; js "  text"; js "{/if}"] = Some r /\
    range_start r = Pos 0 0 /\
    range_end r = Pos 2 5 /\
    forall (l c : nat) (text : str),
      nth_error [js "{if $a}"; js "  text"; js "{/if}"] l = Some text ->
      c <= length text ->
      contains r (Pos l c) = true.
Proof.
  apply (proj2 full_document_range_covers [js "{if $a}"; js "  text"; js "{/if}"]).
  discriminate.
Defined.

(** * The settings, the timer and the listeners *)

(** ** The colours [setup] accepts *)

Lemma class_of_chars (l : str) (c : code_unit) :
  char_matches (Cls false (map CChar l)) c = true <-> In c l.
Proof.
  unfold char_matches. cbn [xorb]. induction l as [|d l IH]; cbn [map existsb In].
  - split; [discriminate|tauto].
  - rewrite orb_true_iff, IH. cbn [item_matches]. rewrite N.eqb_eq.
    split; intros [H|H]; auto.
Qed.

Lemma rmatch_group_eq n r x (k : cont) :
  rmatch (Group n r) Fwd x k
  = rmatch r Fwd x (fun y => k (set_cap n (between Fwd x y) y)).
Proof. reflexivity. Qed.

Lemma lang_repeat_atom (a : regex) : forall n w,
  is_atom a = true ->
  lang (seqs (repeat a (S n))) w ->
  length w = S n /\ Forall (fun c => char_matches a c = true) w.
Proof.
  induction n as [|n IH]; intros w Ha H.
  - cbn [repeat seqs] in H. inversion H; subst; try discriminate.
    split; [reflexivity|]. constructor; [assumption|constructor].
  - change (seqs (repeat a (S (S n)))) with (Seq a (seqs (repeat a (S n)))) in H.
    apply lang_seq_inv in H. destruct H as (w1 & w2 & -> & H1 & H2).
    destruct (IH _ Ha H2) as [Hl Hf].
    inversion H1; subst; try discriminate.
    split; [simpl; lia|]. constructor; assumption.
Qed.

Lemma rmatch_repeat_atom (a : regex) : forall n ds l r cs (k : cont),
  is_atom a = true ->
  length ds = S n ->
  Forall (fun c => char_matches a c = true) ds ->
  rmatch (seqs (repeat a (S n))) Fwd (MState l (ds ++ r) cs) k
  = k (MState (rev ds ++ l) r cs).
Proof.
  induction n as [|n IH]; intros ds l r cs k Ha Hl Hf.
  - destruct ds as [|d [|d' ds]]; try discriminate.
    inversion Hf; subst. cbn [repeat seqs]. apply rmatch_atom_eq; assumption.
  - destruct ds as [|d ds]; [discriminate|]. inversion Hf; subst.
    change (seqs (repeat a (S (S n)))) with (Seq a (seqs (repeat a (S n)))).
    rewrite rmatch_seq_eq. cbn [app]. rewrite rmatch_atom_eq by assumption.
    rewrite IH by (auto; simpl in Hl; lia).
    cbn [rev]. rewrite <- app_assoc. reflexivity.
Qed.

Lemma hex_test_iff (s : str) :
  test_from_start hexRegex s = true <-> valid_color (Some s).
Proof.
  unfold test_from_start, valid_color, hexRegex. cbn [seqs]. split.
  - destruct (rmatch _ Fwd _ _) as [y|] eqn:E; [intros _|discriminate].
    rewrite rmatch_seq_eq in E. apply rmatch_lang in E.
    destruct E as (y1 & w1 & [Hr1 _] & Hw1 & E).
    rewrite rmatch_seq_eq in E. apply rmatch_lang in E.
    destruct E as (y2 & w2 & [Hr2 _] & Hw2 & E).
    cbn [rmatch] in E. destruct (after y2) eqn:Ea; [|discriminate].
    cbn [after] in Hr1. rewrite Hr1, Hr2, app_nil_r.
    apply lang_chr_inv in Hw1. subst w1.
    apply lang_group_inv in Hw2. apply lang_repeat_atom in Hw2; [|reflexivity].
    destruct Hw2 as [Hl Hf]. exists w2. split; [reflexivity|]. split; [exact Hl|].
    eapply Forall_impl; [|exact Hf]. intros c. apply class_of_chars.
  - intros (ds & Hs & Hl & Hf). injection Hs as ->.
    rewrite rmatch_seq_eq, rmatch_chr_eq, rmatch_seq_eq, rmatch_group_eq.
    rewrite <- (app_nil_r ds) at 1.
    rewrite rmatch_repeat_atom; [reflexivity|reflexivity|exact Hl|].
    eapply Forall_impl; [|exact Hf]. intros c. apply class_of_chars.
Qed.

Lemma hex_test_valid (v : option str) :
  test_from_start hexRegex (to_text v) = true <-> valid_color v.
Proof.
  destruct v as [s|]; [apply hex_test_iff|].
  split; [vm_compute; discriminate|].
  intros (ds & H & _). discriminate.
Qed.

Lemma defaults_valid :
  valid_color (Some light_default) /\ valid_color (Some dark_default).
Proof. split; apply hex_test_iff; vm_compute; reflexivity. Qed.


(** ** What the stages of [setup] and the handlers change *)

Lemma validate_color_spec v default warning w :
  validate_color v default warning w =
  (if test_from_start hexRegex (to_text v) then v else Some default,
   if test_from_start hexRegex (to_text v) then w
   else showWarningMessage warning w).
Proof.
  unfold validate_color. destruct (test_from_start hexRegex (to_text v)); reflexivity.
Qed.

Lemma well_kept_frame x w x' w' :
  live w' = live w -> next_handle w' = next_handle w ->
  timers w' = timers w -> next_timer w' = next_timer w ->
  CONFIG x' = CONFIG x -> smartyDecoration x' = smartyDecoration x ->
  editorRegistration x' = editorRegistration x ->
  docRegistration x' = docRegistration x -> timeout x' = timeout x ->
  well_kept (x, w) -> well_kept (x', w').
Proof.
  unfold well_kept. intros E1 E2 E3 E4 E5 E6 E7 E8 E9.
  rewrite E1, E2, E3, E4, E5, E6, E7, E8, E9. exact (fun H => H).
Qed.

Lemma run_updateDecorations_frame x w :
  live (run_updateDecorations x w) = live w /\
  next_handle (run_updateDecorations x w) = next_handle w /\
  timers (run_updateDecorations x w) = timers w /\
  next_timer (run_updateDecorations x w) = next_timer w /\
  warnings (run_updateDecorations x w) = warnings w.
Proof.
  unfold run_updateDecorations.
  destruct (updateDecorations _ _) as [[|tags]|]; cbn; auto.
Qed.

Lemma timers_all_same x w :
  (forall id, In id (timers w) -> timeout x = Some id) ->
  match timeout x with
  | Some id => filter (fun t => negb (Nat.eqb t id)) (timers w) = []
  | None => timers w = []
  end.
Proof.
  intros Ht.
  destruct (timeout x) as [id|] eqn:E.
  - induction (timers w) as [|t ts IH]; [reflexivity|]. cbn [filter].
    pose proof (Ht t (or_introl eq_refl)) as H. injection H as ->.
    rewrite Nat.eqb_refl. cbn [negb]. apply IH.
    intros id' Hin. apply Ht. right. exact Hin.
  - destruct (timers w) as [|t ts]; [reflexivity|].
    pose proof (Ht t (or_introl eq_refl)) as H. discriminate.
Qed.

(** What [triggerUpdateDecorations] leaves alone. *)
Lemma trigger_frame x w :
  live (snd (triggerUpdateDecorations x w)) = live w /\
  next_handle (snd (triggerUpdateDecorations x w)) = next_handle w /\
  warnings (snd (triggerUpdateDecorations x w)) = warnings w /\
  subscriptions (snd (triggerUpdateDecorations x w)) = subscriptions w /\
  blockComment (snd (triggerUpdateDecorations x w)) = blockComment w /\
  painted (snd (triggerUpdateDecorations x w)) = painted w /\
  next_timer (snd (triggerUpdateDecorations x w)) = S (next_timer w) /\
  fst (triggerUpdateDecorations x w) = set_timeout (Some (next_timer w)) x.
Proof.
  unfold triggerUpdateDecorations.
  destruct (timeout x) as [id|]; cbn; auto 10.
Qed.

(** After [triggerUpdateDecorations] exactly one timer is pending, the
    new one. *)
Lemma trigger_timers x w :
  (forall id, In id (timers w) -> timeout x = Some id) ->
  timers (snd (triggerUpdateDecorations x w)) = [next_timer w].
Proof.
  intros Ht. pose proof (timers_all_same x w Ht) as H.
  unfold triggerUpdateDecorations.
  destruct (timeout x) as [id|]; cbn; rewrite H; reflexivity.
Qed.

Lemma well_kept_trigger x w :
  well_kept (x, w) -> well_kept (triggerUpdateDecorations x w).
Proof.
  intros (H1 & H2 & _ & H4 & H5).
  destruct (trigger_frame x w) as (Hl & Hh & _ & _ & _ & _ & Hn & Hx).
  pose proof (trigger_timers x w (fun id Hin => proj2 (H4 id Hin))) as Ht.
  destruct (triggerUpdateDecorations x w) as [x' w']. cbn [fst snd] in *.
  subst x'. unfold well_kept. rewrite Hl, Hh, Ht, Hn. cbn.
  split; [exact H1|]. split; [exact H2|]. split.
  - repeat constructor. simpl. tauto.
  - split; [|exact H5]. intros id [<-|[]]. split; [lia|reflexivity].
Qed.

Lemma filter_all_false {A : Type} (p : A -> bool) (l : list A) :
  (forall a, In a l -> p a = false) -> filter p l = [].
Proof.
  induction l as [|a l IH]; intros H; [reflexivity|]. cbn [filter].
  rewrite (H a (or_introl eq_refl)). apply IH. intros b Hb. apply H. right. exact Hb.
Qed.

Lemma filter_twice {A : Type} (p q : A -> bool) (l : list A) :
  filter p (filter q l) = filter (fun a => q a && p a) l.
Proof.
  induction l as [|a l IH]; [reflexivity|]. cbn [filter].
  destruct (q a); cbn [filter andb]; rewrite IH; reflexivity.
Qed.

Lemma dispose_frame h w :
  live (dispose h w) =
    filter (fun e => match h with
                     | Some id => negb (Nat.eqb (fst e) id)
                     | None => true
                     end) (live w) /\
  next_handle (dispose h w) = next_handle w /\
  timers (dispose h w) = timers w /\ next_timer (dispose h w) = next_timer w /\
  warnings (dispose h w) = warnings w.
Proof.
  destruct h as [id|]; cbn; repeat split; auto.
  symmetry. induction (live w) as [|e l IH]; [reflexivity|].
  cbn [filter]. rewrite IH. reflexivity.
Qed.

(** Every disposable that is alive is one of the three [setup] holds, so
    [setup] disposes of all of them. *)
Lemma dispose_registrations_spec x w :
  well_kept (x, w) ->
  live (dispose_registrations x w) = [] /\
  next_handle (dispose_registrations x w) = next_handle w /\
  timers (dispose_registrations x w) = timers w /\
  next_timer (dispose_registrations x w) = next_timer w /\
  warnings (dispose_registrations x w) = warnings w.
Proof.
  intros (_ & H2 & _). unfold dispose_registrations.
  destruct (dispose_frame (smartyDecoration x) w) as (L1 & N1 & T1 & M1 & W1).
  destruct (dispose_frame (editorRegistration x)
              (dispose (smartyDecoration x) w)) as (L2 & N2 & T2 & M2 & W2).
  destruct (dispose_frame (docRegistration x)
              (dispose (editorRegistration x) (dispose (smartyDecoration x) w)))
    as (L3 & N3 & T3 & M3 & W3).
  rewrite N3, N2, N1, T3, T2, T1, M3, M2, M1, W3, W2, W1.
  repeat split; auto.
  rewrite L3, L2, L1. rewrite !filter_twice. apply filter_all_false.
  intros [h d] Hin. destruct (H2 h d Hin) as [_ Hd]. cbn [fst].
  destruct d as [l k| |].
  - destruct Hd as (-> & _). rewrite Nat.eqb_refl. reflexivity.
  - rewrite Hd, Nat.eqb_refl. cbn [negb andb]. rewrite !andb_false_r. reflexivity.
  - rewrite Hd, Nat.eqb_refl. cbn [negb]. rewrite !andb_false_r. reflexivity.
Qed.

Lemma start_highlighting_frame l d x w :
  let n := next_handle w in
  let s := start_highlighting l d x w in
  live (snd s) =
    live w ++ [(n, DecorationType l d); (S n, ActiveEditorListener);
               (S (S n), TextDocumentListener)] /\
  next_handle (snd s) = S (S (S n)) /\
  subscriptions (snd s) = subscriptions w ++ [S n; S (S n)] /\
  warnings (snd s) = warnings w /\
  smartyDecoration (fst s) = Some n /\
  editorRegistration (fst s) = Some (S n) /\
  docRegistration (fst s) = Some (S (S n)) /\
  CONFIG (fst s) = CONFIG x /\
  activeTextEditor (fst s) = activeTextEditor x.
Proof.
  cbv zeta. unfold start_highlighting, create.
  cbn [activeTextEditor set_smartyDecoration].
  destruct (activeTextEditor x) as [e|] eqn:Ee.
  - match goal with |- context [triggerUpdateDecorations ?a ?b] =>
      destruct (trigger_frame a b) as (Hl & Hh & Hw & Hs & _ & _ & _ & Hx);
      destruct (triggerUpdateDecorations a b) as [x' w'] end.
    cbn [fst snd] in *. subst x'. cbn in *. rewrite Hl, Hh, Hw, Hs.
    rewrite <- !app_assoc. cbn. auto 10.
  - cbn. rewrite <- !app_assoc. cbn. auto 10.
Qed.

Lemma start_highlighting_timers l d x w :
  (forall id, In id (timers w) -> timeout x = Some id) ->
  let s := start_highlighting l d x w in
  match activeTextEditor x with
  | Some e =>
      timers (snd s) = [next_timer w] /\ next_timer (snd s) = S (next_timer w) /\
      timeout (fst s) = Some (next_timer w) /\
      blockComment (snd s) =
        Some (setLanguageConfiguration (document_text (editor e)))
  | None =>
      timers (snd s) = timers w /\ next_timer (snd s) = next_timer w /\
      timeout (fst s) = timeout x /\ blockComment (snd s) = blockComment w
  end.
Proof.
  intros Ht. cbv zeta. unfold start_highlighting, create.
  cbn [activeTextEditor set_smartyDecoration].
  destruct (activeTextEditor x) as [e|] eqn:Ee.
  - match goal with |- context [triggerUpdateDecorations ?a ?b] =>
      destruct (trigger_frame a b) as (_ & _ & _ & _ & _ & _ & Hn & Hx);
      pose proof (trigger_timers a b Ht) as Hti;
      destruct (triggerUpdateDecorations a b) as [x' w'] end.
    cbn [fst snd] in *. subst x'. cbn in *. rewrite Hti, Hn. auto.
  - cbn. auto.
Qed.

Lemma dispose_registrations_frame x w :
  next_handle (dispose_registrations x w) = next_handle w /\
  timers (dispose_registrations x w) = timers w /\
  next_timer (dispose_registrations x w) = next_timer w /\
  warnings (dispose_registrations x w) = warnings w /\
  subscriptions (dispose_registrations x w) = subscriptions w.
Proof.
  unfold dispose_registrations, dispose.
  destruct (smartyDecoration x), (editorRegistration x), (docRegistration x);
    cbn; auto.
Qed.

(** [setup] when [CONFIG.highlightColor] is an object, stage by stage. *)
Lemma setup_unfold settings x w hc :
  highlightColor settings = Some hc ->
  let tl := test_from_start hexRegex (to_text (light hc)) in
  let td := test_from_start hexRegex (to_text (dark hc)) in
  let l := if tl then light hc else Some light_default in
  let d := if td then dark hc else Some dark_default in
  let w1 := if tl then w else showWarningMessage light_warning w in
  let w2 := if td then w1 else showWarningMessage dark_warning w1 in
  let x1 := set_CONFIG (with_highlightColor (HighlightColor l d) settings)
                       (set_CONFIG settings x) in
  let w3 := dispose_registrations x1 w2 in
  setup settings x w =
    if negb (truthy (highlight settings)) then Returned x1 w3
    else Returned (fst (start_highlighting l d x1 w3))
                  (snd (start_highlighting l d x1 w3)).
Proof.
  intros Hc. cbv zeta. unfold setup. rewrite Hc, !validate_color_spec.
  destruct (negb (truthy (highlight settings))); [reflexivity|].
  destruct (start_highlighting _ _ _ _); reflexivity.
Qed.

Lemma validated_color (v : option str) (default : str) :
  valid_color (Some default) ->
  valid_color (if test_from_start hexRegex (to_text v) then v else Some default).
Proof.
  intros Hd. destruct (test_from_start hexRegex (to_text v)) eqn:E; [|exact Hd].
  apply hex_test_valid. exact E.
Qed.

Lemma validated_cases (v : option str) (default warning : str) (w : Workbench) :
  let t := test_from_start hexRegex (to_text v) in
  (valid_color v /\ (if t then v else Some default) = v /\
   warnings (if t then w else showWarningMessage warning w) = warnings w ++ []) \/
  (~ valid_color v /\ (if t then v else Some default) = Some default /\
   warnings (if t then w else showWarningMessage warning w)
     = warnings w ++ [warning]).
Proof.
  cbv zeta. destruct (test_from_start hexRegex (to_text v)) eqn:E.
  - left. rewrite app_nil_r. repeat split. apply hex_test_valid. exact E.
  - right. repeat split. intros H. apply hex_test_valid in H. congruence.
Qed.

Lemma setup_config_warnings settings x w hc :
  highlightColor settings = Some hc ->
  let tl := test_from_start hexRegex (to_text (light hc)) in
  let td := test_from_start hexRegex (to_text (dark hc)) in
  let l := if tl then light hc else Some light_default in
  let d := if td then dark hc else Some dark_default in
  let w1 := if tl then w else showWarningMessage light_warning w in
  let w2 := if td then w1 else showWarningMessage dark_warning w1 in
  exists x' w',
    setup settings x w = Returned x' w' /\
    CONFIG x' = with_highlightColor (HighlightColor l d) settings /\
    warnings w' = warnings w2.
Proof.
  intros Hc. cbv zeta. rewrite (@setup_unfold settings x w hc Hc).
  match goal with |- context [dispose_registrations ?a ?b] =>
    destruct (dispose_registrations_frame a b) as (_ & _ & _ & Hw & _) end.
  destruct (negb (truthy (highlight settings))).
  - eexists _, _. split; [reflexivity|]. split; [reflexivity|exact Hw].
  - match goal with |- context [start_highlighting ?l ?d ?a ?b] =>
      destruct (start_highlighting_frame l d a b)
        as (_ & _ & _ & Hw' & _ & _ & _ & Hc' & _) end.
    eexists _, _. split; [reflexivity|]. split; [exact Hc'|].
    rewrite Hw'. exact Hw.
Qed.

Ltac validation_case I :=
  first [ left; split; [apply I; reflexivity|split; reflexivity]
        | right; split;
          [let H := fresh in intros H; apply I in H; discriminate H
          |split; reflexivity] ].

(** X14 (setup, colour validation).  Without a [highlightColor] object
    [setup] throws after [CONFIG] was assigned and before anything else
    happened.  With one it returns, both colours of [CONFIG] are then a
    [#] followed by eight hexadecimal digits: a colour of that form is
    kept, any other is replaced by its default, with one warning for each
    replaced colour, light before dark. *)
Theorem setup_validates_colors (settings : Configuration) (x : Extension)
    (w : Workbench) :
  match highlightColor settings with
  | None => setup settings x w = Thrown (set_CONFIG settings x) w
  | Some hc =>
      exists x' w' l d lw dw,
        setup settings x w = Returned x' w' /\
        CONFIG x' = with_highlightColor (HighlightColor l d) settings /\
        valid_color l /\ valid_color d /\
        (valid_color (light hc) /\ l = light hc /\ lw = [] \/
         ~ valid_color (light hc) /\ l = Some light_default /\
         lw = [light_warning]) /\
        (valid_color (dark hc) /\ d = dark hc /\ dw = [] \/
         ~ valid_color (dark hc) /\ d = Some dark_default /\
         dw = [dark_warning]) /\
        warnings w' = warnings w ++ lw ++ dw
  end.
Proof.
  destruct (highlightColor settings) as [hc|] eqn:Hc.
  - destruct (@setup_config_warnings settings x w hc Hc) as (x' & w' & Hs & Hcfg & Hw).
    pose proof (validated_color (light hc) (proj1 defaults_valid)) as Vl.
    pose proof (validated_color (dark hc) (proj2 defaults_valid)) as Vd.
    pose proof (hex_test_valid (light hc)) as Il.
    pose proof (hex_test_valid (dark hc)) as Id.
    exists x', w'. eexists _, _.
    exists (if test_from_start hexRegex (to_text (light hc))
            then [] else [light_warning]),
           (if test_from_start hexRegex (to_text (dark hc))
            then [] else [dark_warning]).
    split; [exact Hs|]. split; [exact Hcfg|].
    split; [exact Vl|]. split; [exact Vd|].
    rewrite Hw. clear Hs Hcfg Hw Vl Vd.
    destruct (test_from_start hexRegex (to_text (light hc)));
      destruct (test_from_start hexRegex (to_text (dark hc)));
      cbn [warnings showWarningMessage]; rewrite <- ?app_assoc; cbn [app];
      rewrite ?app_nil_r;
      (split; [validation_case Il|split; [validation_case Id|reflexivity]]).
  - unfold setup. rewrite Hc. reflexivity.
Qed.

(** ** The invariant is kept *)

Lemma well_kept_config c x w :
  (forall hc, highlightColor c = Some hc ->
     valid_color (light hc) /\ valid_color (dark hc)) ->
  well_kept (x, w) -> well_kept (set_CONFIG c x, w).
Proof.
  intros Hc (H1 & H2 & H3 & H4 & _). unfold well_kept. cbn.
  repeat (split; [assumption|]). exact Hc.
Qed.

Lemma well_kept_warning msg x w :
  well_kept (x, w) -> well_kept (x, showWarningMessage msg w).
Proof. apply well_kept_frame; reflexivity. Qed.

Lemma well_kept_setup settings x w :
  well_kept (x, w) -> live_shape (x, w) ->
  well_kept (state_of (setup settings x w)) /\
  live_shape (state_of (setup settings x w)).
Proof.
  intros Hwk Hsh. destruct (highlightColor settings) as [hc|] eqn:Hc.
  - rewrite (@setup_unfold settings x w hc Hc).
    set (l := if test_from_start hexRegex (to_text (light hc))
              then light hc else Some light_default).
    set (d := if test_from_start hexRegex (to_text (dark hc))
              then dark hc else Some dark_default).
    assert (Vl : valid_color l)
      by (apply validated_color; apply defaults_valid).
    assert (Vd : valid_color d)
      by (apply validated_color; apply defaults_valid).
    set (w1 := if test_from_start hexRegex (to_text (light hc))
               then w else showWarningMessage light_warning w).
    set (w2 := if test_from_start hexRegex (to_text (dark hc))
               then w1 else showWarningMessage dark_warning w1).
    set (c := with_highlightColor (HighlightColor l d) settings).
    set (x1 := set_CONFIG c (set_CONFIG settings x)).
    assert (Hwk1 : well_kept (x1, w2)).
    { refine (@well_kept_config c x w2 _ _).
      - cbn. intros hc' E. injection E as <-. cbn. auto.
      - subst w2 w1.
        destruct (test_from_start hexRegex (to_text (light hc)));
          destruct (test_from_start hexRegex (to_text (dark hc)));
          repeat apply well_kept_warning; exact Hwk. }
    destruct (dispose_registrations_spec Hwk1) as (Hl & Hh & Ht & Hn & _).
    destruct Hwk1 as (_ & _ & K3 & K4 & K5).
    set (w3 := dispose_registrations x1 w2) in *.
    destruct (negb (truthy (highlight settings))).
    + cbn [state_of]. split; [|left; exact Hl].
      unfold well_kept. rewrite Hl, Ht, Hn. cbn [map In].
      split; [constructor|]. split; [intros h k []|]. auto.
    + destruct (start_highlighting_frame l d x1 w3)
        as (Fl & Fh & _ & _ & Fs & Fe & Fd & Fc & Fa).
      pose proof (@start_highlighting_timers l d x1 w3) as Ft.
      rewrite Ht in Ft. specialize (Ft (fun id Hin => proj2 (K4 id Hin))).
      cbv zeta in *. rewrite Hl, Hh in *. cbn [app] in Fl.
      destruct (start_highlighting l d x1 w3) as [x' w'].
      cbn [fst snd state_of] in *.
      split; [|right; exists (next_handle w2), l, d; exact Fl].
      unfold well_kept. rewrite Fl, Fh, Fc. cbn [map fst].
      split.
      { repeat constructor; cbn [In]; intros H;
          repeat (destruct H as [H|H]; [lia|]); exact H. }
      split.
      { intros h k Hin. cbn [In] in Hin.
        destruct Hin as [E|[E|[E|[]]]]; injection E as <- <-;
          (split; [lia|]); auto. }
      destruct (activeTextEditor x1) as [e|].
      * destruct Ft as (T1 & T2 & T3 & _). rewrite T1, T2, T3.
        split; [repeat constructor; cbn; tauto|].
        split; [|exact K5].
        intros id [<-|[]]. split; [lia|reflexivity].
      * destruct Ft as (T1 & T2 & T3 & _). rewrite T1, T2, T3, Hn.
        split; [exact K3|]. split; [exact K4|exact K5].
  - unfold setup. rewrite Hc. cbn [state_of]. split; [|exact Hsh].
    apply well_kept_config; [|exact Hwk].
    intros hc E. rewrite Hc in E. discriminate.
Qed.

Lemma run_setLanguageConfiguration_frame e w :
  live (run_setLanguageConfiguration e w) = live w /\
  next_handle (run_setLanguageConfiguration e w) = next_handle w /\
  timers (run_setLanguageConfiguration e w) = timers w /\
  next_timer (run_setLanguageConfiguration e w) = next_timer w.
Proof. cbn. auto. Qed.

Lemma on_active_editor_frame e x w :
  live (snd (on_active_editor e x w)) = live w /\
  next_handle (snd (on_active_editor e x w)) = next_handle w /\
  timers (snd (on_active_editor e x w)) = timers w /\
  next_timer (snd (on_active_editor e x w)) = next_timer w /\
  fst (on_active_editor e x w) = set_activeTextEditor e x.
Proof.
  unfold on_active_editor. destruct e as [ed|]; cbn [fst snd]; auto.
  destruct (run_updateDecorations_frame (set_activeTextEditor (Some ed) x) w)
    as (H1 & H2 & H3 & H4 & _).
  cbn [run_setLanguageConfiguration live next_handle timers next_timer]. auto.
Qed.

Lemma well_kept_on_active_editor e x w :
  well_kept (x, w) -> well_kept (on_active_editor e x w).
Proof.
  intros Hwk. destruct (on_active_editor_frame e x w) as (H1 & H2 & H3 & H4 & H5).
  destruct (on_active_editor e x w) as [x' w']. cbn [fst snd] in *. subst x'.
  revert Hwk. apply well_kept_frame; auto.
Qed.

Lemma well_kept_on_text_document doc x w :
  well_kept (x, w) ->
  well_kept (on_text_document doc x w) /\
  live (snd (on_text_document doc x w)) = live w.
Proof.
  intros Hwk. unfold on_text_document.
  destruct (activeTextEditor x) as [ed|]; [|auto].
  destruct (Nat.eqb doc (document_id ed)); [|auto].
  split; [apply well_kept_trigger; exact Hwk|apply trigger_frame].
Qed.

Lemma well_kept_timer id x w :
  well_kept (x, w) ->
  well_kept (x, run_updateDecorations x (clearTimeout id w)).
Proof.
  intros (H1 & H2 & H3 & H4 & H5).
  destruct (run_updateDecorations_frame x (clearTimeout id w))
    as (F1 & F2 & F3 & F4 & _).
  unfold well_kept. rewrite F1, F2, F3, F4. cbn.
  split; [exact H1|]. split; [exact H2|]. split; [|split; [|exact H5]].
  - apply NoDup_filter. exact H3.
  - intros t Hin. apply filter_In in Hin. apply H4. tauto.
Qed.

Lemma iter_kept (n : nat) (f : Extension * Workbench -> Extension * Workbench)
    (s : Extension * Workbench) :
  (forall s, well_kept s -> well_kept (f s) /\ live (snd (f s)) = live (snd s)) ->
  well_kept s ->
  well_kept (Nat.iter n f s) /\ live (snd (Nat.iter n f s)) = live (snd s).
Proof.
  intros Hf Hs. induction n as [|n [IH1 IH2]]; [auto|].
  cbn [Nat.iter nat_rect]. destruct (Hf _ IH1) as [K1 K2].
  change (nat_rect _ s (fun _ => f) n) with (Nat.iter n f s).
  split; [exact K1|]. rewrite K2. exact IH2.
Qed.

Lemma well_kept_deliver ev s :
  well_kept s -> live_shape s ->
  well_kept (deliver ev s) /\ live_shape (deliver ev s).
Proof.
  intros Hwk Hsh. destruct s as [x w]. destruct ev as [aff c|e|doc text|id];
    cbn [deliver].
  - unfold on_configuration. destruct (existsb aff _); [|cbn [state_of]; auto].
    apply well_kept_setup; assumption.
  - destruct (@iter_kept (length (filter is_editor_listener (live w)))
                (fun s => on_active_editor e (fst s) (snd s)) (x, w)) as [K1 K2].
    + intros [x0 w0] H0. cbn [fst snd].
      split; [apply well_kept_on_active_editor; exact H0
             |apply on_active_editor_frame].
    + exact Hwk.
    + split; [exact K1|]. unfold live_shape in *. rewrite K2. exact Hsh.
  - destruct (@iter_kept (length (filter is_document_listener (live w)))
                (fun s => on_text_document doc (fst s) (snd s))
                (edit_document doc text x, w)) as [K1 K2].
    + intros [x0 w0] H0. cbn [fst snd].
      apply well_kept_on_text_document. exact H0.
    + revert Hwk. unfold edit_document.
      destruct (activeTextEditor x) as [ed|]; [|auto].
      destruct (Nat.eqb doc (document_id ed)); [|auto].
      apply well_kept_frame; reflexivity.
    + split; [exact K1|]. unfold live_shape in *. rewrite K2. exact Hsh.
  - destruct (existsb (Nat.eqb id) (timers w)); [|auto].
    split; [apply well_kept_timer; exact Hwk|].
    unfold live_shape in *. cbn [snd] in *.
    destruct (run_updateDecorations_frame x (clearTimeout id w)) as (F1 & _).
    rewrite F1. exact Hsh.
Qed.

Lemma well_kept_run events s :
  well_kept s -> live_shape s ->
  well_kept (run events s) /\ live_shape (run events s).
Proof.
  unfold run. revert s. induction events as [|ev events IH]; intros s Hwk Hsh;
    [auto|].
  cbn [fold_left]. destruct (well_kept_deliver ev Hwk Hsh) as [K1 K2].
  apply IH; assumption.
Qed.

Lemma well_kept_activate e settings :
  well_kept (activate e settings) /\ live_shape (activate e settings).
Proof.
  unfold activate. apply well_kept_setup.
  - unfold well_kept. cbn. repeat split; try constructor; try tauto;
      try discriminate.
  - left. reflexivity.
Qed.

(** X15 (setup, listeners, timer: what is kept).  After activation and
    any events: every disposable that is alive is the one its variable
    holds, a decoration type that is alive has valid colours, a pending
    timer is the one [timeout] holds, the colours of [CONFIG] are valid;
    and what is alive is nothing, or one decoration type and the two
    listeners, created in this order. *)
Theorem reachable_state_well_kept (e : option ActiveEditor)
    (settings : Configuration) (events : list event) :
  well_kept (run events (activate e settings)) /\
  live_shape (run events (activate e settings)).
Proof.
  destruct (well_kept_activate e settings) as [H1 H2].
  apply well_kept_run; assumption.
Qed.

(** ** The timer *)

Lemma run_updateDecorations_painted x w ed :
  activeTextEditor x = Some ed ->
  exists tags,
    decorations (document_text (editor ed)) = Some tags /\
    painted (run_updateDecorations x w) =
      if str_eqb (languageId (editor ed)) (js "smarty")
      then Some (smartyDecoration x, tags) else painted w.
Proof.
  intros Ha. destruct (TagScanner_total (document_text (editor ed)))
    as (spans & Hs & _).
  pose proof (decorations_filter (document_text (editor ed))) as Hd.
  rewrite Hs in Hd. eexists. split; [exact Hd|].
  unfold run_updateDecorations, updateDecorations. rewrite Ha.
  cbn [option_map].
  destruct (str_eqb (languageId (editor ed)) (js "smarty")); cbn [negb];
    [|reflexivity].
  unfold decorations in Hd. rewrite Hd. reflexivity.
Qed.

Lemma one_document_listener s h :
  live_shape s -> In (h, TextDocumentListener) (live (snd s)) ->
  length (filter is_document_listener (live (snd s))) = 1.
Proof.
  intros [E|(n & l & d & E)] Hin; rewrite E in *; [destruct Hin|reflexivity].
Qed.

Lemma deliver_text_change x w ed h text :
  live_shape (x, w) -> In (h, TextDocumentListener) (live w) ->
  activeTextEditor x = Some ed ->
  deliver (TextDocumentChanged (document_id ed) text) (x, w)
    = triggerUpdateDecorations
        (set_activeTextEditor
           (Some (MkActiveEditor (document_id ed)
                                 (Editor (languageId (editor ed)) text))) x) w.
Proof.
  intros Hsh Hin Ha. cbn [deliver].
  pose proof (@one_document_listener (x, w) h Hsh Hin) as H1. cbn [snd] in H1.
  rewrite H1. cbn [Nat.iter nat_rect fst snd].
  unfold edit_document. rewrite Ha, Nat.eqb_refl.
  unfold on_text_document. cbn [activeTextEditor set_activeTextEditor document_id].
  rewrite Nat.eqb_refl. reflexivity.
Qed.

Lemma burst_of_changes h text : forall texts ed x w,
  well_kept (x, w) -> live_shape (x, w) ->
  In (h, TextDocumentListener) (live w) ->
  activeTextEditor x = Some ed ->
  let s' := run (map (TextDocumentChanged (document_id ed)) (texts ++ [text]))
                (x, w) in
  timers (snd s') = [next_timer w + length texts] /\
  timeout (fst s') = Some (next_timer w + length texts) /\
  smartyDecoration (fst s') = smartyDecoration x /\
  activeTextEditor (fst s')
    = Some (MkActiveEditor (document_id ed)
                           (Editor (languageId (editor ed)) text)) /\
  painted (snd s') = painted w.
Proof.
  induction texts as [|t texts IH]; intros ed x w Hwk Hsh Hin Ha; cbv zeta.
  - cbn [app map run fold_left length].
    rewrite (@deliver_text_change x w ed h text Hsh Hin Ha).
    match goal with |- context [triggerUpdateDecorations ?a w] =>
      destruct (trigger_frame a w) as (_ & _ & _ & _ & _ & Hp & _ & Hx);
      pose proof (trigger_timers a w
                    (fun id Hi => proj2 (proj1 (proj2 (proj2 (proj2 Hwk))) id Hi)))
        as Ht;
      destruct (triggerUpdateDecorations a w) as [x1 w1] end.
    cbn [fst snd] in *. subst x1. rewrite Nat.add_0_r. auto.
  - change (run (map (TextDocumentChanged (document_id ed))
                     ((t :: texts) ++ [text])) (x, w))
      with (run (map (TextDocumentChanged (document_id ed)) (texts ++ [text]))
                (deliver (TextDocumentChanged (document_id ed) t) (x, w))).
    rewrite (@deliver_text_change x w ed h t Hsh Hin Ha).
    set (ed1 := MkActiveEditor (document_id ed) (Editor (languageId (editor ed)) t)).
    set (x0 := set_activeTextEditor (Some ed1) x).
    assert (Hwk0 : well_kept (x0, w))
      by (revert Hwk; apply well_kept_frame; reflexivity).
    pose proof (well_kept_trigger Hwk0) as Hwk'.
    destruct (trigger_frame x0 w) as (Hl & _ & _ & _ & _ & Hp & Hn & Hx).
    destruct (triggerUpdateDecorations x0 w) as [x1 w1]. cbn [fst snd] in *.
    assert (Hsh' : live_shape (x1, w1))
      by (unfold live_shape in *; cbn [snd] in *; rewrite Hl; exact Hsh).
    rewrite <- Hl in Hin.
    assert (Ha' : activeTextEditor x1 = Some ed1) by (subst x1; reflexivity).
    destruct (IH ed1 x1 w1 Hwk' Hsh' Hin Ha') as (K1 & K2 & K3 & K4 & K5).
    change (document_id ed1) with (document_id ed) in *.
    change (languageId (editor ed1)) with (languageId (editor ed)) in K4.
    rewrite K1, K2, K3, K4, K5, Hn, Hp. cbn [length]. rewrite Nat.add_succ_r.
    subst x1. repeat (split; [reflexivity|]). reflexivity.
Qed.

(** X16 (triggerUpdateDecorations, the document listener, the timer).
    While the document listener is alive, any number of changes of the
    active document in a row leave one timer pending, the last one set,
    and paint nothing; when that timer fires nothing is pending any more
    and, in a smarty document, the decorations of the text of the last
    change, which is the text of the document by then, are painted with
    the decoration type of [smartyDecoration]: the texts in between are
    never painted. *)
Theorem changes_are_debounced (e : option ActiveEditor)
    (settings : Configuration) (events : list event) (ed : ActiveEditor)
    (h : nat) (texts : list str) (text : str) :
  let s := run events (activate e settings) in
  activeTextEditor (fst s) = Some ed ->
  In (h, TextDocumentListener) (live (snd s)) ->
  let last := next_timer (snd s) + length texts in
  let s' := run (map (TextDocumentChanged (document_id ed)) (texts ++ [text]))
                s in
  let s'' := deliver (TimerFired last) s' in
  timers (snd s') = [last] /\ timeout (fst s') = Some last /\
  painted (snd s') = painted (snd s) /\
  timers (snd s'') = [] /\
  exists tags,
    decorations text = Some tags /\
    painted (snd s'') =
      if str_eqb (languageId (editor ed)) (js "smarty")
      then Some (smartyDecoration (fst s), tags) else painted (snd s).
Proof.
  cbv zeta. intros Ha Hin.
  destruct (well_kept_activate e settings) as [A1 A2].
  destruct (@well_kept_run events _ A1 A2) as [Hwk Hsh].
  destruct (run events (activate e settings)) as [x w]. cbn [fst snd] in *.
  destruct (@burst_of_changes h text texts ed x w Hwk Hsh Hin Ha)
    as (K1 & K2 & K3 & K4 & K5).
  cbv zeta in *.
  destruct (run (map (TextDocumentChanged (document_id ed)) (texts ++ [text]))
                (x, w)) as [x' w'].
  cbn [fst snd] in *.
  split; [exact K1|]. split; [exact K2|]. split; [exact K5|].
  cbn [deliver]. rewrite K1. cbn [existsb]. rewrite Nat.eqb_refl. cbn [orb snd].
  destruct (run_updateDecorations_frame x'
              (clearTimeout (next_timer w + length texts) w')) as (_ & _ & F3 & _).
  split.
  - rewrite F3. cbn. rewrite K1. cbn. rewrite Nat.eqb_refl. reflexivity.
  - destruct (@run_updateDecorations_painted x'
                (clearTimeout (next_timer w + length texts) w') _ K4)
      as (tags & T1 & T2).
    exists tags. split; [exact T1|]. rewrite T2, K3. cbn. rewrite K5. reflexivity.
Qed.

Lemma changes_are_debounced_witness :
  let s := run [] (activate (Some sample_active_editor) sample_settings) in
  let last := next_timer (snd s) + length [js "{a"; js "{a}"] in
  let s' := run (map (TextDocumentChanged (document_id sample_active_editor))
                     ([js "{a"; js "{a}"] ++ [js "{a}{b}"])) s in
  let s'' := deliver (TimerFired last) s' in
  timers (snd s') = [last] /\ timeout (fst s') = Some last /\
  painted (snd s') = painted (snd s) /\
  timers (snd s'') = [] /\
  exists tags,
    decorations (js "{a}{b}") = Some tags /\
    painted (snd s'') =
      if str_eqb (languageId (editor sample_active_editor)) (js "smarty")
      then Some (smartyDecoration (fst s), tags) else painted (snd s).
Proof.
  apply (@changes_are_debounced (Some sample_active_editor) sample_settings []
           sample_active_editor 2 [js "{a"; js "{a}"] (js "{a}{b}")).
  - vm_compute. reflexivity.
  - vm_compute. tauto.
Defined.

(** ** What [setup] leaves alive *)

Lemma setup_resources settings x w hc :
  well_kept (x, w) -> highlightColor settings = Some hc ->
  exists x' w' l d,
    setup settings x w = Returned x' w' /\
    highlightColor (CONFIG x') = Some (HighlightColor l d) /\
    if truthy (highlight settings)
    then
      let n := next_handle w in
      live w' = [(n, DecorationType l d); (S n, ActiveEditorListener);
                 (S (S n), TextDocumentListener)] /\
      subscriptions w' = subscriptions w ++ [S n; S (S n)] /\
      smartyDecoration x' = Some n /\ editorRegistration x' = Some (S n) /\
      docRegistration x' = Some (S (S n)) /\
      timers w' = match activeTextEditor x with
                  | Some _ => [next_timer w]
                  | None => timers w
                  end
    else
      live w' = [] /\ subscriptions w' = subscriptions w /\
      smartyDecoration x' = smartyDecoration x /\
      editorRegistration x' = editorRegistration x /\
      docRegistration x' = docRegistration x /\
      timers w' = timers w.
Proof.
  intros Hwk Hc. rewrite (@setup_unfold settings x w hc Hc).
  set (l := if test_from_start hexRegex (to_text (light hc))
            then light hc else Some light_default).
  set (d := if test_from_start hexRegex (to_text (dark hc))
            then dark hc else Some dark_default).
  set (w1 := if test_from_start hexRegex (to_text (light hc))
             then w else showWarningMessage light_warning w).
  set (w2 := if test_from_start hexRegex (to_text (dark hc))
             then w1 else showWarningMessage dark_warning w1).
  set (c := with_highlightColor (HighlightColor l d) settings).
  set (x1 := set_CONFIG c (set_CONFIG settings x)).
  assert (Hw2 : live w2 = live w /\ next_handle w2 = next_handle w /\
                timers w2 = timers w /\ next_timer w2 = next_timer w /\
                subscriptions w2 = subscriptions w).
  { subst w2 w1.
    destruct (test_from_start hexRegex (to_text (light hc)));
      destruct (test_from_start hexRegex (to_text (dark hc))); cbn; auto. }
  destruct Hw2 as (E1 & E2 & E3 & E4 & E5).
  assert (Hwk1 : well_kept (x1, w2)).
  { destruct Hwk as (H1 & H2 & H3 & H4 & _).
    unfold well_kept. rewrite E1, E2, E3, E4. cbn.
    repeat (split; [assumption|]).
    intros hc' E. injection E as <-. cbn.
    split; apply validated_color; apply defaults_valid. }
  destruct (dispose_registrations_spec Hwk1) as (Hl & Hh & Ht & Hn & _).
  destruct (dispose_registrations_frame x1 w2) as (_ & _ & _ & _ & Hs).
  set (w3 := dispose_registrations x1 w2) in *.
  destruct (truthy (highlight settings)); cbn [negb].
  - destruct (start_highlighting_frame l d x1 w3)
      as (Fl & _ & Fsub & _ & Fs & Fe & Fd & Fc & _).
    pose proof (@start_highlighting_timers l d x1 w3) as Ft.
    rewrite Ht in Ft.
    specialize (Ft (fun id Hin => proj2 (proj1 (proj2 (proj2 (proj2 Hwk1))) id Hin))).
    cbv zeta in *. rewrite Hl, Hh, E2 in *. rewrite Hs, E5 in Fsub.
    cbn [app] in Fl.
    exists (fst (start_highlighting l d x1 w3)),
           (snd (start_highlighting l d x1 w3)), l, d.
    split; [reflexivity|]. split; [rewrite Fc; reflexivity|].
    repeat (split; [assumption|]).
    change (activeTextEditor x1) with (activeTextEditor x) in Ft.
    destruct (activeTextEditor x); destruct Ft as (T1 & _); rewrite T1;
      [rewrite Hn, E4; reflexivity|exact E3].
  - exists x1, w3, l, d. split; [reflexivity|]. split; [reflexivity|].
    split; [exact Hl|]. split; [rewrite Hs; exact E5|].
    repeat (split; [reflexivity|]). rewrite Ht. exact E3.
Qed.

(** X17 (setup, what it leaves alive).  Whatever happened before, a run
    of [setup] that does not throw disposes of every disposable of the
    extension that was alive.  With highlighting off nothing is alive
    afterwards and the three variables keep their stale values; with
    highlighting on exactly a new decoration type, with the validated
    colours, and the two new listeners are alive, the listeners are added
    to [context.subscriptions] behind the earlier ones, and a timer is set
    exactly if an editor is active. *)
Theorem setup_replaces_registrations (e : option ActiveEditor)
    (settings : Configuration) (events : list event)
    (settings' : Configuration) (hc : HighlightColorConfig) :
  let x := fst (run events (activate e settings)) in
  let w := snd (run events (activate e settings)) in
  highlightColor settings' = Some hc ->
  exists x' w' l d,
    setup settings' x w = Returned x' w' /\
    highlightColor (CONFIG x') = Some (HighlightColor l d) /\
    if truthy (highlight settings')
    then
      let n := next_handle w in
      live w' = [(n, DecorationType l d); (S n, ActiveEditorListener);
                 (S (S n), TextDocumentListener)] /\
      subscriptions w' = subscriptions w ++ [S n; S (S n)] /\
      smartyDecoration x' = Some n /\ editorRegistration x' = Some (S n) /\
      docRegistration x' = Some (S (S n)) /\
      timers w' = match activeTextEditor x with
                  | Some _ => [next_timer w]
                  | None => timers w
                  end
    else
      live w' = [] /\ subscriptions w' = subscriptions w /\
      smartyDecoration x' = smartyDecoration x /\
      editorRegistration x' = editorRegistration x /\
      docRegistration x' = docRegistration x /\
      timers w' = timers w.
Proof.
  cbv zeta. intros Hc.
  destruct (well_kept_activate e settings) as [A1 A2].
  destruct (@well_kept_run events _ A1 A2) as [Hwk _].
  destruct (run events (activate e settings)) as [x w]. cbn [fst snd].
  exact (@setup_resources settings' x w hc Hwk Hc).
Qed.

Lemma setup_replaces_registrations_witness :
  let x := fst (run [TextDocumentChanged 7 (js "{$c}")]
                    (activate (Some sample_active_editor) sample_settings)) in
  let w := snd (run [TextDocumentChanged 7 (js "{$c}")]
                    (activate (Some sample_active_editor) sample_settings)) in
  exists x' w' l d,
    setup sample_settings x w = Returned x' w' /\
    highlightColor (CONFIG x') = Some (HighlightColor l d) /\
    if truthy (highlight sample_settings)
    then
      let n := next_handle w in
      live w' = [(n, DecorationType l d); (S n, ActiveEditorListener);
                 (S (S n), TextDocumentListener)] /\
      subscriptions w' = subscriptions w ++ [S n; S (S n)] /\
      smartyDecoration x' = Some n /\ editorRegistration x' = Some (S n) /\
      docRegistration x' = Some (S (S n)) /\
      timers w' = match activeTextEditor x with
                  | Some _ => [next_timer w]
                  | None => timers w
                  end
    else
      live w' = [] /\ subscriptions w' = subscriptions w /\
      smartyDecoration x' = smartyDecoration x /\
      editorRegistration x' = editorRegistration x /\
      docRegistration x' = docRegistration x /\
      timers w' = timers w.
Proof.
  apply (@setup_replaces_registrations (Some sample_active_editor)
           sample_settings [TextDocumentChanged 7 (js "{$c}")] sample_settings
           (HighlightColor (Some (js "#ffFA0040")) None)).
  reflexivity.
Defined.



